(** * ronimis: the CSV-to-JSON transformation pipeline of server.go

    A shallow embedding of the data-handling core of [server.go]
    (the Log File Locator, the Row Parser, the Timestamp Normalizer and
    the Aggregator) together with the parts of the Go standard library it
    calls ([strconv.Atoi], [time.Parse], [time.Date], [Time.In],
    [Time.Format], [Time.AddDate], [filepath.Base], [sort.Slice]), and the
    properties of the pipeline stated in the specification. *)

From Stdlib Require Import ZArith String Ascii List Lia Bool.
From Stdlib Require Import Sorting.Sorted Sorting.Permutation.
From stdpp Require Import base option list sorting strings gmap fin_maps.

Local Open Scope string_scope.
Local Open Scope Z_scope.

(* ===================================================================== *)
(** * Go strings: byte sequences                                          *)
(* ===================================================================== *)

(** A Go [string] is a sequence of bytes; [len], indexing and slicing
    count bytes.  Rocq's [string] is a list of 8-bit [ascii] values. *)
Module gostring.

Definition len (s : string) : Z := Z.of_nat (String.length s).
Definition len_list {A} (l : list A) : Z := Z.of_nat (List.length l).

(** [s[lo:hi]] for [0 <= lo <= hi <= len s]. *)
Definition slice (s : string) (lo hi : Z) : string :=
  String.substring (Z.to_nat lo) (Z.to_nat (hi - lo)) s.

Definition byte (c : ascii) : Z := Z.of_N (N_of_ascii c).

(** ['0' <= c && c <= '9']. *)
Definition isDigitByte (c : ascii) : bool :=
  (48 <=? byte c) && (byte c <=? 57).

Definition digitVal (c : ascii) : Z := byte c - 48.

(** Go's [<] on strings: bytewise lexicographic order. *)
Definition lt (s1 s2 : string) : bool := String.ltb s1 s2.
Definition le (s1 s2 : string) : bool := String.leb s1 s2.

(** Decimal rendering of a non-negative integer ([%d] of [fmt],
    the digit loop of [appendInt]). *)
Fixpoint digitsFuel (fuel : nat) (n : Z) (acc : string) : string :=
  match fuel with
  | O => acc
  | S fuel' =>
      let acc' := String (ascii_of_N (Z.to_N (48 + n mod 10))) acc in
      if n / 10 =? 0 then acc' else digitsFuel fuel' (n / 10) acc'
  end.

Definition utoa (n : Z) : string :=
  digitsFuel (S (Z.to_nat (Z.log2 n))) n "".

Fixpoint zeros (n : nat) : string :=
  match n with O => "" | S n' => String "0" (zeros n') end.

End gostring.

(* ===================================================================== *)
(** * strconv                                                             *)
(* ===================================================================== *)

Module strconv.
Import gostring.

Definition maxInt : Z := 2 ^ 63 - 1.
Definition minInt : Z := - 2 ^ 63.

(** The digit loop shared by [Atoi]'s fast path and [ParseUint] in
    base 10: every byte must be a decimal digit (no underscores). *)
Fixpoint digits (s : string) (n : Z) : option Z :=
  match s with
  | EmptyString => Some n
  | String ch rest =>
      if isDigitByte ch then digits rest (n * 10 + digitVal ch) else None
  end.

(** [strconv.Atoi] with a 64-bit [int]: an optional sign, at least one
    decimal digit, value within the range of [int]; [None] is any of
    its errors (syntax or range). *)
Definition Atoi (s : string) : option Z :=
  match s with
  | EmptyString => None
  | String c rest =>
      let neg := Ascii.eqb c "-" in
      let body := if neg || Ascii.eqb c "+" then rest else s in
      match body with
      | EmptyString => None
      | _ =>
          match digits body 0 with
          | Some n =>
              let v := if neg then - n else n in
              if (minInt <=? v) && (v <=? maxInt) then Some v else None
          | None => None
          end
      end
  end.

End strconv.

(* ===================================================================== *)
(** * time                                                                *)
(* ===================================================================== *)

Module time.
Import gostring.

(** ** Locations *)

(** A [Location] as [time.Location] keeps it: the offset in force before
    the first transition and the transitions [(when, offset)] in
    increasing order of [when] (Unix seconds).  [FixedZone] has no
    transition. *)
Record Location := mkLocation {
  firstOffset : Z;
  tx : list (Z * Z)
}.

Definition UTC : Location := mkLocation 0 [].
Definition FixedZone (offset : Z) : Location := mkLocation offset [].

Definition alpha : Z := - 2 ^ 63.
Definition omega : Z := 2 ^ 63 - 1.

(** [lookupFrom off start tx sec]: the zone in force at [sec], knowing
    that [off] is in force from [start] on until the next transition. *)
Fixpoint lookupFrom (off start : Z) (tx : list (Z * Z)) (sec : Z)
  : Z * Z * Z :=
  match tx with
  | [] => (off, start, omega)
  | (when, off') :: rest =>
      if sec <? when then (off, start, when)
      else lookupFrom off' when rest sec
  end.

(** [Location.lookup]: [(offset, start, end)] of the zone in force at
    the instant [sec]. *)
Definition lookup (l : Location) (sec : Z) : Z * Z * Z :=
  lookupFrom (firstOffset l) alpha (tx l) sec.

Definition offsetAt (l : Location) (sec : Z) : Z := fst (fst (lookup l sec)).

(** ** Instants *)

(** A [Time]: seconds since the Unix epoch and the location it is
    presented in.  The nanoseconds are always zero on the paths of
    [server.go], which rebuilds every parsed time with [nsec = 0]. *)
Record Time := mkTime {
  unixSec : Z;
  location : Location
}.

Definition Equal (t u : Time) : bool := unixSec t =? unixSec u.
Definition After (t u : Time) : bool := unixSec u <? unixSec t.
Definition Before (t u : Time) : bool := unixSec t <? unixSec u.
Definition In (t : Time) (l : Location) : Time := mkTime (unixSec t) l.

(** ** The calendar *)

Definition secondsPerMinute : Z := 60.
Definition secondsPerHour : Z := 3600.
Definition secondsPerDay : Z := 86400.
Definition daysPer400Years : Z := 365 * 400 + 97.
Definition daysPer100Years : Z := 365 * 100 + 24.
Definition daysPer4Years : Z := 365 * 4 + 1.

Definition absoluteZeroYear : Z := -292277022399.
Definition absoluteToInternal : Z := -9223371966579724800.
Definition internalToUnix : Z := -62135596800.
Definition unixToInternal : Z := 62135596800.
Definition internalToAbsolute : Z := 9223371966579724800.

Definition isLeap (year : Z) : bool :=
  (Z.rem year 4 =? 0) && (negb (Z.rem year 100 =? 0) || (Z.rem year 400 =? 0)).

(** [daysBefore[m]]: the days of a non-leap year before month [m+1]. *)
Definition daysBefore (m : Z) : Z :=
  match m with
  | 0 => 0 | 1 => 31 | 2 => 59 | 3 => 90 | 4 => 120 | 5 => 151
  | 6 => 181 | 7 => 212 | 8 => 243 | 9 => 273 | 10 => 304 | 11 => 334
  | 12 => 365
  | _ => 0
  end.

Definition daysIn (m year : Z) : Z :=
  if (m =? 2) && isLeap year then 29 else daysBefore m - daysBefore (m - 1).

(** [norm hi lo base]: carry [lo] into [hi] so that [0 <= lo < base]. *)
Definition norm (hi lo base : Z) : Z * Z :=
  let '(hi, lo) :=
    if lo <? 0 then
      let n := (- lo - 1) / base + 1 in (hi - n, lo + n * base)
    else (hi, lo) in
  if lo >=? base then
    let n := lo / base in (hi + n, lo - n * base)
  else (hi, lo).

Definition daysSinceEpoch (year : Z) : Z :=
  let y := year - absoluteZeroYear in
  let n := y / 400 in
  let y := y - 400 * n in
  let d := daysPer400Years * n in
  let n := y / 100 in
  let y := y - 100 * n in
  let d := d + daysPer100Years * n in
  let n := y / 4 in
  let y := y - 4 * n in
  let d := d + daysPer4Years * n in
  let n := y in
  d + 365 * n.

(** The wall-clock seconds (seconds since the Unix epoch of the same
    fields read in UTC) that [Date] computes before the zone lookup. *)
Definition wallSeconds (year month day hour min sec : Z) : Z :=
  let m := month - 1 in
  let '(year, m) := norm year m 12 in
  let month := m + 1 in
  let '(min, sec) := norm min sec 60 in
  let '(hour, min) := norm hour min 60 in
  let '(day, hour) := norm day hour 24 in
  let d := daysSinceEpoch year in
  let d := d + daysBefore (month - 1) in
  let d := if isLeap year && (month >=? 3) then d + 1 else d in
  let d := d + (day - 1) in
  let abs := d * secondsPerDay in
  let abs := abs + (hour * secondsPerHour + min * secondsPerMinute + sec) in
  abs + (absoluteToInternal + internalToUnix).

(** [time.Date] with [nsec = 0]: the zone offset is looked up at the
    wall-clock value itself and, when the instant so obtained falls
    outside the zone found, looked up again at that instant. *)
Definition Date (year month day hour min sec : Z) (loc : Location) : Time :=
  let unix := wallSeconds year month day hour min sec in
  let '(offset, start, end_) := lookup loc unix in
  if offset =? 0 then mkTime unix loc
  else
    let utc := unix - offset in
    let offset :=
      if (utc <? start) || (utc >=? end_)
      then offsetAt loc utc else offset in
    mkTime (unix - offset) loc.

(** [Time.abs]: seconds since the absolute epoch of the wall clock
    shown in the time's location. *)
Definition abs (t : Time) : Z :=
  unixSec t + offsetAt (location t) (unixSec t)
  + (unixToInternal + internalToAbsolute).

(** [absDate]: year, month and day of month of an absolute time. *)
Definition absDate (abs : Z) : Z * Z * Z :=
  let d := abs / secondsPerDay in
  let n := d / daysPer400Years in
  let y := 400 * n in
  let d := d - daysPer400Years * n in
  let n := d / daysPer100Years in
  let n := n - n / 4 in
  let y := y + 100 * n in
  let d := d - daysPer100Years * n in
  let n := d / daysPer4Years in
  let y := y + 4 * n in
  let d := d - daysPer4Years * n in
  let n := d / 365 in
  let n := n - n / 4 in
  let y := y + n in
  let d := d - 365 * n in
  let year := y + absoluteZeroYear in
  let yday := d in
  let day := yday in
  if isLeap year && (day =? 31 + 29 - 1) then (year, 2, 29)
  else
    let day := if isLeap year && (day >? 31 + 29 - 1) then day - 1 else day in
    let month := day / 31 in
    let end_ := daysBefore (month + 1) in
    let '(month, begin) :=
      if day >=? end_ then (month + 1, end_) else (month, daysBefore month) in
    (year, month + 1, day - begin + 1).

(** [absClock]: hour, minute and second of an absolute time. *)
Definition absClock (abs : Z) : Z * Z * Z :=
  let sec := abs mod secondsPerDay in
  let hour := sec / secondsPerHour in
  let sec := sec - hour * secondsPerHour in
  let min := sec / secondsPerMinute in
  let sec := sec - min * secondsPerMinute in
  (hour, min, sec).

Definition Year (t : Time) : Z := fst (fst (absDate (abs t))).
Definition Month (t : Time) : Z := snd (fst (absDate (abs t))).
Definition Day (t : Time) : Z := snd (absDate (abs t)).
Definition Hour (t : Time) : Z := fst (fst (absClock (abs t))).
Definition Minute (t : Time) : Z := snd (fst (absClock (abs t))).
Definition Second (t : Time) : Z := snd (absClock (abs t)).

(** [t.AddDate(years, months, days)]. *)
Definition AddDate (t : Time) (years months days : Z) : Time :=
  Date (Year t + years) (Month t + months) (Day t + days)
       (Hour t) (Minute t) (Second t) (location t).

(** ** Layouts *)

(** The standard chunks that [nextStdChunk] finds in the layouts of
    [server.go]. *)
Inductive stdChunk :=
| stdLongYear      (* "2006" *)
| stdZeroMonth     (* "01" *)
| stdZeroDay       (* "02" *)
| stdHour          (* "15" *)
| stdZeroMinute    (* "04" *)
| stdZeroSecond    (* "05" *)
| stdNumColonTZ.   (* "-07:00" *)

(** A layout as the successive calls of [nextStdChunk] cut it: literal
    prefix and standard chunk, repeatedly, and the literal text left
    after the last chunk. *)
Record Layout := mkLayout {
  chunks : list (string * stdChunk);
  suffix : string
}.

(** ["2006-01-02"] *)
Definition layoutDate : Layout :=
  mkLayout [("", stdLongYear); ("-", stdZeroMonth); ("-", stdZeroDay)] "".

(** ["20060102"] *)
Definition layoutCompactDate : Layout :=
  mkLayout [("", stdLongYear); ("", stdZeroMonth); ("", stdZeroDay)] "".

(** ["2006-01-02 15:04:05"] *)
Definition layoutDateTime : Layout :=
  mkLayout [("", stdLongYear); ("-", stdZeroMonth); ("-", stdZeroDay);
            (" ", stdHour); (":", stdZeroMinute); (":", stdZeroSecond)] "".

(** ["2006-01-02T15:04:05-07:00"] *)
Definition layoutISO : Layout :=
  mkLayout [("", stdLongYear); ("-", stdZeroMonth); ("-", stdZeroDay);
            ("T", stdHour); (":", stdZeroMinute); (":", stdZeroSecond);
            ("", stdNumColonTZ)] "".

(** ** Parse *)

Fixpoint cutspace (s : string) : string :=
  match s with
  | String c rest => if Ascii.eqb c " " then cutspace rest else s
  | EmptyString => s
  end.

(** [skip value prefix]: remove [prefix] from the front of [value],
    a run of spaces of the prefix standing for any run of spaces.
    [inRun] is set while the spaces of one run of the prefix are
    being dropped ([prefix = cutspace(prefix)]). *)
Fixpoint skipFrom (inRun : bool) (value prefix : string) : option string :=
  match prefix with
  | EmptyString => Some value
  | String p prefix' =>
      if Ascii.eqb p " " then
        if inRun then skipFrom true value prefix'
        else
          match value with
          | String v _ =>
              if Ascii.eqb v " " then skipFrom true (cutspace value) prefix'
              else None
          | EmptyString => skipFrom true value prefix'
          end
      else
        match value with
        | String v value' =>
            if Ascii.eqb v p then skipFrom false value' prefix' else None
        | EmptyString => None
        end
  end.

Definition skip (value prefix : string) : option string :=
  skipFrom false value prefix.

(** [getnum s fixed]: a one- or two-digit number at the front of [s];
    two digits are compulsory when [fixed]. *)
Definition getnum (s : string) (fixed : bool) : option (Z * string) :=
  match s with
  | String c0 rest =>
      if isDigitByte c0 then
        match rest with
        | String c1 rest' =>
            if isDigitByte c1
            then Some (digitVal c0 * 10 + digitVal c1, rest')
            else if fixed then None else Some (digitVal c0, rest)
        | EmptyString => if fixed then None else Some (digitVal c0, rest)
        end
      else None
  | EmptyString => None
  end.

Fixpoint dropDigits (s : string) : string :=
  match s with
  | String c rest => if isDigitByte c then dropDigits rest else s
  | EmptyString => s
  end.

Definition commaOrPeriod (c : ascii) : bool :=
  Ascii.eqb c "." || Ascii.eqb c ",".

(** The fields [Parse] collects. *)
Record civil := mkCivil {
  cYear : Z; cMonth : Z; cDay : Z; cHour : Z; cMin : Z; cSec : Z
}.

(** One standard chunk of the layout read off the value.  [None] is
    [errBad] or a range error. *)
Definition parseStd (std : stdChunk) (value : string) (c : civil)
  : option (civil * string) :=
  match std with
  | stdLongYear =>
      if (len value <? 4) then None else
      match value with
      | String c0 _ =>
          if isDigitByte c0 then
            match strconv.digits (slice value 0 4) 0 with
            | Some year =>
                Some (mkCivil year (cMonth c) (cDay c) (cHour c) (cMin c) (cSec c),
                      slice value 4 (len value))
            | None => None
            end
          else None
      | EmptyString => None
      end
  | stdZeroMonth =>
      '(month, value) ← getnum value true;
      if (month <=? 0) || (12 <? month) then None
      else Some (mkCivil (cYear c) month (cDay c) (cHour c) (cMin c) (cSec c), value)
  | stdZeroDay =>
      '(day, value) ← getnum value true;
      Some (mkCivil (cYear c) (cMonth c) day (cHour c) (cMin c) (cSec c), value)
  | stdHour =>
      '(hour, value) ← getnum value false;
      if (hour <? 0) || (24 <=? hour) then None
      else Some (mkCivil (cYear c) (cMonth c) (cDay c) hour (cMin c) (cSec c), value)
  | stdZeroMinute =>
      '(min, value) ← getnum value true;
      if (min <? 0) || (60 <=? min) then None
      else Some (mkCivil (cYear c) (cMonth c) (cDay c) (cHour c) min (cSec c), value)
  | stdZeroSecond =>
      '(sec, value) ← getnum value true;
      if (sec <? 0) || (60 <=? sec) then None
      else
        (* a fractional second in the value, none in the layout *)
        let value :=
          match value with
          | String v0 (String v1 rest) =>
              if commaOrPeriod v0 && isDigitByte v1 then dropDigits rest
              else value
          | _ => value
          end in
        Some (mkCivil (cYear c) (cMonth c) (cDay c) (cHour c) (cMin c) sec, value)
  | stdNumColonTZ => None
  end.

Fixpoint parseChunks (cs : list (string * stdChunk)) (value : string)
  (c : civil) : option (civil * string) :=
  match cs with
  | [] => Some (c, value)
  | (prefix, std) :: cs' =>
      value ← skip value prefix;
      '(c, value) ← parseStd std value c;
      parseChunks cs' value c
  end.

(** The fields of a value in a layout, validated as [Parse] does: no
    text may be left over and the day must exist in its month. *)
Definition parseCivil (layout : Layout) (value : string) : option civil :=
  '(c, value) ← parseChunks (chunks layout) value (mkCivil 0 1 1 0 0 0);
  value ← skip value (suffix layout);
  if negb (len value =? 0) then None
  else if (cDay c <? 1) || (cDay c >? daysIn (cMonth c) (cYear c)) then None
  else Some c.

(** [time.Parse(layout, value)] for a layout without zone: the time is
    in UTC. *)
Definition Parse (layout : Layout) (value : string) : option Time :=
  c ← parseCivil layout value;
  Some (Date (cYear c) (cMonth c) (cDay c) (cHour c) (cMin c) (cSec c) UTC).

(** ** Format *)

Definition appendInt (x width : Z) : string :=
  let u := Z.abs x in
  let ds := utoa u in
  (if x <? 0 then "-" else "")
    +:+ zeros (Z.to_nat (width - len ds)) +:+ ds.

Definition formatStd (t : Time) (std : stdChunk) : string :=
  match std with
  | stdLongYear => appendInt (Year t) 4
  | stdZeroMonth => appendInt (Month t) 2
  | stdZeroDay => appendInt (Day t) 2
  | stdHour => appendInt (Hour t) 2
  | stdZeroMinute => appendInt (Minute t) 2
  | stdZeroSecond => appendInt (Second t) 2
  | stdNumColonTZ =>
      let offset := offsetAt (location t) (unixSec t) in
      let zone := Z.quot offset 60 in
      let sign := if zone <? 0 then "-" else "+" in
      let zone := if zone <? 0 then - zone else zone in
      sign +:+ appendInt (Z.quot zone 60) 2 +:+ ":" +:+ appendInt (Z.rem zone 60) 2
  end.

Fixpoint formatChunks (t : Time) (cs : list (string * stdChunk)) : string :=
  match cs with
  | [] => ""
  | (prefix, std) :: cs' => prefix +:+ formatStd t std +:+ formatChunks t cs'
  end.

(** [t.Format(layout)]. *)
Definition Format (t : Time) (layout : Layout) : string :=
  formatChunks t (chunks layout) +:+ suffix layout.

End time.

(* ===================================================================== *)
(** * sort                                                                *)
(* ===================================================================== *)

(** [sort.Slice(x, less)]: the pattern-defeating quicksort of the [sort]
    package ([pdqsort_func] and its helpers), on a slice held as a list.
    [less] compares two elements; the Go closure [less(i, j)] compares
    the elements at positions [i] and [j] of the slice being sorted. *)
Module sort.
Section lessSwap.
Context {A : Type} (less : A → A → bool).

Definition at_ (data : list A) (i : Z) : option A :=
  if i <? 0 then None else data !! Z.to_nat i.

(** [data.Less(i, j)] and [data.Swap(i, j)]; positions outside the
    slice (a panic in Go) compare false and swap nothing. *)
Definition Less (data : list A) (i j : Z) : bool :=
  match at_ data i, at_ data j with
  | Some x, Some y => less x y
  | _, _ => false
  end.

Definition Swap (data : list A) (i j : Z) : list A :=
  match at_ data i, at_ data j with
  | Some x, Some y => <[Z.to_nat j := x]> (<[Z.to_nat i := y]> data)
  | _, _ => data
  end.

(** [for j := i; j > a && data.Less(j, j-1); j-- { data.Swap(j, j-1) }],
    [n] bounding the iterations left ([j - a]). *)
Fixpoint insertionInner (n : nat) (data : list A) (a j : Z) : list A :=
  match n with
  | O => data
  | S n' =>
      if (j >? a) && Less data j (j - 1)
      then insertionInner n' (Swap data j (j - 1)) a (j - 1)
      else data
  end.

(** [for i := ...; i < b; i++], [n] being [b - i]. *)
Fixpoint insertionOuter (n : nat) (data : list A) (a i : Z) : list A :=
  match n with
  | O => data
  | S n' =>
      insertionOuter n' (insertionInner (Z.to_nat (i - a)) data a i) a (i + 1)
  end.

Definition insertionSort_func (data : list A) (a b : Z) : list A :=
  insertionOuter (Z.to_nat (b - (a + 1))) data a (a + 1).

(** [siftDown_func]; [n] bounds the iterations ([hi - root]). *)
Fixpoint siftDownLoop (n : nat) (data : list A) (root hi first : Z) : list A :=
  match n with
  | O => data
  | S n' =>
      let child := 2 * root + 1 in
      if child >=? hi then data
      else
        let child :=
          if (child + 1 <? hi) && Less data (first + child) (first + child + 1)
          then child + 1 else child in
        if negb (Less data (first + root) (first + child)) then data
        else siftDownLoop n' (Swap data (first + root) (first + child))
                          child hi first
  end.

Definition siftDown_func (data : list A) (lo hi first : Z) : list A :=
  siftDownLoop (Z.to_nat (hi - lo)) data lo hi first.

(** [for i := ...; i >= 0; i--] of the heap construction, [n = i + 1]. *)
Fixpoint heapBuild (n : nat) (data : list A) (hi first : Z) : list A :=
  match n with
  | O => data
  | S n' => heapBuild n' (siftDown_func data (Z.of_nat n') hi first) hi first
  end.

Fixpoint heapPop (n : nat) (data : list A) (lo first : Z) : list A :=
  match n with
  | O => data
  | S n' =>
      let i := Z.of_nat n' in
      let data := Swap data first (first + i) in
      heapPop n' (siftDown_func data lo i first) lo first
  end.

Definition heapSort_func (data : list A) (a b : Z) : list A :=
  let first := a in
  let lo := 0 in
  let hi := b - a in
  let data := heapBuild (Z.to_nat (Z.quot (hi - 1) 2 + 1)) data hi first in
  heapPop (Z.to_nat hi) data lo first.

(** [for i <= j && data.Less(i, a) { i++ }] *)
Fixpoint scanUp (n : nat) (data : list A) (a i j : Z) : Z :=
  match n with
  | O => i
  | S n' => if (i <=? j) && Less data i a then scanUp n' data a (i + 1) j else i
  end.

(** [for i <= j && !data.Less(j, a) { j-- }] *)
Fixpoint scanDown (n : nat) (data : list A) (a i j : Z) : Z :=
  match n with
  | O => j
  | S n' =>
      if (i <=? j) && negb (Less data j a) then scanDown n' data a i (j - 1) else j
  end.

Fixpoint partitionLoop (n : nat) (data : list A) (a i j : Z) : list A * Z :=
  match n with
  | O => (data, j)
  | S n' =>
      let i := scanUp (Z.to_nat (j - i + 1)) data a i j in
      let j := scanDown (Z.to_nat (j - i + 1)) data a i j in
      if i >? j then (data, j)
      else partitionLoop n' (Swap data i j) a (i + 1) (j - 1)
  end.

Definition partition_func (data : list A) (a b pivot : Z)
  : list A * Z * bool :=
  let data := Swap data a pivot in
  let i := a + 1 in
  let j := b - 1 in
  let i := scanUp (Z.to_nat (j - i + 1)) data a i j in
  let j := scanDown (Z.to_nat (j - i + 1)) data a i j in
  if i >? j then (Swap data j a, j, true)
  else
    let data := Swap data i j in
    let '(data, j) := partitionLoop (Z.to_nat (b - a)) data a (i + 1) (j - 1) in
    (Swap data j a, j, false).

(** [for i <= j && !data.Less(a, i) { i++ }] *)
Fixpoint scanUpEq (n : nat) (data : list A) (a i j : Z) : Z :=
  match n with
  | O => i
  | S n' =>
      if (i <=? j) && negb (Less data a i) then scanUpEq n' data a (i + 1) j else i
  end.

(** [for i <= j && data.Less(a, j) { j-- }] *)
Fixpoint scanDownEq (n : nat) (data : list A) (a i j : Z) : Z :=
  match n with
  | O => j
  | S n' => if (i <=? j) && Less data a j then scanDownEq n' data a i (j - 1) else j
  end.

Fixpoint partitionEqualLoop (n : nat) (data : list A) (a i j : Z) : list A * Z :=
  match n with
  | O => (data, i)
  | S n' =>
      let i := scanUpEq (Z.to_nat (j - i + 1)) data a i j in
      let j := scanDownEq (Z.to_nat (j - i + 1)) data a i j in
      if i >? j then (data, i)
      else partitionEqualLoop n' (Swap data i j) a (i + 1) (j - 1)
  end.

Definition partitionEqual_func (data : list A) (a b pivot : Z) : list A * Z :=
  let data := Swap data a pivot in
  partitionEqualLoop (S (Z.to_nat (b - a))) data a (a + 1) (b - 1).

(** [for i < b && !data.Less(i, i-1) { i++ }] *)
Fixpoint scanSorted (n : nat) (data : list A) (i b : Z) : Z :=
  match n with
  | O => i
  | S n' =>
      if (i <? b) && negb (Less data i (i - 1)) then scanSorted n' data (i + 1) b else i
  end.

(** [for j := i - 1; j >= 1; j-- { if !data.Less(j, j-1) { break }; data.Swap(j, j-1) }] *)
Fixpoint shiftLeft (n : nat) (data : list A) (j : Z) : list A :=
  match n with
  | O => data
  | S n' =>
      if (j >=? 1) && Less data j (j - 1)
      then shiftLeft n' (Swap data j (j - 1)) (j - 1) else data
  end.

(** [for j := i + 1; j < b; j++ { if !data.Less(j, j-1) { break }; data.Swap(j, j-1) }] *)
Fixpoint shiftRight (n : nat) (data : list A) (j b : Z) : list A :=
  match n with
  | O => data
  | S n' =>
      if (j <? b) && Less data j (j - 1)
      then shiftRight n' (Swap data j (j - 1)) (j + 1) b else data
  end.

Definition maxSteps : nat := 5.
Definition shortestShifting : Z := 50.

Fixpoint partialInsertionLoop (steps : nat) (data : list A) (a b i : Z)
  : list A * bool :=
  match steps with
  | O => (data, false)
  | S steps' =>
      let i := scanSorted (Z.to_nat (b - i)) data i b in
      if i =? b then (data, true)
      else if b - a <? shortestShifting then (data, false)
      else
        let data := Swap data i (i - 1) in
        let data :=
          if i - a >=? 2 then shiftLeft (Z.to_nat (i - 1)) data (i - 1) else data in
        let data :=
          if b - i >=? 2 then shiftRight (Z.to_nat (b - (i + 1))) data (i + 1) b
          else data in
        partialInsertionLoop steps' data a b i
  end.

Definition partialInsertionSort_func (data : list A) (a b : Z) : list A * bool :=
  partialInsertionLoop maxSteps data a b (a + 1).

(** [bits.Len(uint(n))] for [n >= 0]. *)
Definition bitsLen (n : Z) : Z := if n <=? 0 then 0 else Z.log2 n + 1.

Definition mask64 : Z := 2 ^ 64 - 1.

(** [xorshift.Next]: the generator state after the step. *)
Definition xorshiftNext (r : Z) : Z :=
  let r := Z.lxor r (Z.land (Z.shiftl r 13) mask64) in
  let r := Z.lxor r (Z.shiftr r 7) in
  Z.lxor r (Z.land (Z.shiftl r 17) mask64).

Definition nextPowerOfTwo (length : Z) : Z := Z.shiftl 1 (bitsLen length).

Fixpoint breakLoop (n : nat) (data : list A) (a length idx i random modulus : Z)
  : list A :=
  match n with
  | O => data
  | S n' =>
      let random := xorshiftNext random in
      let other := Z.land random (modulus - 1) in
      let other := if other >=? length then other - length else other in
      breakLoop n' (Swap data (idx + i) (a + other)) a length idx (i + 1)
                random modulus
  end.

Definition breakPatterns_func (data : list A) (a b : Z) : list A :=
  let length := b - a in
  if length >=? 8 then
    let random := length in
    let modulus := nextPowerOfTwo length in
    let idx := a + Z.quot length 4 * 2 - 1 in
    breakLoop 3 data a length idx 0 random modulus
  else data.

Inductive sortedHint := unknownHint | increasingHint | decreasingHint.

(** [order2_func]: [(x, y, swaps)] with [data[x] <= data[y]]. *)
Definition order2_func (data : list A) (a b swaps : Z) : Z * Z * Z :=
  if Less data b a then (b, a, swaps + 1) else (a, b, swaps).

Definition median_func (data : list A) (a b c swaps : Z) : Z * Z :=
  let '(a, b, swaps) := order2_func data a b swaps in
  let '(b, c, swaps) := order2_func data b c swaps in
  let '(a, b, swaps) := order2_func data a b swaps in
  (b, swaps).

Definition medianAdjacent_func (data : list A) (a swaps : Z) : Z * Z :=
  median_func data (a - 1) a (a + 1) swaps.

Definition shortestNinther : Z := 50.
Definition maxSwaps : Z := 4 * 3.

Definition choosePivot_func (data : list A) (a b : Z) : Z * sortedHint :=
  let l := b - a in
  let swaps := 0 in
  let i := a + Z.quot l 4 * 1 in
  let j := a + Z.quot l 4 * 2 in
  let k := a + Z.quot l 4 * 3 in
  let '(j, swaps) :=
    if l >=? 8 then
      let '(i, j, k, swaps) :=
        if l >=? shortestNinther then
          let '(i, swaps) := medianAdjacent_func data i swaps in
          let '(j, swaps) := medianAdjacent_func data j swaps in
          let '(k, swaps) := medianAdjacent_func data k swaps in
          (i, j, k, swaps)
        else (i, j, k, swaps) in
      median_func data i j k swaps
    else (j, swaps) in
  if swaps =? 0 then (j, increasingHint)
  else if swaps =? maxSwaps then (j, decreasingHint)
  else (j, unknownHint).

(** [for i < j { data.Swap(i, j); i++; j-- }] *)
Fixpoint reverseLoop (n : nat) (data : list A) (i j : Z) : list A :=
  match n with
  | O => data
  | S n' =>
      if i <? j then reverseLoop n' (Swap data i j) (i + 1) (j - 1) else data
  end.

Definition reverseRange_func (data : list A) (a b : Z) : list A :=
  reverseLoop (Z.to_nat (b - a)) data a (b - 1).

Definition maxInsertion : Z := 12.

Definition isIncreasing (h : sortedHint) : bool :=
  match h with increasingHint => true | _ => false end.
Definition isDecreasing (h : sortedHint) : bool :=
  match h with decreasingHint => true | _ => false end.

(** [pdqsort_func]: both the [for] loop and the recursive call go on
    with a strictly shorter range, so [fuel] of the length of the
    range suffices; [None] when the fuel runs out. *)
Fixpoint pdqsortLoop (fuel : nat) (data : list A) (a b limit : Z)
  (wasBalanced wasPartitioned : bool) : option (list A) :=
  match fuel with
  | O => None
  | S fuel' =>
      let length := b - a in
      if length <=? maxInsertion then Some (insertionSort_func data a b)
      else if limit =? 0 then Some (heapSort_func data a b)
      else
        let '(data, limit) :=
          if negb wasBalanced then (breakPatterns_func data a b, limit - 1)
          else (data, limit) in
        let '(pivot, hint) := choosePivot_func data a b in
        let '(data, pivot, hint) :=
          if isDecreasing hint
          then (reverseRange_func data a b, (b - 1) - (pivot - a), increasingHint)
          else (data, pivot, hint) in
        let '(data, done) :=
          if wasBalanced && wasPartitioned && isIncreasing hint
          then partialInsertionSort_func data a b
          else (data, false) in
        if done then Some data
        else if (a >? 0) && negb (Less data (a - 1) pivot) then
          let '(data, mid) := partitionEqual_func data a b pivot in
          pdqsortLoop fuel' data mid b limit wasBalanced wasPartitioned
        else
          let '(data, mid, alreadyPartitioned) := partition_func data a b pivot in
          let wasPartitioned := alreadyPartitioned in
          let leftLen := mid - a in
          let rightLen := b - mid in
          let balanceThreshold := Z.quot length 8 in
          if leftLen <? rightLen then
            let wasBalanced := leftLen >=? balanceThreshold in
            data ← pdqsortLoop fuel' data a mid limit true true;
            pdqsortLoop fuel' data (mid + 1) b limit wasBalanced wasPartitioned
          else
            let wasBalanced := rightLen >=? balanceThreshold in
            data ← pdqsortLoop fuel' data (mid + 1) b limit true true;
            pdqsortLoop fuel' data a mid limit wasBalanced wasPartitioned
  end.

Definition pdqsort_func (data : list A) (a b limit : Z) : option (list A) :=
  pdqsortLoop (S (Z.to_nat (b - a))) data a b limit true true.

(** [sort.Slice(x, less)]. *)
Definition Slice (x : list A) : option (list A) :=
  let length := gostring.len_list x in
  let limit := bitsLen length in
  pdqsort_func x 0 length limit.

End lessSwap.
End sort.

(* ===================================================================== *)
(** * path/filepath                                                       *)
(* ===================================================================== *)

Module filepath.

Definition isPathSeparator (c : ascii) : bool := Ascii.eqb c "/".

Fixpoint stripTrailingSeparators (path : string) : string :=
  match path with
  | EmptyString => EmptyString
  | String c rest =>
      match stripTrailingSeparators rest with
      | EmptyString => if isPathSeparator c then EmptyString else String c EmptyString
      | rest' => String c rest'
      end
  end.

(** The text after the last separator of [path], when it has one. *)
Fixpoint afterLastSeparator (path : string) : option string :=
  match path with
  | EmptyString => None
  | String c rest =>
      match afterLastSeparator rest with
      | Some last => Some last
      | None => if isPathSeparator c then Some rest else None
      end
  end.

(** [filepath.Base] (Unix: the separator is ['/'], no volume name). *)
Definition Base (path : string) : string :=
  match path with
  | EmptyString => "."
  | _ =>
      let path := stripTrailingSeparators path in
      let path := default path (afterLastSeparator path) in
      match path with
      | EmptyString => "/"
      | _ => path
      end
  end.

Fixpoint hasSeparator (s : string) : bool :=
  match s with
  | EmptyString => false
  | String c rest => isPathSeparator c || hasSeparator rest
  end.

Fixpoint hasSuffix (s suffix : string) : bool :=
  String.eqb s suffix ||
  match s with
  | EmptyString => false
  | String _ rest => hasSuffix rest suffix
  end.

(** [filepath.Match("gym-stats-*.csv", name)]: the star stands for any
    sequence of non-separator bytes. *)
Definition matchGymStats (name : string) : bool :=
  String.prefix "gym-stats-" name
  && (let rest := gostring.slice name 10 (gostring.len name) in
      hasSuffix rest ".csv" && negb (hasSeparator rest)).

(** [filepath.Glob("gym-stats-*.csv")] over the names of the working
    directory, in the order [Glob] visits them.  The pattern is
    well-formed, so the error of [Glob] is always [nil]. *)
Definition Glob (names : list string) : list string :=
  List.filter matchGymStats names.

End filepath.

(* ===================================================================== *)
(** * server.go                                                           *)
(* ===================================================================== *)

Record DataPoint := mkDataPoint {
  X : string;
  Y : Z
}.

Record Dataset := mkDataset {
  Label : string;
  Data : list DataPoint
}.

(** The error of a first [reader.Read()]. *)
Inductive readError :=
| ioEOF
| csvParseError.

(** The errors built by [fmt.Errorf] in [server.go], one constructor for
    each format string, with the values it is applied to. *)
Inductive error :=
| errNoCSVFiles                          (* "no CSV files found matching gym-stats-*.csv" *)
| errInvalidFromDate (value : string)    (* "invalid from date format: %v" *)
| errInvalidToDate (value : string)      (* "invalid to date format: %v" *)
| errOpenCSV (name : string)             (* "failed to open CSV file: %v" *)
| errReadHeaders (cause : readError)     (* "failed to read CSV headers: %v" *)
| errMissingColumns                      (* "missing required columns in CSV" *)
| errProcess (csvFile : string) (err : error). (* "failed to process %s: %v" *)

(** What the program reads from its environment.
    - [dirNames]: the names in the working directory;
    - [statModTime name]: [os.Stat(name)], its [ModTime()] in nanoseconds
      since the Unix epoch, [None] when [os.Stat] fails;
    - [openCSV name]: [os.Open(name)] and the successive results of
      [reader.Read()] on it before [io.EOF] (a record, or [None] for a
      read that returns an error), [None] when [os.Open] fails;
    - [loadTallinn]: [time.LoadLocation("Europe/Tallinn")], [None] when
      the zone data cannot be loaded. *)
Record World := mkWorld {
  dirNames : list string;
  statModTime : string → option Z;
  openCSV : string → option (list (option (list string)));
  loadTallinn : option time.Location
}.

(** The zero [time.Time] (January 1, year 1, 00:00:00 UTC) in nanoseconds
    since the Unix epoch. *)
Definition zeroTimeNanos : Z := time.internalToUnix * 1000000000.

Definition findLatestCSV (w : World) : string * option error :=
  let files := filepath.Glob (dirNames w) in
  if gostring.len_list files =? 0 then ("", Some errNoCSVFiles)
  else
    let '(latestFile, latestTime) :=
      foldl (λ '(latestFile, latestTime) file,
               match statModTime w file with
               | None => (latestFile, latestTime)
               | Some modTime =>
                   if latestTime <? modTime then (file, modTime)
                   else (latestFile, latestTime)
               end)
            ("", zeroTimeNanos) files in
    (latestFile, None).

(** The test of the range loop on one file; [Some file] when the file is
    appended to [filteredFiles]. *)
Definition inRange (from to : time.Time) (file : string) : bool :=
  let basename := filepath.Base file in
  if gostring.len basename <? 20 then false
  else
    let dateStr := gostring.slice basename 10 18 in
    match time.Parse time.layoutCompactDate dateStr with
    | None => false
    | Some fileDate =>
        (time.Equal fileDate from || time.After fileDate from)
        && (time.Equal fileDate to
            || time.Before fileDate (time.AddDate to 0 0 1))
    end.

Definition findCSVFilesInRange (w : World) (fromDate toDate : string)
  : list string * option error :=
  let files := filepath.Glob (dirNames w) in
  if gostring.len_list files =? 0 then ([], Some errNoCSVFiles)
  else
    match time.Parse time.layoutDate fromDate with
    | None => ([], Some (errInvalidFromDate fromDate))
    | Some from =>
        match time.Parse time.layoutDate toDate with
        | None => ([], Some (errInvalidToDate toDate))
        | Some to =>
            let filteredFiles :=
              foldl (λ filteredFiles file,
                       if inRange from to file
                       then (filteredFiles ++ [file])%list
                       else filteredFiles)
                    [] files in
            (filteredFiles, None)
        end
    end.

Definition max2 (a b : Z) : Z := if a >? b then a else b.

(** The four column positions found in the header, [-1] while not found. *)
Record columns := mkColumns {
  timestampIdx : Z;
  locationNameIdx : Z;
  userCountIdx : Z;
  statusIdx : Z
}.

(** The header loop: [i] is the position of the first of [headers]. *)
Fixpoint findColumns (headers : list string) (i : Z) (c : columns) : columns :=
  match headers with
  | [] => c
  | header :: rest =>
      let c :=
        if String.eqb header "timestamp"
        then mkColumns i (locationNameIdx c) (userCountIdx c) (statusIdx c)
        else if String.eqb header "location_name"
        then mkColumns (timestampIdx c) i (userCountIdx c) (statusIdx c)
        else if String.eqb header "user_count"
        then mkColumns (timestampIdx c) (locationNameIdx c) i (statusIdx c)
        else if String.eqb header "status"
        then mkColumns (timestampIdx c) (locationNameIdx c) (userCountIdx c) i
        else c in
      findColumns rest (i + 1) c
  end.

(** [record[i]]; every use is behind the guard [len(record) > maxIdx]. *)
Definition field (record : list string) (i : Z) : string :=
  default "" (record !! Z.to_nat i).

(** The zone the timestamps are converted to: Europe/Tallinn, or the
    fixed offset UTC+2 when the zone cannot be loaded. *)
Definition tallinnTZ (w : World) : time.Location :=
  match loadTallinn w with
  | Some l => l
  | None => time.FixedZone (2 * 3600)
  end.

(** Lines 209-226: the parsed time taken as UTC, converted to the zone
    and rebuilt with the minute rounded and the seconds dropped. *)
Definition roundedTallinnTime (tz : time.Location) (t : time.Time) : time.Time :=
  let utcTime :=
    time.Date (time.Year t) (time.Month t) (time.Day t)
              (time.Hour t) (time.Minute t) (time.Second t) time.UTC in
  let tallinnTime := time.In utcTime tz in
  let minute := time.Minute tallinnTime in
  let roundedMinute := Z.quot minute 2 * 2 in
  time.Date (time.Year tallinnTime) (time.Month tallinnTime)
            (time.Day tallinnTime) (time.Hour tallinnTime)
            roundedMinute 0 tz.

(** The body of the row loop on one result of [reader.Read()]. *)
Definition processRecord (w : World) (c : columns)
  (dataByLocation : gmap string (list DataPoint))
  (read : option (list string)) : gmap string (list DataPoint) :=
  match read with
  | None => dataByLocation
  | Some record =>
      let maxIdx := max2 (max2 (timestampIdx c) (locationNameIdx c))
                         (max2 (userCountIdx c) (statusIdx c)) in
      if gostring.len_list record <=? maxIdx then dataByLocation
      else if negb (String.eqb (field record (statusIdx c)) "success")
      then dataByLocation
      else
        let timestamp := field record (timestampIdx c) in
        match time.Parse time.layoutDateTime timestamp with
        | None => dataByLocation
        | Some t =>
            let tallinnTime := roundedTallinnTime (tallinnTZ w) t in
            let isoTimestamp := time.Format tallinnTime time.layoutISO in
            match strconv.Atoi (field record (userCountIdx c)) with
            | None => dataByLocation
            | Some userCount =>
                let locationName := field record (locationNameIdx c) in
                <[locationName :=
                    (default [] (dataByLocation !! locationName)
                       ++ [mkDataPoint isoTimestamp userCount])%list]> dataByLocation
            end
        end
  end.

(** [processCSVFile]: the map after the call (the Go map is updated in
    place) and the error returned. *)
Definition processCSVFile (w : World) (csvFile : string)
  (dataByLocation : gmap string (list DataPoint))
  : gmap string (list DataPoint) * option error :=
  match openCSV w csvFile with
  | None => (dataByLocation, Some (errOpenCSV csvFile))
  | Some reads =>
      match reads with
      | [] => (dataByLocation, Some (errReadHeaders ioEOF))
      | None :: _ => (dataByLocation, Some (errReadHeaders csvParseError))
      | Some headers :: rows =>
          let c := findColumns headers 0 (mkColumns (-1) (-1) (-1) (-1)) in
          if (timestampIdx c =? -1) || (locationNameIdx c =? -1)
             || (userCountIdx c =? -1) || (statusIdx c =? -1)
          then (dataByLocation, Some errMissingColumns)
          else (foldl (processRecord w c) dataByLocation rows, None)
      end
  end.

(** The loop of [convertCSVFilesToJSON] over the files. *)
Fixpoint processFiles (w : World) (csvFiles : list string)
  (dataByLocation : gmap string (list DataPoint))
  : gmap string (list DataPoint) * option error :=
  match csvFiles with
  | [] => (dataByLocation, None)
  | csvFile :: rest =>
      match processCSVFile w csvFile dataByLocation with
      | (dataByLocation, Some err) =>
          (dataByLocation, Some (errProcess csvFile err))
      | (dataByLocation, None) => processFiles w rest dataByLocation
      end
  end.

(** What the Go runtime leaves open and [convertCSVFilesToJSON] relies on:
    - [sortSlice less x]: the slice [x] after [sort.Slice(x, less)],
      [less] comparing the elements at two positions;
    - [rangeMap entries]: the order in which a [for ... range] loop visits
      the entries of a map. *)
Record Runtime := mkRuntime {
  sortSlice : ∀ A : Type, (A → A → bool) → list A → list A;
  rangeMap : list (string * list DataPoint) → list (string * list DataPoint)
}.

Definition lessX (a b : DataPoint) : bool := gostring.lt (X a) (X b).
Definition lessLabel (a b : Dataset) : bool := gostring.lt (Label a) (Label b).

Definition convertCSVFilesToJSON (rt : Runtime) (w : World)
  (csvFiles : list string) : list Dataset * option error :=
  match processFiles w csvFiles ∅ with
  | (_, Some err) => ([], Some err)
  | (dataByLocation, None) =>
      let datasets :=
        foldl (λ datasets '(locationName, dataPoints),
                 (datasets ++ [mkDataset locationName
                                 (sortSlice rt _ lessX dataPoints)])%list)
              [] (rangeMap rt (map_to_list dataByLocation)) in
      (sortSlice rt _ lessLabel datasets, None)
  end.

Definition convertCSVToJSON (rt : Runtime) (w : World) (csvFile : string)
  : list Dataset * option error :=
  convertCSVFilesToJSON rt w [csvFile].

(* ===================================================================== *)
(** * server.go: the two data generation endpoints                       *)
(* ===================================================================== *)

(** The texts the handlers put in the [Error] field, one constructor for
    each way they build it, with the values it is built from. *)
Inductive errorText :=
| textMethodNotAllowed             (* "Method not allowed" *)
| textInvalidBody                  (* "Invalid request body" *)
| textError (err : error)          (* err.Error() *)
| textConvertCSV (err : error)     (* "Failed to convert CSV: %v" *)
| textConvertFiles (err : error)   (* "Failed to convert CSV files: %v" *)
| textNoFilesForRange (from to : string)
                                   (* "No CSV files found for date range %s to %s" *)
| textCreateJSON                   (* "Failed to create JSON file: %v" *)
| textWriteJSON.                   (* "Failed to write JSON: %v" *)

(** [GenerateResponse]; an [Error] of [None] is the empty string, which
    the JSON encoding leaves out. *)
Record GenerateResponse := mkGenerateResponse {
  Success : bool;
  Message : string;
  Output : string;
  Error : option errorText
}.

Record DateRangeRequest := mkDateRangeRequest {
  From : string;
  To : string
}.

(** ** net/http *)

Module http.

Definition StatusOK : Z := 200.
Definition StatusBadRequest : Z := 400.
Definition StatusNotFound : Z := 404.
Definition StatusMethodNotAllowed : Z := 405.
Definition StatusInternalServerError : Z := 500.

(** What a handler has made of its [http.ResponseWriter]: the header
    map as it is sent, the status code once the header is written, and
    the values encoded to the body, one JSON document each. *)
Record ResponseWriter := mkResponseWriter {
  header : gmap string string;
  status : option Z;
  body : list GenerateResponse
}.

(** The writer the server hands to a handler. *)
Definition newResponseWriter : ResponseWriter := mkResponseWriter ∅ None [].

(** [w.Header().Set(key, value)], for a [key] in canonical form: the map
    that is sent no longer changes once the header is written. *)
Definition Header_Set (w : ResponseWriter) (key value : string) : ResponseWriter :=
  match status w with
  | None => mkResponseWriter (<[key := value]> (header w)) (status w) (body w)
  | Some _ => w
  end.

(** [w.WriteHeader(code)]: only the first call counts. *)
Definition WriteHeader (w : ResponseWriter) (code : Z) : ResponseWriter :=
  match status w with
  | None => mkResponseWriter (header w) (Some code) (body w)
  | Some _ => w
  end.

(** [json.NewEncoder(w).Encode(v)], its error dropped: the first write
    sends the header with [StatusOK] when none was written. *)
Definition Encode (w : ResponseWriter) (v : GenerateResponse) : ResponseWriter :=
  let w := WriteHeader w StatusOK in
  mkResponseWriter (header w) (status w) (body w ++ [v])%list.

(** What a handler reads of its [*http.Request]: the method, and what
    [json.NewDecoder(r.Body).Decode(&dateRange)] makes of the body,
    [None] when it returns an error. *)
Record Request := mkRequest {
  Method : string;
  Body : option DateRangeRequest
}.

End http.

(** What the handlers meet when they write [gym-data.json]: whether
    [os.Create] succeeds, and whether [encoder.Encode(datasets)] on the
    file does. *)
Record Disk := mkDisk {
  createJSON : bool;
  encodeJSON : list Dataset → bool
}.

(** [gym-data.json] after a request: never created, created and left
    with whatever a failed [Encode] has written, or holding the
    encoding of the Datasets. *)
Inductive jsonFile :=
| fileKept
| fileTruncated
| fileWritten (datasets : list Dataset).

Definition newline : string := String "010"%char "".

(** The four [w.Header().Set] calls at the head of both handlers. *)
Definition setHeaders (w : http.ResponseWriter) : http.ResponseWriter :=
  let w := http.Header_Set w "Access-Control-Allow-Origin" "*" in
  let w := http.Header_Set w "Access-Control-Allow-Methods" "GET, POST, OPTIONS" in
  let w := http.Header_Set w "Access-Control-Allow-Headers" "Content-Type" in
  http.Header_Set w "Content-Type" "application/json".

(** A response that reports a failure: [WriteHeader(code)] and the
    encoding of [GenerateResponse{Success: false, Error: text}]. *)
Definition fail (w : http.ResponseWriter) (code : Z) (text : errorText)
  : http.ResponseWriter :=
  http.Encode (http.WriteHeader w code)
    (mkGenerateResponse false "" "" (Some text)).

(** Lines 298-328 and 394-425: the file is created, the Datasets are
    encoded to it, and the success is reported with [output]. *)
Definition writeJSON (disk : Disk) (w : http.ResponseWriter)
  (datasets : list Dataset) (message output : string)
  : http.ResponseWriter * jsonFile :=
  if negb (createJSON disk)
  then (fail w http.StatusInternalServerError textCreateJSON, fileKept)
  else if negb (encodeJSON disk datasets)
  then (fail w http.StatusInternalServerError textWriteJSON, fileTruncated)
  else (http.Encode w (mkGenerateResponse true message output None),
        fileWritten datasets).

Definition generateDataHandler (rt : Runtime) (world : World) (disk : Disk)
  (w : http.ResponseWriter) (r : http.Request) : http.ResponseWriter * jsonFile :=
  let w := setHeaders w in
  if String.eqb (http.Method r) "OPTIONS"
  then (http.WriteHeader w http.StatusOK, fileKept)
  else if negb (String.eqb (http.Method r) "POST")
  then (fail w http.StatusMethodNotAllowed textMethodNotAllowed, fileKept)
  else
    match findLatestCSV world with
    | (_, Some err) =>
        (fail w http.StatusInternalServerError (textError err), fileKept)
    | (csvFile, None) =>
        match convertCSVToJSON rt world csvFile with
        | (_, Some err) =>
            (fail w http.StatusInternalServerError (textConvertCSV err), fileKept)
        | (datasets, None) =>
            let output :=
              "Successfully generated gym-data.json from " +:+ csvFile
              +:+ newline +:+ "Found "
              +:+ gostring.utoa (gostring.len_list datasets)
              +:+ " locations with data" in
            writeJSON disk w datasets "Data generated successfully" output
        end
    end.

Definition generateDataRangeHandler (rt : Runtime) (world : World) (disk : Disk)
  (w : http.ResponseWriter) (r : http.Request) : http.ResponseWriter * jsonFile :=
  let w := setHeaders w in
  if String.eqb (http.Method r) "OPTIONS"
  then (http.WriteHeader w http.StatusOK, fileKept)
  else if negb (String.eqb (http.Method r) "POST")
  then (fail w http.StatusMethodNotAllowed textMethodNotAllowed, fileKept)
  else
    match http.Body r with
    | None => (fail w http.StatusBadRequest textInvalidBody, fileKept)
    | Some dateRange =>
        match findCSVFilesInRange world (From dateRange) (To dateRange) with
        | (_, Some err) =>
            (fail w http.StatusInternalServerError (textError err), fileKept)
        | (csvFiles, None) =>
            if gostring.len_list csvFiles =? 0
            then (fail w http.StatusNotFound
                    (textNoFilesForRange (From dateRange) (To dateRange)),
                  fileKept)
            else
              match convertCSVFilesToJSON rt world csvFiles with
              | (_, Some err) =>
                  (fail w http.StatusInternalServerError (textConvertFiles err),
                   fileKept)
              | (datasets, None) =>
                  let output :=
                    "Successfully generated gym-data.json from "
                    +:+ gostring.utoa (gostring.len_list csvFiles)
                    +:+ " files (" +:+ From dateRange +:+ " to " +:+ To dateRange
                    +:+ ")" +:+ newline +:+ "Found "
                    +:+ gostring.utoa (gostring.len_list datasets)
                    +:+ " locations with data" in
                  writeJSON disk w datasets
                    "Date range data generated successfully" output
              end
        end
    end.

(* ===================================================================== *)
(** * Vocabulary of the specification                                     *)
(* ===================================================================== *)

(** ** Calendar dates *)

(** A date of the proleptic Gregorian calendar with a time of day. *)
Definition validCivil (c : time.civil) : Prop :=
  1 <= time.cMonth c <= 12
  ∧ 1 <= time.cDay c <= time.daysIn (time.cMonth c) (time.cYear c)
  ∧ 0 <= time.cHour c < 24 ∧ 0 <= time.cMin c < 60 ∧ 0 <= time.cSec c < 60.

(** What the range checks of [Parse] guarantee about the fields read. *)
Definition clockInRange (c : time.civil) : Prop :=
  1 <= time.cMonth c <= 12
  ∧ 0 <= time.cHour c < 24 ∧ 0 <= time.cMin c < 60 ∧ 0 <= time.cSec c < 60.

(** A layout chunk that reads a part of the date, not of the clock. *)
Definition isDateChunk (std : time.stdChunk) : bool :=
  match std with
  | time.stdLongYear | time.stdZeroMonth | time.stdZeroDay => true
  | _ => false
  end.

(** Calendar order of two dates: year, then month, then day. *)
Definition dateLt (a b : time.civil) : Prop :=
  time.cYear a < time.cYear b
  ∨ (time.cYear a = time.cYear b
     ∧ (time.cMonth a < time.cMonth b
        ∨ (time.cMonth a = time.cMonth b ∧ time.cDay a < time.cDay b))).

Definition dateEq (a b : time.civil) : Prop :=
  time.cYear a = time.cYear b ∧ time.cMonth a = time.cMonth b
  ∧ time.cDay a = time.cDay b.

Definition dateLe (a b : time.civil) : Prop := dateLt a b ∨ dateEq a b.

(** The instant [Parse] makes of the fields it has read. *)
Definition civilTime (c : time.civil) : time.Time :=
  time.Date (time.cYear c) (time.cMonth c) (time.cDay c)
            (time.cHour c) (time.cMin c) (time.cSec c) time.UTC.

(** Days of the years before the one that lies
    [400 * n400 + 100 * n100 + 4 * n4 + n1] years after the absolute zero
    year. *)
Definition yearDays (n400 n100 n4 n1 : Z) : Z :=
  146097 * n400 + 36524 * n100 + 1461 * n4 + 365 * n1.

(** The leap day counted by [Date] for the months after February. *)
Definition leapAdj (year month : Z) : Z :=
  if time.isLeap year && (month >=? 3) then 1 else 0.

(** The day of the year (from 0) of a date. *)
Definition yearDay (year month day : Z) : Z :=
  time.daysBefore (month - 1) + leapAdj year month + (day - 1).

(** The second half of [absDate]: month and day from the day of the year. *)
Definition monthDay (year yday : Z) : Z * Z * Z :=
  let day := yday in
  if time.isLeap year && (day =? 31 + 29 - 1) then (year, 2, 29)
  else
    let day := if time.isLeap year && (day >? 31 + 29 - 1) then day - 1 else day in
    let month := day / 31 in
    let end_ := time.daysBefore (month + 1) in
    let '(month, begin) :=
      if day >=? end_ then (month + 1, end_) else (month, time.daysBefore month) in
    (year, month + 1, day - begin + 1).

(** Every offset of the location is a whole number of hours. *)
Definition wholeHourOffsets (l : time.Location) : Prop :=
  time.firstOffset l mod 3600 = 0
  ∧ Forall (λ tr : Z * Z, snd tr mod 3600 = 0) (time.tx l).

(** ** Error kinds *)

(** The errors the specification calls [InvalidDateFormat]. *)
Definition isInvalidDateFormat (e : error) : bool :=
  match e with
  | errInvalidFromDate _ | errInvalidToDate _ => true
  | _ => false
  end.

(** The error the specification calls [NotFound]. *)
Definition isNotFound (e : error) : bool :=
  match e with
  | errNoCSVFiles => true
  | _ => false
  end.

(** The name of the daily log file of a date written [YYYYMMDD]. *)
Definition logFileName (dateStr : string) : string :=
  "gym-stats-" +:+ dateStr +:+ ".csv".

(** The six daily logs of 2024-01-10 to 2024-01-15. *)
Definition januaryLogs : list string :=
  ["gym-stats-20240110.csv"; "gym-stats-20240111.csv"; "gym-stats-20240112.csv";
   "gym-stats-20240113.csv"; "gym-stats-20240114.csv"; "gym-stats-20240115.csv"].

(** A working directory holding [names], where nothing can be opened or
    inspected and the zone data is missing. *)
Definition bareWorld (names : list string) : World :=
  mkWorld names (λ _, None) (λ _, None) None.

(** ** Rows and points *)

(** All four required columns lie within the record. *)
Definition hasColumns (c : columns) (record : list string) : bool :=
  (timestampIdx c <? gostring.len_list record)
  && (locationNameIdx c <? gostring.len_list record)
  && (userCountIdx c <? gostring.len_list record)
  && (statusIdx c <? gostring.len_list record).

(** The rendered timestamp of a parsed sample: the Timestamp Normalizer. *)
Definition isoTimestamp (w : World) (t : time.Time) : string :=
  time.Format (roundedTallinnTime (tallinnTZ w) t) time.layoutISO.

(** The location and the point of a row of the kind the specification
    calls usable: the record was read without error, has the four
    columns, its status is ["success"], its timestamp parses in the
    layout [YYYY-MM-DD HH:MM:SS] and its user count parses as an
    integer.  Any other row yields nothing. *)
Definition rowPoint (w : World) (c : columns) (read : option (list string))
  : option (string * DataPoint) :=
  match read with
  | None => None
  | Some record =>
      if hasColumns c record
         && String.eqb (field record (statusIdx c)) "success"
      then
        match time.Parse time.layoutDateTime (field record (timestampIdx c)),
              strconv.Atoi (field record (userCountIdx c)) with
        | Some t, Some n =>
            Some (field record (locationNameIdx c),
                  mkDataPoint (isoTimestamp w t) n)
        | _, _ => None
        end
      else None
  end.

(** The columns of a file, from its header. *)
Definition headerColumns (headers : list string) : columns :=
  findColumns headers 0 (mkColumns (-1) (-1) (-1) (-1)).

(** The points of the usable rows of a file, with their locations, in the
    order of the rows. *)
Definition filePoints (w : World) (csvFile : string) : list (string * DataPoint) :=
  match openCSV w csvFile with
  | Some (Some headers :: rows) => omap (rowPoint w (headerColumns headers)) rows
  | _ => []
  end.

(** The points of the usable rows of the files, file after file. *)
Definition allPoints (w : World) (csvFiles : list string)
  : list (string * DataPoint) :=
  csvFiles ≫= filePoints w.

(** The points recorded for one location, in their order. *)
Definition pointsAt (locationName : string) (points : list (string * DataPoint))
  : list DataPoint :=
  omap (λ lp, if decide (fst lp = locationName) then Some (snd lp) else None)
       points.

(** The points of an output, each with the label of its Dataset. *)
Definition labelledPoints (datasets : list Dataset) : list (string * DataPoint) :=
  datasets ≫= λ d, pair (Label d) <$> Data d.

(** One step of the shared accumulator: the point is appended to the list
    of its location. *)
Definition appendPoint (dataByLocation : gmap string (list DataPoint))
  (lp : string * DataPoint) : gmap string (list DataPoint) :=
  <[fst lp := (default [] (dataByLocation !! fst lp) ++ [snd lp])%list]>
    dataByLocation.

(** The entries of the map, spread out as labelled points. *)
Definition mapPoints (m : gmap string (list DataPoint))
  : list (string * DataPoint) :=
  map_to_list m ≫= λ entry, pair (fst entry) <$> snd entry.

(** A file whose processing fails: it cannot be opened, its header cannot
    be read, or one of the four required columns is absent from it. *)
Definition fileFails (w : World) (csvFile : string) : Prop :=
  match openCSV w csvFile with
  | None => True
  | Some [] => True
  | Some (None :: _) => True
  | Some (Some headers :: _) =>
      ¬ (List.In "timestamp" headers ∧ List.In "location_name" headers
         ∧ List.In "user_count" headers ∧ List.In "status" headers)
  end.




(** The Dataset built from one entry of the map. *)
Definition entryDataset (rt : Runtime) (entry : string * list DataPoint) : Dataset :=
  mkDataset (fst entry) (sortSlice rt _ lessX (snd entry)).

(** ** Insertion sort on lists *)

(** [insertRev less x r]: [x] put into [r], a list held last element
    first, behind the elements it is less than. *)
Fixpoint insertRev {A : Type} (less : A → A → bool) (x : A) (r : list A) : list A :=
  match r with
  | [] => [x]
  | y :: r' => if less x y then y :: insertRev less x r' else x :: r
  end.

(** [insertBack less l x]: [x] appended to [l] and moved towards the
    front past the elements it is less than. *)
Definition insertBack {A : Type} (less : A → A → bool) (l : list A) (x : A) : list A :=
  rev (insertRev less x (rev l)).

(** Insertion sort: the elements are inserted from the back one after
    the other. *)
Definition isort {A : Type} (less : A → A → bool) (l : list A) : list A :=
  foldl (insertBack less) [] l.

(** The elements of [l] that are equivalent to [x0] in the order [less]
    (neither is less than the other), in their order in [l].  A sort is
    stable when it leaves this list as it is for every [x0]. *)
Definition equivalents {A : Type} (less : A → A → bool) (x0 : A) (l : list A)
  : list A :=
  List.filter (λ y, negb (less x0 y) && negb (less y x0)) l.

(** The points of [l] whose [x] is the text [x], in their order in [l]. *)
Definition pointsWithX (x : string) (l : list DataPoint) : list DataPoint :=
  List.filter (λ p, String.eqb (X p) x) l.


(** The Europe/Tallinn rules in force in 2024: UTC+2, and UTC+3 from
    March 31, 01:00 UTC to October 27, 01:00 UTC. *)
Definition tallinn2024 : time.Location :=
  time.mkLocation 7200 [(1711846800, 10800); (1729990800, 7200)].

(** ** A sample working directory *)

Definition csvHeader : option (list string) :=
  Some ["timestamp"; "location_id"; "location_name"; "user_count"; "status";
        "response"].

(** The log of June 1st: two usable samples, a failed request, a sample
    without count and a line the CSV reader rejects. *)
Definition logJune1 : list (option (list string)) :=
  [csvHeader;
   Some ["2024-06-01 11:03:47"; "1"; "Hipodroom"; "5"; "success"; "{total:5}"];
   Some ["2024-06-01 11:03:49"; "3"; "T1"; "7"; "success"; "{total:7}"];
   Some ["2024-06-01 11:05:47"; "1"; "Hipodroom"; "error"; "500"; ""];
   None;
   Some ["2024-06-01 11:07:50"; "9"; "Mustika"; "parse_error"; "success"; "<html>"]].

(** The log of June 2nd: one usable sample. *)
Definition logJune2 : list (option (list string)) :=
  [csvHeader;
   Some ["2024-06-02 09:00:00"; "1"; "Hipodroom"; "9"; "success"; "{total:9}"]].

(** A log whose header lacks the [status] column. *)
Definition logNoStatus : list (option (list string)) :=
  [Some ["timestamp"; "location_id"; "location_name"; "user_count"];
   Some ["2024-06-03 09:00:00"; "1"; "Hipodroom"; "4"]].

Definition sampleWorld : World :=
  mkWorld
    ["dashboard.html"; "gym-stats-20240601.csv"; "gym-stats-20240602.csv";
     "gym-stats-20240603.csv"; "server.go"]
    (λ _, None)
    (λ name,
       if String.eqb name "gym-stats-20240601.csv" then Some logJune1
       else if String.eqb name "gym-stats-20240602.csv" then Some logJune2
       else if String.eqb name "gym-stats-20240603.csv" then Some logNoStatus
       else None)
    (Some tallinn2024).

(** A log of thirteen samples of one location: twelve in the bucket of
    14:04 local time, then one of 14:00. *)
Definition logTies : list (option (list string)) :=
  csvHeader ::
  ((λ n : Z, Some ["2024-06-01 11:04:00"; "3"; "T1"; gostring.utoa n; "success"; ""])
     <$> [1; 2; 3; 4; 5; 6; 7; 8; 9; 10; 11; 12])
  ++ [Some ["2024-06-01 11:00:00"; "3"; "T1"; "13"; "success"; ""]].

Definition tiesWorld : World :=
  mkWorld ["gym-stats-20240601.csv"] (λ _, None)
    (λ name, if String.eqb name "gym-stats-20240601.csv" then Some logTies else None)
    (Some tallinn2024).

Definition sampleFiles : list string :=
  ["gym-stats-20240601.csv"; "gym-stats-20240602.csv"].

(** The Datasets made of the two sample logs. *)
Definition sampleOutput : list Dataset :=
  [mkDataset "Hipodroom"
     [mkDataPoint "2024-06-01T14:02:00+03:00" 5;
      mkDataPoint "2024-06-02T12:00:00+03:00" 9];
   mkDataset "T1" [mkDataPoint "2024-06-01T14:02:00+03:00" 7]].

(** ** Two sorts and a runtime *)

(** [sort.Slice] as the insertion sort of the [sort] package. *)
Definition insertionSlice (A : Type) (less : A → A → bool) (x : list A) : list A :=
  sort.insertionSort_func less x 0 (gostring.len_list x).

(** [sort.Slice] as the pattern-defeating quicksort of the [sort]
    package. *)
Definition pdqSlice (A : Type) (less : A → A → bool) (x : list A) : list A :=
  default x (sort.Slice less x).

(** A runtime that sorts with the quicksort and ranges over a map from
    its last entry to its first. *)
Definition pdqRuntime : Runtime := mkRuntime pdqSlice reverse.

(** ** The contract of the Go runtime *)

(** [less] is a strict weak ordering, as [sort.Slice] requires. *)
Record StrictWeakOrder {A : Type} (less : A → A → bool) : Prop := {
  swo_irrefl : ∀ x, less x x = false;
  swo_trans : ∀ x y z, less x y = true → less y z = true → less x z = true;
  swo_negtrans : ∀ x y z, less x y = false → less y z = false → less x z = false
}.

(** A runtime that keeps the documented contracts: [sort.Slice] permutes
    the slice and leaves it in an order where no element is less than
    its predecessor; a [range] loop visits every entry of the map once. *)
Record LawfulRuntime := mkLawfulRuntime {
  runtime :> Runtime;
  sortSlice_perm : ∀ (A : Type) (less : A → A → bool) (x : list A),
    sortSlice runtime A less x ≡ₚ x;
  sortSlice_sorted : ∀ (A : Type) (less : A → A → bool) (x : list A),
    StrictWeakOrder less →
    Sorted (λ a b, less b a = false) (sortSlice runtime A less x);
  rangeMap_perm : ∀ entries, rangeMap runtime entries ≡ₚ entries
}.

(** ** Ranges of a slice being sorted *)

Section SortVocabulary.
Context {A : Type}.
Import sort.

(** The slice [d'] is the slice [d] with the elements of the range
    [[a, b)] rearranged. *)
Definition rangePerm (a b : Z) (d d' : list A) : Prop :=
  d' ≡ₚ d ∧ ∀ k, k < a ∨ b <= k → at_ d' k = at_ d k.

(** Every element of the range [[a, b)] satisfies [P]. *)
Definition allIn (a b : Z) (d : list A) (P : A → Prop) : Prop :=
  ∀ k x, a <= k < b → at_ d k = Some x → P x.

(** The elements of the range [[a, b)]. *)
Definition segment (a b : Z) (d : list A) : list A :=
  take (Z.to_nat (b - a)) (drop (Z.to_nat a) d).

(** The position [k] holds after [Swap d i j] what [transpose i j k] held
    before. *)
Definition transpose (i j k : Z) : Z :=
  if k =? j then i else if k =? i then j else k.

(** No element of the range [[a, b)] is less than its predecessor. *)
Definition sortedRange (less : A → A → bool) (a b : Z) (d : list A) : Prop :=
  ∀ k x y, a <= k → k + 1 < b →
    at_ d k = Some x → at_ d (k + 1) = Some y → less y x = false.

(** No element of the range [[a, b)] is less than the element before the
    range (there is none when [a = 0]). *)
Definition lowerBound (less : A → A → bool) (a b : Z) (d : list A) : Prop :=
  ∀ v, at_ d (a - 1) = Some v → allIn a b d (λ y, less y v = false).

(** In the heap of [hi] elements that starts at [first], the element at
    [p] is not less than its children. *)
Definition heapAt (less : A → A → bool) (first hi : Z) (d : list A) (p : Z)
  : Prop :=
  ∀ c, c = 2 * p + 1 ∨ c = 2 * p + 2 → c < hi →
    Less less d (first + p) (first + c) = false.

Definition heapFrom (less : A → A → bool) (first lo hi : Z) (d : list A)
  : Prop :=
  ∀ p, lo <= p → heapAt less first hi d p.

End SortVocabulary.

(* ===================================================================== *)
(** * Vocabulary of the further properties                                *)
(* ===================================================================== *)

(** A working directory with two daily logs, a copy of a third, a log
    named after a year only and a file of another kind.  The copy was
    modified last; the two daily logs were modified at the same time
    before it, and the short log cannot be inspected. *)
Definition mixedNames : list string :=
  ["gym-stats-20240112.csv"; "gym-stats-20240113-copy.csv";
   "gym-stats-2024.csv"; "notes.txt"; "gym-stats-20240114.csv"].

Definition mixedWorld : World :=
  mkWorld mixedNames
    (λ name,
       if String.eqb name "gym-stats-20240112.csv" then Some 1705104000000000000
       else if String.eqb name "gym-stats-20240114.csv" then Some 1705104000000000000
       else if String.eqb name "gym-stats-20240113-copy.csv"
       then Some 1705190400000000000
       else if String.eqb name "notes.txt" then Some 1705276800000000000
       else None)
    (λ _, None) None.

(** The [switch] of the header loop on one header at position [i]. *)
Definition headerStep (header : string) (i : Z) (c : columns) : columns :=
  if String.eqb header "timestamp"
  then mkColumns i (locationNameIdx c) (userCountIdx c) (statusIdx c)
  else if String.eqb header "location_name"
  then mkColumns (timestampIdx c) i (userCountIdx c) (statusIdx c)
  else if String.eqb header "user_count"
  then mkColumns (timestampIdx c) (locationNameIdx c) i (statusIdx c)
  else if String.eqb header "status"
  then mkColumns (timestampIdx c) (locationNameIdx c) (userCountIdx c) i
  else c.

(** [idx] is the position of the last of [headers] equal to [name], or
    [-1] when none is. *)
Definition lastPosition (name : string) (headers : list string) (idx : Z) : Prop :=
  (idx = -1 ∧ ¬ List.In name headers)
  ∨ (0 <= idx ∧ headers !! Z.to_nat idx = Some name
     ∧ ∀ j, (Z.to_nat idx < j)%nat → headers !! j ≠ Some name).

(** What every answer of the two handlers looks like: the three CORS
    headers and the content type are set; a preflight request is
    answered 200 with an empty body; any other request is answered with
    one JSON value, a success under the status 200 or a failure with
    its text under a status of the 400s or 500. *)
Definition wellFormed (r : http.Request) (w : http.ResponseWriter) : Prop :=
  http.header w !! "Access-Control-Allow-Origin" = Some "*"
  ∧ http.header w !! "Access-Control-Allow-Methods" = Some "GET, POST, OPTIONS"
  ∧ http.header w !! "Access-Control-Allow-Headers" = Some "Content-Type"
  ∧ http.header w !! "Content-Type" = Some "application/json"
  ∧ (http.Method r = "OPTIONS" →
     http.status w = Some http.StatusOK ∧ http.body w = [])
  ∧ (http.Method r ≠ "OPTIONS" →
     ∃ resp code,
       http.body w = [resp] ∧ http.status w = Some code
       ∧ if Success resp
         then code = http.StatusOK ∧ Error resp = None
         else (code = http.StatusBadRequest ∨ code = http.StatusNotFound
               ∨ code = http.StatusMethodNotAllowed
               ∨ code = http.StatusInternalServerError)
              ∧ Error resp ≠ None ∧ Message resp = "" ∧ Output resp = "").

(* ===================================================================== *)
(** * Samples with ties, and a zone off the hour                          *)
(* ===================================================================== *)

(** A log of six samples of one location that fall into two buckets,
    14:04 and 14:00 local time, in turns. *)
Definition logInterleaved : list (option (list string)) :=
  [csvHeader;
   Some ["2024-06-01 11:04:10"; "3"; "T1"; "1"; "success"; ""];
   Some ["2024-06-01 11:05:20"; "3"; "T1"; "2"; "success"; ""];
   Some ["2024-06-01 11:00:30"; "3"; "T1"; "3"; "success"; ""];
   Some ["2024-06-01 11:04:59"; "3"; "T1"; "4"; "success"; ""];
   Some ["2024-06-01 11:01:00"; "3"; "T1"; "5"; "success"; ""];
   Some ["2024-06-01 11:05:59"; "3"; "T1"; "6"; "success"; ""]].

Definition interleavedWorld : World :=
  mkWorld ["gym-stats-20240601.csv"] (λ _, None)
    (λ name,
       if String.eqb name "gym-stats-20240601.csv" then Some logInterleaved
       else None)
    (Some tallinn2024).




(** Around the instant [u] the offsets of the location step by whole
    hours: at every instant within [2 * bound] seconds of [u] (and two
    minutes more before it) the offset is at most [bound] in size and a
    whole number of hours away from the offset at [u].  These are the
    instants at which [time.Date] and [Time.Format] may look the zone
    up for a sample taken at [u]. *)
Definition wholeHourSteps (l : time.Location) (u bound : Z) : Prop :=
  0 <= bound
  ∧ ∀ x, u - (2 * bound + 120) <= x <= u + 2 * bound →
      - bound <= time.offsetAt l x <= bound
      ∧ (time.offsetAt l x - time.offsetAt l u) mod 3600 = 0.

(* ===================================================================== *)
(** * Facts about the calendar                                            *)
(* ===================================================================== *)

Ltac dlia := Z.div_mod_to_equations; lia.

Section CalendarFacts.
Import time.

Lemma norm_spec hi lo base :
  0 < base → norm hi lo base = (hi + lo / base, lo mod base).
Proof.
  intros Hb. unfold norm.
  destruct (Z.ltb_spec lo 0) as [Hlo|Hlo].
  - pose proof (Z.mul_div_le (- lo - 1) base Hb) as H1.
    pose proof (Z.mul_succ_div_gt (- lo - 1) base Hb) as H2.
    set (q := (- lo - 1) / base) in *.
    assert (Hr : 0 <= lo + (q + 1) * base < base) by nia.
    assert (Hq : lo / base = - (q + 1)).
    { symmetry.
      apply (Z.div_unique lo base (- (q + 1)) (lo + (q + 1) * base)); [lia | ring]. }
    assert (Hm : lo mod base = lo + (q + 1) * base).
    { symmetry.
      apply (Z.mod_unique lo base (- (q + 1)) (lo + (q + 1) * base)); [lia | ring]. }
    destruct (Z.geb_spec (lo + (q + 1) * base) base) as [H|H]; [lia|].
    rewrite Hq, Hm. f_equal; lia.
  - destruct (Z.geb_spec lo base) as [H|H].
    + rewrite (Z.mod_eq lo base) by lia. f_equal; lia.
    + rewrite Z.div_small, Z.mod_small by lia. f_equal; lia.
Qed.

Lemma norm_id hi lo base : 0 <= lo < base → norm hi lo base = (hi, lo).
Proof.
  intros H. rewrite norm_spec by lia.
  rewrite Z.div_small, Z.mod_small by lia. f_equal; lia.
Qed.

(** [daysSinceEpoch] counts whole cycles of 400, 100, 4 and 1 years. *)
Lemma daysSinceEpoch_cycles year :
  ∃ n400 n100 n4 n1,
    0 <= n100 <= 3 ∧ 0 <= n4 <= 24 ∧ 0 <= n1 <= 3 ∧
    year - absoluteZeroYear = 400 * n400 + 100 * n100 + 4 * n4 + n1 ∧
    daysSinceEpoch year = yearDays n400 n100 n4 n1.
Proof.
  unfold daysSinceEpoch, yearDays, daysPer400Years, daysPer100Years, daysPer4Years.
  set (y := year - absoluteZeroYear).
  exists (y / 400), ((y - 400 * (y / 400)) / 100),
    ((y - 400 * (y / 400) - 100 * ((y - 400 * (y / 400)) / 100)) / 4),
    (y - 400 * (y / 400) - 100 * ((y - 400 * (y / 400)) / 100)
      - 4 * ((y - 400 * (y / 400) - 100 * ((y - 400 * (y / 400)) / 100)) / 4)).
  cbv zeta. dlia.
Qed.

Lemma isLeap_cycles year n400 n100 n4 n1 :
  0 <= n100 <= 3 → 0 <= n4 <= 24 → 0 <= n1 <= 3 →
  year - absoluteZeroYear = 400 * n400 + 100 * n100 + 4 * n4 + n1 →
  isLeap year = (n1 =? 3) && (negb (n4 =? 24) || (n100 =? 3)).
Proof.
  intros H100 H4 H1 Hy. unfold isLeap, absoluteZeroYear in *.
  assert (E4 : (Z.rem year 4 =? 0) = (n1 =? 3)).
  { apply eq_true_iff_eq. rewrite !Z.eqb_eq, Z.rem_mod_eq_0 by lia. dlia. }
  assert (E100 : (Z.rem year 100 =? 0) = (n1 =? 3) && (n4 =? 24)).
  { apply eq_true_iff_eq.
    rewrite andb_true_iff, !Z.eqb_eq, Z.rem_mod_eq_0 by lia. dlia. }
  assert (E400 : (Z.rem year 400 =? 0) = (n1 =? 3) && (n4 =? 24) && (n100 =? 3)).
  { apply eq_true_iff_eq.
    rewrite !andb_true_iff, !Z.eqb_eq, Z.rem_mod_eq_0 by lia. dlia. }
  rewrite E4, E100, E400.
  destruct (n1 =? 3), (n4 =? 24), (n100 =? 3); reflexivity.
Qed.

(** The first half of [absDate] undoes the cycle count. *)
Lemma absDate_cycles n400 n100 n4 n1 yday secs :
  0 <= n100 <= 3 → 0 <= n4 <= 24 → 0 <= n1 <= 3 →
  0 <= yday < 365 + (if (n1 =? 3) && (negb (n4 =? 24) || (n100 =? 3)) then 1 else 0) →
  0 <= secs < 86400 →
  absDate ((yearDays n400 n100 n4 n1 + yday) * 86400 + secs) =
  monthDay (400 * n400 + 100 * n100 + 4 * n4 + n1 + absoluteZeroYear) yday.
Proof.
  intros H100 H4 H1 Hyd Hs.
  unfold absDate, secondsPerDay, daysPer400Years, daysPer100Years, daysPer4Years.
  set (d0 := yearDays n400 n100 n4 n1 + yday).
  assert (Hleap :
    (if (n1 =? 3) && (negb (n4 =? 24) || (n100 =? 3)) then 1 else 0) = 1 →
    n1 = 3 ∧ (n4 ≠ 24 ∨ n100 = 3)).
  { destruct (Z.eqb_spec n1 3), (Z.eqb_spec n4 24), (Z.eqb_spec n100 3);
      simpl; lia. }
  assert (Hcases :
    (if (n1 =? 3) && (negb (n4 =? 24) || (n100 =? 3)) then 1 else 0) = 1 ∨
    (if (n1 =? 3) && (negb (n4 =? 24) || (n100 =? 3)) then 1 else 0) = 0).
  { destruct ((n1 =? 3) && (negb (n4 =? 24) || (n100 =? 3))); auto. }
  set (L := if (n1 =? 3) && (negb (n4 =? 24) || (n100 =? 3)) then 1 else 0) in *.
  assert (E0 : (d0 * 86400 + secs) / 86400 = d0) by dlia.
  rewrite E0.
  assert (E1 : d0 / (365 * 400 + 97) = n400).
  { subst d0. unfold yearDays. dlia. }
  rewrite E1.
  set (d1 := d0 - (365 * 400 + 97) * n400).
  assert (Hd1 : d1 = 36524 * n100 + 1461 * n4 + 365 * n1 + yday)
    by (subst d1 d0; unfold yearDays; lia).
  assert (E2 : d1 / (365 * 100 + 24) - d1 / (365 * 100 + 24) / 4 = n100) by dlia.
  rewrite E2.
  set (d2 := d1 - (365 * 100 + 24) * n100).
  assert (Hd2 : d2 = 1461 * n4 + 365 * n1 + yday) by (subst d2; lia).
  assert (E3 : d2 / (365 * 4 + 1) = n4) by dlia.
  rewrite E3.
  set (d3 := d2 - (365 * 4 + 1) * n4).
  assert (Hd3 : d3 = 365 * n1 + yday) by (subst d3; lia).
  assert (E4 : d3 / 365 - d3 / 365 / 4 = n1) by dlia.
  rewrite E4.
  replace (d3 - 365 * n1) with yday by lia.
  reflexivity.
Qed.

Lemma monthOf_day (year : Z) day m :
  1 <= m <= 12 → daysBefore (m - 1) <= day < daysBefore m →
  (let month := day / 31 in
   let end_ := daysBefore (month + 1) in
   let '(month, begin) :=
     if day >=? end_ then (month + 1, end_) else (month, daysBefore month) in
   (year, month + 1, day - begin + 1))
  = (year, m, day - daysBefore (m - 1) + 1).
Proof.
  intros Hm Hd. cbv zeta.
  assert (Hm' : m = 1 ∨ m = 2 ∨ m = 3 ∨ m = 4 ∨ m = 5 ∨ m = 6 ∨ m = 7 ∨ m = 8
                ∨ m = 9 ∨ m = 10 ∨ m = 11 ∨ m = 12) by lia.
  assert (Hq : day / 31 = m - 1 ∨ day / 31 = m - 2).
  { repeat (destruct Hm' as [-> | Hm']); try subst m; simpl in Hd; dlia. }
  repeat (destruct Hm' as [-> | Hm']); try subst m; simpl in Hd;
    destruct Hq as [-> | ->]; simpl;
    match goal with
    | |- context [Z.geb ?a ?b] =>
        destruct (Z.geb_spec a b); simpl; try lia; f_equal; lia
    end.
Qed.

Lemma daysBefore_facts m :
  1 <= m <= 12 →
  daysBefore (m - 1) < daysBefore m
  ∧ (m <= 2 → daysBefore m <= 59) ∧ (3 <= m → 59 <= daysBefore (m - 1))
  ∧ (m = 2 → daysBefore (m - 1) = 31 ∧ daysBefore m = 59)
  ∧ (m = 1 → daysBefore (m - 1) = 0 ∧ daysBefore m = 31)
  ∧ 0 <= daysBefore (m - 1) ∧ daysBefore m <= 365.
Proof.
  intros Hm.
  assert (Hm' : m = 1 ∨ m = 2 ∨ m = 3 ∨ m = 4 ∨ m = 5 ∨ m = 6 ∨ m = 7 ∨ m = 8
                ∨ m = 9 ∨ m = 10 ∨ m = 11 ∨ m = 12) by lia.
  repeat (destruct Hm' as [-> | Hm']); try subst m; simpl; lia.
Qed.

(** The second half of [absDate] undoes the day-of-year count. *)
Lemma monthDay_yearDay year m d :
  1 <= m <= 12 → 1 <= d <= daysIn m year →
  monthDay year (yearDay year m d) = (year, m, d).
Proof.
  intros Hm Hd. unfold monthDay, yearDay, leapAdj, daysIn in *.
  destruct (daysBefore_facts m Hm) as (Hlt & Hle2 & Hge3 & H2 & H1 & _).
  set (db1 := daysBefore (m - 1)) in *. set (db := daysBefore m) in *.
  change (31 + 29 - 1) with 59.
  destruct (isLeap year); simpl in *.
  - destruct (Z.geb_spec m 3) as [H3|H3].
    + destruct (Z.eqb_spec m 2); [lia|]. simpl in Hd.
      destruct (Z.eqb_spec (db1 + 1 + (d - 1)) 59); [lia|].
      destruct (Z.gtb_spec (db1 + 1 + (d - 1)) 59); [|lia].
      pose proof (monthOf_day year (db1 + 1 + (d - 1) - 1) m Hm) as HM.
      cbv zeta in HM. fold db1 db in HM. rewrite HM by lia. f_equal. lia.
    + destruct (Z.eqb_spec m 2) as [->|Hm2]; simpl in Hd.
      * destruct (H2 eq_refl) as [E1 E2].
        destruct (Z.eqb_spec (db1 + 0 + (d - 1)) 59) as [E|E].
        { f_equal. lia. }
        destruct (Z.gtb_spec (db1 + 0 + (d - 1)) 59); [lia|].
        pose proof (monthOf_day year (db1 + 0 + (d - 1)) 2 Hm) as HM.
        cbv zeta in HM.
        change (daysBefore 2) with 59 in HM.
        change (daysBefore (2 - 1)) with 31 in HM.
        rewrite HM by lia. f_equal. lia.
      * assert (m = 1) by lia. subst m. destruct (H1 eq_refl) as [E1 E2].
        destruct (Z.eqb_spec (db1 + 0 + (d - 1)) 59) as [E|E]; [lia|].
        destruct (Z.gtb_spec (db1 + 0 + (d - 1)) 59); [lia|].
        pose proof (monthOf_day year (db1 + 0 + (d - 1)) 1 Hm) as HM.
        cbv zeta in HM.
        change (daysBefore 1) with 31 in HM.
        change (daysBefore (1 - 1)) with 0 in HM.
        rewrite HM by lia. f_equal. lia.
  - rewrite andb_false_r in Hd.
    pose proof (monthOf_day year (db1 + 0 + (d - 1)) m Hm) as HM.
    cbv zeta in HM. fold db1 db in HM. rewrite HM by lia. f_equal. lia.
Qed.

Lemma yearDay_range year m d :
  1 <= m <= 12 → 1 <= d <= daysIn m year →
  0 <= yearDay year m d < 365 + (if isLeap year then 1 else 0).
Proof.
  intros Hm Hd. unfold yearDay, leapAdj, daysIn in *.
  assert (Hm' : m = 1 ∨ m = 2 ∨ m = 3 ∨ m = 4 ∨ m = 5 ∨ m = 6 ∨ m = 7 ∨ m = 8
                ∨ m = 9 ∨ m = 10 ∨ m = 11 ∨ m = 12) by lia.
  destruct (isLeap year);
    repeat (destruct Hm' as [-> | Hm']); try subst m; simpl in *; lia.
Qed.

(** [wallSeconds] on fields within their ranges: no carry takes place. *)
Lemma wallSeconds_inrange y m d h mi s :
  1 <= m <= 12 → 0 <= h < 24 → 0 <= mi < 60 → 0 <= s < 60 →
  wallSeconds y m d h mi s =
  (daysSinceEpoch y + yearDay y m d) * 86400 + (h * 3600 + mi * 60 + s)
  + (absoluteToInternal + internalToUnix).
Proof.
  intros Hm Hh Hmi Hs. unfold wallSeconds.
  rewrite (norm_id y (m - 1) 12) by lia.
  rewrite (norm_id mi s 60) by lia.
  rewrite (norm_id h mi 60) by lia.
  rewrite (norm_id d h 24) by lia.
  unfold yearDay, leapAdj, secondsPerDay, secondsPerHour, secondsPerMinute.
  replace (m - 1 + 1) with m by lia.
  destruct (isLeap y && (m >=? 3)); lia.
Qed.

Lemma lookup_UTC sec : lookup UTC sec = (0, alpha, omega).
Proof. reflexivity. Qed.

Lemma Date_UTC y m d h mi s :
  Date y m d h mi s UTC = mkTime (wallSeconds y m d h mi s) UTC.
Proof. unfold Date. rewrite lookup_UTC. reflexivity. Qed.

Lemma abs_UTC u :
  abs (mkTime u UTC) = u + (unixToInternal + internalToAbsolute).
Proof. unfold abs, offsetAt. simpl. lia. Qed.

(** Round trip: the fields of [Date] of a valid date and time in UTC are
    the fields it was made of. *)
Lemma Date_fields_UTC c :
  validCivil c →
  let t := civilTime c in
  Year t = cYear c ∧ Month t = cMonth c ∧ Day t = cDay c
  ∧ Hour t = cHour c ∧ Minute t = cMin c ∧ Second t = cSec c.
Proof.
  intros (Hm & Hd & Hh & Hmi & Hs). cbv zeta. unfold civilTime.
  destruct c as [y m d h mi s]; simpl in *.
  unfold Year, Month, Day, Hour, Minute, Second.
  rewrite Date_UTC, abs_UTC, wallSeconds_inrange by assumption.
  destruct (daysSinceEpoch_cycles y) as (n400 & n100 & n4 & n1 & H100 & H4 & H1 & Hy & ->).
  pose proof (yearDay_range y m d Hm Hd) as Hyd.
  rewrite (isLeap_cycles y n400 n100 n4 n1) in Hyd by assumption.
  set (secs := h * 3600 + mi * 60 + s).
  assert (Hsecs : 0 <= secs < 86400) by (subst secs; lia).
  replace ((yearDays n400 n100 n4 n1 + yearDay y m d) * 86400 + secs
           + (absoluteToInternal + internalToUnix)
           + (unixToInternal + internalToAbsolute))
    with ((yearDays n400 n100 n4 n1 + yearDay y m d) * 86400 + secs)
    by (unfold absoluteToInternal, internalToUnix, unixToInternal,
          internalToAbsolute; lia).
  rewrite absDate_cycles by assumption.
  replace (400 * n400 + 100 * n100 + 4 * n4 + n1 + absoluteZeroYear) with y by lia.
  rewrite monthDay_yearDay by assumption. simpl.
  unfold absClock, secondsPerDay, secondsPerHour, secondsPerMinute.
  assert (E : ((yearDays n400 n100 n4 n1 + yearDay y m d) * 86400 + secs) mod 86400
              = secs) by dlia.
  rewrite E. simpl. subst secs.
  repeat split; try reflexivity; dlia.
Qed.

End CalendarFacts.

Section CalendarOrder.
Import time.

Lemma daysSinceEpoch_next_year y1 y2 :
  y1 < y2 →
  daysSinceEpoch y1 + 365 + (if isLeap y1 then 1 else 0) <= daysSinceEpoch y2.
Proof.
  intros Hlt.
  destruct (daysSinceEpoch_cycles y1) as (a400 & a100 & a4 & a1 & Ha100 & Ha4 & Ha1 & Hy1 & ->).
  destruct (daysSinceEpoch_cycles y2) as (b400 & b100 & b4 & b1 & Hb100 & Hb4 & Hb1 & Hy2 & ->).
  rewrite (isLeap_cycles y1 a400 a100 a4 a1) by assumption.
  unfold yearDays.
  destruct (Z.eqb_spec a1 3), (Z.eqb_spec a4 24), (Z.eqb_spec a100 3); simpl; lia.
Qed.

Lemma yearDay_mono y m1 d1 m2 d2 :
  1 <= m1 <= 12 → 1 <= m2 <= 12 →
  1 <= d1 <= daysIn m1 y → 1 <= d2 <= daysIn m2 y →
  m1 < m2 ∨ (m1 = m2 ∧ d1 < d2) →
  yearDay y m1 d1 < yearDay y m2 d2.
Proof.
  intros Hm1 Hm2 Hd1 Hd2 [Hlt | [-> Hlt]]; [|unfold yearDay; lia].
  unfold yearDay, leapAdj, daysIn in *.
  assert (Hm1' : m1 = 1 ∨ m1 = 2 ∨ m1 = 3 ∨ m1 = 4 ∨ m1 = 5 ∨ m1 = 6 ∨ m1 = 7
                 ∨ m1 = 8 ∨ m1 = 9 ∨ m1 = 10 ∨ m1 = 11 ∨ m1 = 12) by lia.
  assert (Hstart : ∀ m, 1 <= m <= 12 → m1 < m →
            daysBefore m1 + (if isLeap y && (m1 + 1 >=? 3) then 1 else 0)
            <= daysBefore (m - 1) + (if isLeap y && (m >=? 3) then 1 else 0)).
  { intros m Hm Hlt'.
    assert (Hm' : m = 1 ∨ m = 2 ∨ m = 3 ∨ m = 4 ∨ m = 5 ∨ m = 6 ∨ m = 7
                  ∨ m = 8 ∨ m = 9 ∨ m = 10 ∨ m = 11 ∨ m = 12) by lia.
    destruct (isLeap y);
      repeat (destruct Hm1' as [-> | Hm1']); try subst m1;
      repeat (destruct Hm' as [-> | Hm']); try subst m; simpl; lia. }
  specialize (Hstart m2 Hm2 Hlt).
  assert (Hd2' : 1 <= d2) by lia. clear Hd2 Hlt Hm2.
  destruct (isLeap y);
    repeat (destruct Hm1' as [-> | Hm1']); try subst m1; simpl in *; lia.
Qed.

(** The number of the day of a date, counted from the absolute epoch. *)
Lemma dayNumber_mono a b :
  validCivil a → validCivil b → dateLt a b →
  daysSinceEpoch (cYear a) + yearDay (cYear a) (cMonth a) (cDay a)
  < daysSinceEpoch (cYear b) + yearDay (cYear b) (cMonth b) (cDay b).
Proof.
  intros (Hma & Hda & _) (Hmb & Hdb & _) [Hy | [Hy Hmd]].
  - pose proof (daysSinceEpoch_next_year _ _ Hy).
    pose proof (yearDay_range _ _ _ Hma Hda).
    pose proof (yearDay_range _ _ _ Hmb Hdb). lia.
  - rewrite Hy in *. pose proof (yearDay_mono (cYear b) _ _ _ _ Hma Hmb Hda Hdb Hmd).
    lia.
Qed.

Lemma unixSec_civilTime c :
  validCivil c →
  unixSec (civilTime c) =
  (daysSinceEpoch (cYear c) + yearDay (cYear c) (cMonth c) (cDay c)) * 86400
  + (cHour c * 3600 + cMin c * 60 + cSec c)
  + (absoluteToInternal + internalToUnix).
Proof.
  intros (Hm & Hd & Hh & Hmi & Hs). unfold civilTime.
  rewrite Date_UTC. simpl. apply wallSeconds_inrange; assumption.
Qed.

Lemma location_civilTime c : location (civilTime c) = UTC.
Proof. unfold civilTime. rewrite Date_UTC. reflexivity. Qed.

(** Calendar order is the order of the instants. *)
Lemma dateLt_unixSec a b :
  validCivil a → validCivil b → dateLt a b →
  unixSec (civilTime a) + 86400 - (cHour a * 3600 + cMin a * 60 + cSec a)
  <= unixSec (civilTime b) - (cHour b * 3600 + cMin b * 60 + cSec b).
Proof.
  intros Ha Hb Hlt. rewrite !unixSec_civilTime by assumption.
  pose proof (dayNumber_mono a b Ha Hb Hlt). lia.
Qed.

Lemma dateEq_unixSec a b :
  validCivil a → validCivil b → dateEq a b →
  unixSec (civilTime a) - (cHour a * 3600 + cMin a * 60 + cSec a)
  = unixSec (civilTime b) - (cHour b * 3600 + cMin b * 60 + cSec b).
Proof.
  intros Ha Hb (Hy & Hm & Hd). rewrite !unixSec_civilTime by assumption.
  rewrite Hy, Hm, Hd. lia.
Qed.

Lemma date_trichotomy a b : dateLt a b ∨ dateEq a b ∨ dateLt b a.
Proof. unfold dateLt, dateEq. lia. Qed.

Lemma dateLt_irrefl a b : dateLt a b → ¬ dateLe b a.
Proof. unfold dateLe, dateLt, dateEq. lia. Qed.

(** [t.AddDate(0, 0, 1)] on the time of a valid date: one day later. *)
Lemma AddDate_one_day c :
  validCivil c →
  AddDate (civilTime c) 0 0 1 = mkTime (unixSec (civilTime c) + 86400) UTC.
Proof.
  intros Hc. unfold AddDate.
  destruct (Date_fields_UTC c Hc) as (-> & -> & -> & -> & -> & ->).
  rewrite location_civilTime, Date_UTC. f_equal.
  rewrite unixSec_civilTime by assumption.
  destruct Hc as (Hm & Hd & Hh & Hmi & Hs).
  rewrite wallSeconds_inrange by lia.
  rewrite !Z.add_0_r. unfold yearDay. lia.
Qed.

End CalendarOrder.

Section ParseFacts.
Import time gostring.

Lemma getnum_range s fixed n rest :
  getnum s fixed = Some (n, rest) → 0 <= n <= 99.
Proof.
  unfold getnum. destruct s as [|c0 s]; [discriminate|].
  destruct (isDigitByte c0) eqn:E0; [|discriminate].
  assert (H0 : 0 <= digitVal c0 <= 9).
  { unfold isDigitByte, digitVal in *. lia. }
  destruct s as [|c1 s].
  - destruct fixed; [discriminate|]. intros [= <- <-]. lia.
  - destruct (isDigitByte c1) eqn:E1.
    + assert (H1 : 0 <= digitVal c1 <= 9).
      { unfold isDigitByte, digitVal in *. lia. }
      intros [= <- <-]. lia.
    + destruct fixed; [discriminate|]. intros [= <- <-]. lia.
Qed.

Lemma parseStd_inRange std value c c' value' :
  parseStd std value c = Some (c', value') → clockInRange c → clockInRange c'.
Proof.
  unfold clockInRange. intros H (Hm & Hh & Hmi & Hs).
  destruct std; simpl in H.
  - destruct (len value <? 4); [discriminate|].
    destruct value as [|c0 v]; [discriminate|].
    destruct (isDigitByte c0); [|discriminate].
    destruct (strconv.digits _ _); [|discriminate].
    injection H as <- <-. simpl. lia.
  - destruct (getnum value true) as [[n r]|] eqn:E; [|discriminate]. simpl in H.
    destruct ((n <=? 0) || (12 <? n)) eqn:E'; [discriminate|].
    injection H as <- <-. simpl. lia.
  - destruct (getnum value true) as [[n r]|] eqn:E; [|discriminate]. simpl in H.
    injection H as <- <-. simpl. lia.
  - destruct (getnum value false) as [[n r]|] eqn:E; [|discriminate]. simpl in H.
    destruct ((n <? 0) || (24 <=? n)) eqn:E'; [discriminate|].
    injection H as <- <-. simpl. lia.
  - destruct (getnum value true) as [[n r]|] eqn:E; [|discriminate]. simpl in H.
    destruct ((n <? 0) || (60 <=? n)) eqn:E'; [discriminate|].
    injection H as <- <-. simpl. lia.
  - destruct (getnum value true) as [[n r]|] eqn:E; [|discriminate]. simpl in H.
    destruct ((n <? 0) || (60 <=? n)) eqn:E'; [discriminate|].
    injection H as <- <-. simpl. lia.
  - discriminate.
Qed.

Lemma parseChunks_inRange cs : ∀ value c c' value',
  parseChunks cs value c = Some (c', value') → clockInRange c → clockInRange c'.
Proof.
  induction cs as [|[prefix std] cs IH]; intros value c c' value' H Hc; simpl in H.
  - injection H as <- <-. exact Hc.
  - destruct (skip value prefix) as [v1|]; [|discriminate]. simpl in H.
    destruct (parseStd std v1 c) as [[c1 v2]|] eqn:E; [|discriminate]. simpl in H.
    eapply IH; [exact H|]. eapply parseStd_inRange; eauto.
Qed.

Lemma parseChunks_cons_inv prefix std cs value c r :
  parseChunks ((prefix, std) :: cs) value c = Some r →
  ∃ v1 c1 v2, skip value prefix = Some v1 ∧ parseStd std v1 c = Some (c1, v2)
              ∧ parseChunks cs v2 c1 = Some r.
Proof.
  simpl. destruct (skip value prefix) as [v1|]; [|discriminate]. simpl.
  destruct (parseStd std v1 c) as [[c1 v2]|] eqn:E; [|discriminate]. simpl.
  intros H. exists v1, c1, v2. auto.
Qed.

Lemma parseCivil_inv layout value c :
  parseCivil layout value = Some c →
  ∃ v1 v2, parseChunks (chunks layout) value (mkCivil 0 1 1 0 0 0) = Some (c, v1)
           ∧ skip v1 (suffix layout) = Some v2 ∧ len v2 = 0
           ∧ 1 <= cDay c <= daysIn (cMonth c) (cYear c).
Proof.
  unfold parseCivil. intros H.
  destruct (parseChunks (chunks layout) value _) as [[c1 v1]|] eqn:E; [|discriminate].
  simpl in H. destruct (skip v1 (suffix layout)) as [v2|] eqn:Es; [|discriminate].
  simpl in H. destruct (Z.eqb_spec (len v2) 0) as [Hl|]; [|discriminate].
  simpl in H.
  destruct ((cDay c1 <? 1) || (cDay c1 >? daysIn (cMonth c1) (cYear c1))) eqn:Ed;
    [discriminate|].
  injection H as <-. exists v1, v2. repeat split; try assumption; lia.
Qed.

(** The fields of a successful [Parse] form a valid date and time. *)
Lemma parseCivil_valid layout value c :
  parseCivil layout value = Some c → validCivil c.
Proof.
  unfold parseCivil. intros H.
  destruct (parseChunks (chunks layout) value _) as [[c1 v1]|] eqn:E; [|discriminate].
  simpl in H. destruct (skip v1 (suffix layout)) as [v2|]; [|discriminate].
  simpl in H. destruct (negb (len v2 =? 0)); [discriminate|].
  destruct ((cDay c1 <? 1) || (cDay c1 >? daysIn (cMonth c1) (cYear c1))) eqn:Ed;
    [discriminate|].
  injection H as <-.
  apply parseChunks_inRange in E; [|unfold clockInRange; simpl; lia].
  destruct E as (Hm & Hh & Hmi & Hs). unfold validCivil.
  repeat split; try lia.
Qed.

Lemma Parse_civil layout value t :
  Parse layout value = Some t ↔
  ∃ c, parseCivil layout value = Some c ∧ t = civilTime c.
Proof.
  unfold Parse. destruct (parseCivil layout value) as [c|]; simpl.
  - split; [intros [= <-]; eauto | intros (c' & [= <-] & ->); reflexivity].
  - split; [discriminate | intros (c' & [=] & _)].
Qed.

End ParseFacts.

(* ===================================================================== *)
(** * Facts about strings and file names                                  *)
(* ===================================================================== *)

Section StringFacts.
Import gostring filepath.

Lemma length_append (a b : string) :
  String.length (a +:+ b) = (String.length a + String.length b)%nat.
Proof. induction a as [|c a IH]; simpl; [reflexivity | rewrite IH; reflexivity]. Qed.



Lemma substring_all (s : string) : String.substring 0 (String.length s) s = s.
Proof. induction s as [|c s IH]; simpl; [reflexivity | rewrite IH; reflexivity]. Qed.

Lemma substring_prefix (a b : string) :
  String.substring 0 (String.length a) (a +:+ b) = a.
Proof.
  induction a as [|c a IH]; simpl.
  - destruct b; reflexivity.
  - rewrite IH. reflexivity.
Qed.

Lemma substring_skip (a b : string) (n : nat) :
  String.substring (String.length a) n (a +:+ b) = String.substring 0 n b.
Proof. induction a as [|c a IH]; simpl; [reflexivity | exact IH]. Qed.

Lemma hasSeparator_app a b :
  hasSeparator (a +:+ b) = hasSeparator a || hasSeparator b.
Proof.
  induction a as [|c a IH]; simpl; [reflexivity|].
  rewrite IH, orb_assoc. reflexivity.
Qed.

Lemma hasSuffix_app a b : hasSuffix (a +:+ b) b = true.
Proof.
  induction a as [|c a IH]; simpl.
  - destruct b; simpl; [reflexivity|].
    rewrite Ascii.eqb_refl, String.eqb_refl. reflexivity.
  - rewrite IH. apply orb_true_r.
Qed.

Lemma stripTrailingSeparators_id s :
  hasSeparator s = false → stripTrailingSeparators s = s.
Proof.
  induction s as [|c s IH]; simpl; [reflexivity|].
  intros H. apply orb_false_iff in H as [Hc Hs].
  rewrite (IH Hs), Hc. destruct s; reflexivity.
Qed.

Lemma afterLastSeparator_none s :
  hasSeparator s = false → afterLastSeparator s = None.
Proof.
  induction s as [|c s IH]; simpl; [reflexivity|].
  intros H. apply orb_false_iff in H as [Hc Hs].
  rewrite (IH Hs), Hc. reflexivity.
Qed.

(** A name without separator is its own base name. *)
Lemma Base_plain s : s ≠ "" → hasSeparator s = false → Base s = s.
Proof.
  intros Hne Hs. unfold Base. destruct s as [|c s]; [congruence|].
  rewrite stripTrailingSeparators_id, afterLastSeparator_none by assumption.
  reflexivity.
Qed.

Lemma digit_not_separator c : isDigitByte c = true → isPathSeparator c = false.
Proof.
  unfold isPathSeparator. destruct (Ascii.eqb_spec c "/") as [->|]; [|reflexivity].
  discriminate.
Qed.

End StringFacts.

Section CompactDateFacts.
Import gostring time.

Lemma getnum_fixed_inv value n rest :
  getnum value true = Some (n, rest) →
  ∃ c0 c1, value = String c0 (String c1 rest)
           ∧ isDigitByte c0 = true ∧ isDigitByte c1 = true.
Proof.
  unfold getnum. destruct value as [|c0 [|c1 r]]; try discriminate.
  - destruct (isDigitByte c0); discriminate.
  - destruct (isDigitByte c0) eqn:E0; [|discriminate].
    destruct (isDigitByte c1) eqn:E1; [|discriminate].
    intros [= <- <-]. eauto.
Qed.

Lemma digits_all_digit s : ∀ n m,
  strconv.digits s n = Some m → filepath.hasSeparator s = false.
Proof.
  induction s as [|c s IH]; intros n m; simpl; [reflexivity|].
  destruct (isDigitByte c) eqn:E; [|discriminate].
  intros H. rewrite (digit_not_separator c E). simpl. eauto.
Qed.

Lemma parseYear_inv value c c' rest :
  parseStd stdLongYear value c = Some (c', rest) →
  ∃ y, value = y +:+ rest ∧ String.length y = 4%nat
       ∧ filepath.hasSeparator y = false.
Proof.
  simpl. destruct (Z.ltb_spec (len value) 4) as [|Hlen]; [discriminate|].
  destruct value as [|c0 [|c1 [|c2 [|c3 r]]]];
    try (exfalso; unfold len in Hlen; simpl in Hlen; lia).
  destruct (isDigitByte c0); [|discriminate].
  destruct (strconv.digits _ 0) as [year|] eqn:Ed; [|discriminate].
  intros [= <- <-].
  assert (Es : slice (String c0 (String c1 (String c2 (String c3 r)))) 0 4
               = String c0 (String c1 (String c2 (String c3 "")))).
  { unfold slice. simpl. destruct r; reflexivity. }
  rewrite Es in Ed.
  exists (String c0 (String c1 (String c2 (String c3 "")))).
  split; [|split; [reflexivity | eapply digits_all_digit; eauto]].
  unfold slice, len. simpl String.length.
  replace (Z.to_nat (Z.of_nat (S (S (S (S (String.length r))))) - 4))
    with (String.length r) by lia.
  change (Z.to_nat 4) with 4%nat. simpl. rewrite substring_all. reflexivity.
Qed.

(** A value that parses in the layout ["20060102"] is eight bytes, none
    of them a separator. *)
Lemma compactDate_shape dateStr d :
  parseCivil layoutCompactDate dateStr = Some d →
  String.length dateStr = 8%nat ∧ filepath.hasSeparator dateStr = false.
Proof.
  intros H. apply parseCivil_inv in H as (v & v' & H & Hs & Hl & _).
  injection Hs as <-.
  apply parseChunks_cons_inv in H as (v1 & c1 & v2 & Hs1 & Hy & H).
  injection Hs1 as <-.
  apply parseYear_inv in Hy as (y & -> & Hy & Hsy).
  apply parseChunks_cons_inv in H as (v3 & c2 & v4 & Hs2 & Hm & H).
  injection Hs2 as <-.
  simpl in Hm. destruct (getnum v2 true) as [[mo v5]|] eqn:Em; [|discriminate].
  apply getnum_fixed_inv in Em as (m0 & m1 & -> & Hm0 & Hm1). simpl in Hm.
  destruct ((mo <=? 0) || (12 <? mo)); [discriminate|]. injection Hm as <- <-.
  apply parseChunks_cons_inv in H as (v6 & c3 & v7 & Hs3 & Hd & H).
  injection Hs3 as <-.
  simpl in Hd. destruct (getnum v5 true) as [[dd v8]|] eqn:Edd; [|discriminate].
  apply getnum_fixed_inv in Edd as (d0 & d1 & -> & Hd0 & Hd1). simpl in Hd.
  injection Hd as <- <-. injection H as <- <-.
  destruct v8 as [|x v8]; [|unfold len in Hl; simpl in Hl; lia].
  split.
  - rewrite length_append, Hy. reflexivity.
  - rewrite hasSeparator_app, Hsy. simpl.
    rewrite !digit_not_separator by assumption. reflexivity.
Qed.

Lemma parseStd_date_clock std value c c' rest :
  isDateChunk std = true →
  parseStd std value c = Some (c', rest) →
  cHour c' = cHour c ∧ cMin c' = cMin c ∧ cSec c' = cSec c.
Proof.
  intros Hstd H. destruct std; try discriminate; simpl in H.
  - destruct (len value <? 4); [discriminate|].
    destruct value as [|c0 v]; [discriminate|].
    destruct (isDigitByte c0); [|discriminate].
    destruct (strconv.digits _ _); [|discriminate].
    injection H as <- <-. auto.
  - destruct (getnum value true) as [[n r]|]; [|discriminate]. simpl in H.
    destruct ((n <=? 0) || (12 <? n)); [discriminate|].
    injection H as <- <-. auto.
  - destruct (getnum value true) as [[n r]|]; [|discriminate]. simpl in H.
    injection H as <- <-. auto.
Qed.

Lemma parseChunks_date_clock cs : ∀ value c c' rest,
  forallb (λ p, isDateChunk (snd p)) cs = true →
  parseChunks cs value c = Some (c', rest) →
  cHour c' = cHour c ∧ cMin c' = cMin c ∧ cSec c' = cSec c.
Proof.
  induction cs as [|[prefix std] cs IH]; intros value c c' rest Hcs H; simpl in *.
  - injection H as <- <-. auto.
  - apply andb_true_iff in Hcs as [Hstd Hcs].
    destruct (skip value prefix) as [v1|]; [|discriminate]. simpl in H.
    destruct (parseStd std v1 c) as [[c1 v2]|] eqn:E; [|discriminate]. simpl in H.
    destruct (parseStd_date_clock _ _ _ _ _ Hstd E) as (<- & <- & <-).
    eapply IH; eauto.
Qed.

(** A date-only layout leaves the clock at midnight. *)
Lemma parseCivil_midnight layout value c :
  forallb (λ p, isDateChunk (snd p)) (chunks layout) = true →
  parseCivil layout value = Some c →
  cHour c = 0 ∧ cMin c = 0 ∧ cSec c = 0.
Proof.
  unfold parseCivil. intros Hl H.
  destruct (parseChunks (chunks layout) value _) as [[c1 v1]|] eqn:E; [|discriminate].
  simpl in H. destruct (skip v1 (suffix layout)) as [v2|]; [|discriminate].
  simpl in H. destruct (negb (len v2 =? 0)); [discriminate|].
  destruct ((cDay c1 <? 1) || _); [discriminate|].
  injection H as <-.
  apply (parseChunks_date_clock _ _ _ _ _ Hl E).
Qed.

End CompactDateFacts.

(* ===================================================================== *)
(** * The Log File Locator                                                *)
(* ===================================================================== *)

Section LocatorFacts.
Import gostring filepath time.

Lemma len_list_nonempty {A} (l : list A) : l ≠ [] → (len_list l =? 0) = false.
Proof. destruct l; [congruence|]. intros _. reflexivity. Qed.

Lemma filteredFiles_filter from to files : ∀ acc,
  foldl (λ (filteredFiles : list string) file,
           if inRange from to file then (filteredFiles ++ [file])%list
           else filteredFiles) acc files
  = (acc ++ List.filter (inRange from to) files)%list.
Proof.
  induction files as [|f files IH]; intros acc; simpl.
  - rewrite app_nil_r. reflexivity.
  - rewrite IH. destruct (inRange from to f); [|reflexivity].
    rewrite <- app_assoc. reflexivity.
Qed.

(** With matching files and two dates that parse, the result is the
    matching files that pass the range test, in their order. *)
Lemma findCSVFilesInRange_filter w fromDate toDate from to :
  Glob (dirNames w) ≠ [] →
  Parse layoutDate fromDate = Some from →
  Parse layoutDate toDate = Some to →
  findCSVFilesInRange w fromDate toDate
  = (List.filter (inRange from to) (Glob (dirNames w)), None).
Proof.
  intros Hne Hf Ht. unfold findCSVFilesInRange.
  rewrite len_list_nonempty, Hf, Ht by assumption.
  rewrite filteredFiles_filter. reflexivity.
Qed.

Lemma dateLe_unixSec a b :
  validCivil a → validCivil b →
  cHour a = 0 ∧ cMin a = 0 ∧ cSec a = 0 →
  cHour b = 0 ∧ cMin b = 0 ∧ cSec b = 0 →
  (dateLe a b ↔ unixSec (civilTime a) <= unixSec (civilTime b)).
Proof.
  intros Ha Hb (Ha1 & Ha2 & Ha3) (Hb1 & Hb2 & Hb3). split.
  - intros [Hlt | Heq].
    + pose proof (dateLt_unixSec a b Ha Hb Hlt). lia.
    + pose proof (dateEq_unixSec a b Ha Hb Heq). lia.
  - intros Hle. destruct (date_trichotomy a b) as [Hlt | [Heq | Hgt]].
    + left. exact Hlt.
    + right. exact Heq.
    + pose proof (dateLt_unixSec b a Hb Ha Hgt). lia.
Qed.

Lemma dateLt_unixSec_day a b :
  validCivil a → validCivil b →
  cHour a = 0 ∧ cMin a = 0 ∧ cSec a = 0 →
  cHour b = 0 ∧ cMin b = 0 ∧ cSec b = 0 →
  unixSec (civilTime a) < unixSec (civilTime b) →
  unixSec (civilTime a) + 86400 <= unixSec (civilTime b).
Proof.
  intros Ha Hb (Ha1 & Ha2 & Ha3) (Hb1 & Hb2 & Hb3) Hlt.
  destruct (date_trichotomy a b) as [H | [H | H]].
  - pose proof (dateLt_unixSec a b Ha Hb H). lia.
  - pose proof (dateEq_unixSec a b Ha Hb H). lia.
  - pose proof (dateLt_unixSec b a Hb Ha H). lia.
Qed.

Lemma logFileName_len dateStr :
  String.length dateStr = 8%nat → len (logFileName dateStr) = 22.
Proof.
  intros H. unfold len, logFileName. rewrite !length_append, H. reflexivity.
Qed.

Lemma logFileName_slice dateStr :
  String.length dateStr = 8%nat → slice (logFileName dateStr) 10 18 = dateStr.
Proof.
  intros H. unfold slice, logFileName.
  change (Z.to_nat 10) with (String.length "gym-stats-").
  rewrite substring_skip.
  change (Z.to_nat (18 - 10)) with 8%nat. rewrite <- H.
  apply substring_prefix.
Qed.

Lemma logFileName_plain dateStr :
  hasSeparator dateStr = false → hasSeparator (logFileName dateStr) = false.
Proof.
  intros H. unfold logFileName. rewrite !hasSeparator_app, H. reflexivity.
Qed.

Lemma logFileName_nonempty dateStr : logFileName dateStr ≠ "".
Proof. unfold logFileName. simpl. discriminate. Qed.

(** A daily log file matches the pattern of [Glob]. *)
Lemma logFileName_match dateStr :
  hasSeparator dateStr = false → matchGymStats (logFileName dateStr) = true.
Proof.
  intros H. unfold matchGymStats. apply andb_true_iff. split.
  - unfold logFileName. simpl. destruct (dateStr +:+ ".csv"); reflexivity.
  - assert (E : slice (logFileName dateStr) 10 (len (logFileName dateStr))
                = dateStr +:+ ".csv").
    { unfold slice, len, logFileName.
      change (Z.to_nat 10) with (String.length "gym-stats-").
      rewrite substring_skip, length_append.
      replace (Z.to_nat (Z.of_nat (String.length "gym-stats-"
                 + String.length (dateStr +:+ ".csv")) - 10))
        with (String.length (dateStr +:+ ".csv")) by (simpl; lia).
      apply substring_all. }
    rewrite E, hasSuffix_app, hasSeparator_app, H. reflexivity.
Qed.

(** The range test on a daily log file with a valid embedded date. *)
Lemma inRange_logFile from to d dateStr :
  validCivil from → validCivil to →
  cHour from = 0 ∧ cMin from = 0 ∧ cSec from = 0 →
  cHour to = 0 ∧ cMin to = 0 ∧ cSec to = 0 →
  parseCivil layoutCompactDate dateStr = Some d →
  inRange (civilTime from) (civilTime to) (logFileName dateStr) = true
  ↔ dateLe from d ∧ dateLe d to.
Proof.
  intros Hf Ht Hf0 Ht0 Hd.
  destruct (compactDate_shape _ _ Hd) as [Hlen Hsep].
  pose proof (parseCivil_valid _ _ _ Hd) as Hdv.
  assert (Hd0 : cHour d = 0 ∧ cMin d = 0 ∧ cSec d = 0)
    by (eapply parseCivil_midnight; [|exact Hd]; reflexivity).
  unfold inRange.
  rewrite Base_plain
    by (auto using logFileName_nonempty, logFileName_plain).
  rewrite logFileName_len, logFileName_slice by assumption.
  change (22 <? 20) with false. cbv iota.
  assert (E : Parse layoutCompactDate dateStr = Some (civilTime d))
    by (apply Parse_civil; eauto).
  rewrite E, AddDate_one_day by assumption.
  unfold Equal, After, Before. cbn [unixSec].
  rewrite (dateLe_unixSec from d), (dateLe_unixSec d to) by assumption.
  rewrite andb_true_iff, !orb_true_iff, !Z.eqb_eq, !Z.ltb_lt.
  split.
  - intros [H1 H2]. split; [lia|].
    destruct H2 as [H2|H2]; [lia|].
    destruct (Z.le_gt_cases (unixSec (civilTime d)) (unixSec (civilTime to)))
      as [|Hgt]; [assumption|].
    pose proof (dateLt_unixSec_day to d Ht Hdv Ht0 Hd0 ltac:(lia)). lia.
  - intros [H1 H2]. split; lia.
Qed.

(** No stat succeeds: the loop of [findLatestCSV] changes nothing. *)
Lemma latest_no_stat w files : ∀ acc,
  (∀ file, List.In file files → statModTime w file = None) →
  foldl (λ '(latestFile, latestTime) file,
           match statModTime w file with
           | None => (latestFile, latestTime)
           | Some modTime =>
               if latestTime <? modTime then (file, modTime)
               else (latestFile, latestTime)
           end) acc files = acc.
Proof.
  induction files as [|f files IH]; intros acc H; simpl; [reflexivity|].
  destruct acc as [lf lt]. rewrite (H f) by (left; reflexivity).
  apply IH. intros f' Hf'. apply H. right. exact Hf'.
Qed.

End LocatorFacts.

(* ===================================================================== *)
(** * The order of strings and sorted lists                               *)
(* ===================================================================== *)

Section StringOrder.

Lemma ascii_compare_refl c : Ascii.compare c c = Eq.
Proof. unfold Ascii.compare. apply N.compare_refl. Qed.

Lemma ascii_compare_lt_trans a b c :
  Ascii.compare a b = Lt → Ascii.compare b c = Lt → Ascii.compare a c = Lt.
Proof.
  unfold Ascii.compare. rewrite !N.compare_lt_iff. apply N.lt_trans.
Qed.

Lemma string_compare_refl s : String.compare s s = Eq.
Proof.
  induction s as [|c s IH]; simpl; [reflexivity|].
  rewrite ascii_compare_refl. exact IH.
Qed.

Lemma string_compare_lt_trans a : ∀ b c,
  String.compare a b = Lt → String.compare b c = Lt → String.compare a c = Lt.
Proof.
  induction a as [|x a IH]; intros [|y b] [|z c]; simpl; try congruence.
  destruct (Ascii.compare x y) eqn:Exy; try discriminate;
    destruct (Ascii.compare y z) eqn:Eyz; try discriminate; intros H1 H2.
  - apply Ascii.compare_eq_iff in Exy, Eyz. subst.
    rewrite ascii_compare_refl. eauto.
  - apply Ascii.compare_eq_iff in Exy. subst. rewrite Eyz. reflexivity.
  - apply Ascii.compare_eq_iff in Eyz. subst. rewrite Exy. reflexivity.
  - rewrite (ascii_compare_lt_trans _ _ _ Exy Eyz). reflexivity.
Qed.

Lemma lt_irrefl s : gostring.lt s s = false.
Proof. unfold gostring.lt, String.ltb. rewrite string_compare_refl. reflexivity. Qed.

Lemma lt_trans a b c :
  gostring.lt a b = true → gostring.lt b c = true → gostring.lt a c = true.
Proof.
  unfold gostring.lt, String.ltb.
  destruct (String.compare a b) eqn:Eab; try discriminate.
  destruct (String.compare b c) eqn:Ebc; try discriminate.
  rewrite (string_compare_lt_trans _ _ _ Eab Ebc). reflexivity.
Qed.

(** [b] is not less than [a] exactly when [a <= b]. *)
Lemma not_lt_le a b : gostring.lt b a = false ↔ gostring.le a b = true.
Proof.
  unfold gostring.lt, gostring.le, String.ltb, String.leb.
  rewrite (String.compare_antisym a b).
  destruct (String.compare b a); simpl; split; congruence.
Qed.

Lemma le_trans a b c :
  gostring.le a b = true → gostring.le b c = true → gostring.le a c = true.
Proof.
  unfold gostring.le, String.leb.
  destruct (String.compare a b) eqn:Eab; try discriminate;
    destruct (String.compare b c) eqn:Ebc; try discriminate; intros _ _.
  - apply String.compare_eq_iff in Eab. subst. rewrite Ebc. reflexivity.
  - apply String.compare_eq_iff in Eab. subst. rewrite Ebc. reflexivity.
  - apply String.compare_eq_iff in Ebc. subst. rewrite Eab. reflexivity.
  - rewrite (string_compare_lt_trans _ _ _ Eab Ebc). reflexivity.
Qed.

Lemma le_antisym a b :
  gostring.le a b = true → gostring.le b a = true → a = b.
Proof. apply String.leb_antisym. Qed.

Lemma lt_negtrans a b c :
  gostring.lt a b = false → gostring.lt b c = false → gostring.lt a c = false.
Proof. rewrite !not_lt_le. intros H1 H2. exact (le_trans _ _ _ H2 H1). Qed.

Lemma lessX_swo : StrictWeakOrder lessX.
Proof.
  split; unfold lessX.
  - intros x. apply lt_irrefl.
  - intros x y z. apply lt_trans.
  - intros x y z. apply lt_negtrans.
Qed.

Lemma lessLabel_swo : StrictWeakOrder lessLabel.
Proof.
  split; unfold lessLabel.
  - intros x. apply lt_irrefl.
  - intros x y z. apply lt_trans.
  - intros x y z. apply lt_negtrans.
Qed.

End StringOrder.

Section SortedFacts.
Context {A : Type} (R : A → A → Prop).

(** In a sorted list every element is related to its successor. *)
Lemma Sorted_consecutive (l : list A) (i : nat) (a b : A) :
  Sorted R l → l !! i = Some a → l !! S i = Some b → R a b.
Proof.
  intros Hs. revert i. induction Hs as [|x l Hs IH Hhd]; intros i Ha Hb.
  - discriminate.
  - destruct i as [|i]; simpl in *.
    + injection Ha as <-. destruct Hhd as [|y l' Hxy]; [discriminate|].
      simpl in Hb. injection Hb as <-. exact Hxy.
    + eapply IH; eauto.
Qed.

End SortedFacts.

Section UniqueOrder.
Context {A : Type} (key : A → string).

(** Two orderings of the same elements by pairwise different keys are
    the same list. *)
Lemma sorted_by_key_unique (l1 l2 : list A) :
  NoDup (key <$> l1) →
  l1 ≡ₚ l2 →
  Sorted (λ a b, gostring.lt (key b) (key a) = false) l1 →
  Sorted (λ a b, gostring.lt (key b) (key a) = false) l2 →
  l1 = l2.
Proof.
  intros Hnd Hp H1 H2.
  assert (Htr : Transitive (λ a b : A, gostring.lt (key b) (key a) = false)).
  { intros a b c Hab Hbc. exact (lt_negtrans _ _ _ Hbc Hab). }
  apply (Sorted_unique_strong (λ a b, gostring.lt (key b) (key a) = false));
    try assumption.
  intros x1 x2 Hx1 Hx2 Hx12 Hx21.
  apply not_lt_le in Hx12, Hx21.
  pose proof (le_antisym _ _ Hx12 Hx21) as Hk.
  rewrite <- Hp in Hx2.
  clear - Hnd Hx1 Hx2 Hk.
  induction l1 as [|y l1 IH]; [inversion Hx1|].
  rewrite fmap_cons in Hnd. apply NoDup_cons in Hnd as [Hy Hnd].
  apply elem_of_cons in Hx1 as [->|Hx1], Hx2 as [->|Hx2]; try reflexivity.
  - exfalso. apply Hy. rewrite Hk. apply list_elem_of_fmap. eauto.
  - exfalso. apply Hy. rewrite <- Hk. apply list_elem_of_fmap. eauto.
  - auto.
Qed.

End UniqueOrder.

(* ===================================================================== *)
(** * The Timestamp Normalizer                                            *)
(* ===================================================================== *)

Section NormalizerFacts.
Import time.

Lemma absClock_range a :
  0 <= fst (fst (absClock a)) < 24
  ∧ 0 <= snd (fst (absClock a)) < 60
  ∧ 0 <= snd (absClock a) < 60.
Proof.
  unfold absClock, secondsPerDay, secondsPerHour, secondsPerMinute.
  cbn [fst snd]. dlia.
Qed.

(** The clock of an absolute time that is a whole number of hours away
    from a time with the minute [mi] and no seconds. *)
Lemma absClock_minute a k mi :
  0 <= mi < 60 → a = 3600 * k + 60 * mi →
  snd (fst (absClock a)) = mi ∧ snd (absClock a) = 0.
Proof.
  intros Hmi ->.
  unfold absClock, secondsPerDay, secondsPerHour, secondsPerMinute.
  cbn [fst snd]. dlia.
Qed.

Lemma wallSeconds_clock y m d h mi s :
  0 <= h < 24 → 0 <= mi < 60 → 0 <= s < 60 →
  ∃ days, wallSeconds y m d h mi s
          = 86400 * days + (h * 3600 + mi * 60 + s).
Proof.
  intros Hh Hmi Hs. unfold wallSeconds.
  destruct (norm y (m - 1) 12) as [y' m'].
  rewrite (norm_id mi s 60) by lia.
  rewrite (norm_id h mi 60) by lia.
  rewrite (norm_id d h 24) by lia.
  unfold secondsPerDay, secondsPerHour, secondsPerMinute,
    absoluteToInternal, internalToUnix.
  match goal with
  | |- context [?D * 86400] => exists (D - 106751991073094); lia
  end.
Qed.

Lemma lookupFrom_wholeHour tx : ∀ off start sec,
  off mod 3600 = 0 → Forall (λ tr : Z * Z, snd tr mod 3600 = 0) tx →
  fst (fst (lookupFrom off start tx sec)) mod 3600 = 0.
Proof.
  induction tx as [|[when off'] tx IH]; intros off start sec Hoff Htx;
    cbn [lookupFrom].
  - exact Hoff.
  - apply Forall_cons in Htx as [H1 H2].
    destruct (sec <? when); [exact Hoff | apply IH; assumption].
Qed.

Lemma offsetAt_wholeHour loc sec :
  wholeHourOffsets loc → offsetAt loc sec mod 3600 = 0.
Proof.
  intros [H1 H2]. unfold offsetAt, lookup. apply lookupFrom_wholeHour; assumption.
Qed.

(** [Date] takes one of the offsets of the location off the wall clock. *)
Lemma Date_wholeHour y m d h mi s loc :
  wholeHourOffsets loc →
  ∃ o, o mod 3600 = 0
       ∧ Date y m d h mi s loc = mkTime (wallSeconds y m d h mi s - o) loc.
Proof.
  intros Hloc. unfold Date.
  pose proof (offsetAt_wholeHour loc (wallSeconds y m d h mi s) Hloc) as H1.
  unfold offsetAt in H1.
  destruct (lookup loc (wallSeconds y m d h mi s)) as [[offset start] end_].
  cbn [fst] in H1.
  destruct (Z.eqb_spec offset 0) as [->|Hne].
  - exists 0. split; [reflexivity | f_equal; lia].
  - destruct ((wallSeconds y m d h mi s - offset <? start)
              || (wallSeconds y m d h mi s - offset >=? end_)).
    + eexists. split; [|reflexivity]. apply offsetAt_wholeHour. exact Hloc.
    + exists offset. split; [exact H1 | reflexivity].
Qed.

(** In a zone of whole-hour offsets the time rebuilt by [Date] shows
    the minute and the second it was built with. *)
Lemma Date_minute_second y m d h mi loc :
  wholeHourOffsets loc → 0 <= h < 24 → 0 <= mi < 60 →
  Minute (Date y m d h mi 0 loc) = mi ∧ Second (Date y m d h mi 0 loc) = 0.
Proof.
  intros Hloc Hh Hmi.
  destruct (Date_wholeHour y m d h mi 0 loc Hloc) as (o & Ho & ->).
  destruct (wallSeconds_clock y m d h mi 0 Hh Hmi ltac:(lia)) as (days & ->).
  unfold Minute, Second, abs. cbn [unixSec location].
  pose proof (offsetAt_wholeHour loc (86400 * days + (h * 3600 + mi * 60 + 0) - o) Hloc)
    as Ho'.
  set (o' := offsetAt loc _) in *.
  apply (absClock_minute _
           (24 * days + h - o / 3600 + o' / 3600 + 2562047785754256));
    [exact Hmi|].
  unfold unixToInternal, internalToAbsolute. dlia.
Qed.

Lemma quot2_even n : 0 <= n → Z.quot n 2 * 2 = 2 * (n / 2).
Proof. intros H. rewrite Z.quot_div_nonneg by lia. lia. Qed.

Lemma Minute_range t : 0 <= Minute t < 60.
Proof. unfold Minute. apply absClock_range. Qed.







End NormalizerFacts.

(* ===================================================================== *)
(** * The Row Parser and the Aggregator                                   *)
(* ===================================================================== *)

Section RowParserFacts.

Lemma guard_hasColumns c (record : list string) :
  (gostring.len_list record
   <=? max2 (max2 (timestampIdx c) (locationNameIdx c))
            (max2 (userCountIdx c) (statusIdx c)))
  = negb (hasColumns c record).
Proof.
  unfold hasColumns, max2. apply eq_true_iff_eq.
  rewrite negb_true_iff, !andb_false_iff, !Z.ltb_ge, Z.leb_le.
  destruct (Z.gtb_spec (timestampIdx c) (locationNameIdx c));
    destruct (Z.gtb_spec (userCountIdx c) (statusIdx c));
    match goal with
    | |- context [Z.gtb ?a ?b] => destruct (Z.gtb_spec a b)
    end; lia.
Qed.

(** The body of the row loop appends the point of a usable row and
    skips any other row. *)
Lemma processRecord_rowPoint w c m read :
  processRecord w c m read =
  match rowPoint w c read with
  | Some lp => appendPoint m lp
  | None => m
  end.
Proof.
  unfold processRecord, rowPoint. destruct read as [record|]; [|reflexivity].
  rewrite guard_hasColumns.
  destruct (hasColumns c record); cbn [negb andb]; [|reflexivity].
  destruct (String.eqb _ "success"); cbn [negb]; [|reflexivity].
  destruct (time.Parse _ _) as [t|]; [|reflexivity].
  destruct (strconv.Atoi _) as [n|]; [|reflexivity].
  unfold appendPoint, isoTimestamp. cbn [fst snd]. reflexivity.
Qed.

Lemma processRecords_points w c rows : ∀ m,
  foldl (processRecord w c) m rows
  = foldl appendPoint m (omap (rowPoint w c) rows).
Proof.
  induction rows as [|read rows IH]; intros m; simpl; [reflexivity|].
  rewrite IH, processRecord_rowPoint.
  destruct (rowPoint w c read); reflexivity.
Qed.

(** A column index is left at [-1] exactly when its name is not in the
    header. *)
Lemma findColumns_absent headers : ∀ i c,
  0 <= i →
  let c' := findColumns headers i c in
  (timestampIdx c' = -1 ↔ timestampIdx c = -1 ∧ ¬ List.In "timestamp" headers)
  ∧ (locationNameIdx c' = -1
     ↔ locationNameIdx c = -1 ∧ ¬ List.In "location_name" headers)
  ∧ (userCountIdx c' = -1 ↔ userCountIdx c = -1 ∧ ¬ List.In "user_count" headers)
  ∧ (statusIdx c' = -1 ↔ statusIdx c = -1 ∧ ¬ List.In "status" headers).
Proof.
  induction headers as [|header headers IH]; intros i c Hi; cbn zeta.
  - simpl. tauto.
  - cbn [findColumns].
    destruct (String.eqb_spec header "timestamp") as [->|N1];
      [|destruct (String.eqb_spec header "location_name") as [->|N2];
        [|destruct (String.eqb_spec header "user_count") as [->|N3];
          [|destruct (String.eqb_spec header "status") as [->|N4]]]];
      match goal with
      | |- context [findColumns headers (i + 1) ?c0] =>
          specialize (IH (i + 1) c0 ltac:(lia)); cbn zeta in IH;
          destruct IH as (IH1 & IH2 & IH3 & IH4)
      end;
      rewrite IH1, IH2, IH3, IH4; simpl;
      repeat split; intros; intuition (try congruence; try lia).
Qed.

Lemma headerColumns_missing headers :
  let c := headerColumns headers in
  ((timestampIdx c =? -1) || (locationNameIdx c =? -1)
   || (userCountIdx c =? -1) || (statusIdx c =? -1)) = true
  ↔ ¬ (List.In "timestamp" headers ∧ List.In "location_name" headers
       ∧ List.In "user_count" headers ∧ List.In "status" headers).
Proof.
  cbn zeta. unfold headerColumns.
  destruct (findColumns_absent headers 0 (mkColumns (-1) (-1) (-1) (-1)) ltac:(lia))
    as (H1 & H2 & H3 & H4). cbn zeta in *. simpl in H1, H2, H3, H4.
  rewrite !orb_true_iff, !Z.eqb_eq, H1, H2, H3, H4.
  destruct (in_dec string_dec "timestamp" headers),
           (in_dec string_dec "location_name" headers),
           (in_dec string_dec "user_count" headers),
           (in_dec string_dec "status" headers); tauto.
Qed.

(** [processCSVFile] either fails, leaving the map as it was, or folds
    the points of the usable rows into the map. *)
Lemma processCSVFile_spec w csvFile m :
  (fileFails w csvFile ∧ ∃ e, processCSVFile w csvFile m = (m, Some e))
  ∨ (¬ fileFails w csvFile
     ∧ processCSVFile w csvFile m
       = (foldl appendPoint m (filePoints w csvFile), None)).
Proof.
  unfold fileFails, processCSVFile, filePoints.
  destruct (openCSV w csvFile) as [[|[headers|] rows]|]; eauto.
  fold (headerColumns headers).
  pose proof (headerColumns_missing headers) as Hm. cbn zeta in Hm.
  destruct ((timestampIdx (headerColumns headers) =? -1) || _ || _ || _).
  - left. split; [apply Hm; reflexivity | eauto].
  - right. split.
    + intros Hf. apply Hm in Hf. discriminate.
    + rewrite processRecords_points. reflexivity.
Qed.

Lemma foldl_appendPoint_app m (l1 l2 : list (string * DataPoint)) :
  foldl appendPoint m (l1 ++ l2) = foldl appendPoint (foldl appendPoint m l1) l2.
Proof. apply foldl_app. Qed.

(** The loop over the files: the first failing file ends it with its
    error; without failing file the map holds all usable points. *)
Lemma processFiles_spec w csvFiles : ∀ m,
  (∃ csvFile e m',
      List.In csvFile csvFiles ∧ fileFails w csvFile
      ∧ processFiles w csvFiles m = (m', Some (errProcess csvFile e)))
  ∨ ((∀ csvFile, List.In csvFile csvFiles → ¬ fileFails w csvFile)
     ∧ processFiles w csvFiles m
       = (foldl appendPoint m (allPoints w csvFiles), None)).
Proof.
  induction csvFiles as [|f files IH]; intros m.
  - right. split; [intros ? []|reflexivity].
  - cbn [processFiles].
    destruct (processCSVFile_spec w f m) as [[Hf [e ->]] | [Hf ->]].
    + left. exists f, e, m. repeat split; auto. left. reflexivity.
    + destruct (IH (foldl appendPoint m (filePoints w f)))
        as [(f' & e & m' & Hin & Hf' & ->) | [Hall ->]].
      * left. exists f', e, m'. repeat split; auto. right. exact Hin.
      * right. split.
        -- intros f' [<-|Hin]; auto.
        -- unfold allPoints. simpl. rewrite foldl_appendPoint_app. reflexivity.
Qed.

End RowParserFacts.

Section AccumulatorFacts.

Lemma pointsAt_app L (l1 l2 : list (string * DataPoint)) :
  pointsAt L (l1 ++ l2) = (pointsAt L l1 ++ pointsAt L l2)%list.
Proof. unfold pointsAt. apply omap_app. Qed.

Lemma pointsAt_cons L l p (points : list (string * DataPoint)) :
  pointsAt L ((l, p) :: points)
  = if decide (l = L) then p :: pointsAt L points else pointsAt L points.
Proof. unfold pointsAt. cbn [omap list_omap fst snd]. destruct (decide (l = L)); reflexivity. Qed.

Lemma lookup_appendPoint_same (m : gmap string (list DataPoint)) l p :
  appendPoint m (l, p) !! l = Some (default [] (m !! l) ++ [p])%list.
Proof. unfold appendPoint. cbn [fst snd]. apply lookup_insert_eq. Qed.

Lemma lookup_appendPoint_other (m : gmap string (list DataPoint)) l p L :
  l ≠ L → appendPoint m (l, p) !! L = m !! L.
Proof. intros H. unfold appendPoint. cbn [fst snd]. apply lookup_insert_ne. exact H. Qed.

(** What the accumulator holds for a location after a run of points. *)
Lemma lookup_foldl_appendPoint L (points : list (string * DataPoint)) :
  ∀ m : gmap string (list DataPoint),
  foldl appendPoint m points !! L =
  match pointsAt L points with
  | [] => m !! L
  | ps => Some (default [] (m !! L) ++ ps)%list
  end.
Proof.
  induction points as [|[l p] points IH]; intros m; [reflexivity|].
  cbn [foldl]. rewrite IH, pointsAt_cons.
  destruct (decide (l = L)) as [->|Hne].
  - rewrite lookup_appendPoint_same. cbn [default].
    destruct (pointsAt L points) as [|q qs].
    + reflexivity.
    + unfold id. rewrite <- app_assoc. reflexivity.
  - rewrite lookup_appendPoint_other by assumption. reflexivity.
Qed.

Lemma lookup_allPoints L (points : list (string * DataPoint)) ps :
  foldl appendPoint ∅ points !! L = Some ps →
  ps = pointsAt L points ∧ ps ≠ [].
Proof.
  rewrite lookup_foldl_appendPoint, lookup_empty.
  destruct (pointsAt L points) as [|q qs]; [discriminate|].
  intros [= <-]. split; [reflexivity | discriminate].
Qed.

Lemma mapPoints_appendPoint (m : gmap string (list DataPoint)) lp :
  mapPoints (appendPoint m lp) ≡ₚ (mapPoints m ++ [lp])%list.
Proof.
  destruct lp as [l p]. unfold mapPoints, appendPoint. cbn [fst snd].
  destruct (m !! l) as [ps|] eqn:E.
  - assert (Hm : map_to_list m ≡ₚ (l, ps) :: map_to_list (delete l m)).
    { rewrite <- map_to_list_insert by apply lookup_delete_eq.
      rewrite insert_delete_eq, insert_id by assumption. reflexivity. }
    rewrite <- (insert_delete_eq m l (default [] (Some ps) ++ [p])%list).
    rewrite map_to_list_insert by apply lookup_delete_eq.
    rewrite Hm, !bind_cons. cbn [fst snd default from_option]. unfold id.
    rewrite fmap_app, <- !app_assoc.
    apply Permutation_app_head. cbn [fmap list_fmap].
    apply Permutation_app_comm.
  - rewrite map_to_list_insert by assumption.
    rewrite bind_cons. cbn [fst snd default from_option fmap list_fmap app].
    apply Permutation_cons_append.
Qed.

Lemma mapPoints_foldl (points : list (string * DataPoint)) :
  ∀ m : gmap string (list DataPoint),
  mapPoints (foldl appendPoint m points) ≡ₚ (mapPoints m ++ points)%list.
Proof.
  induction points as [|lp points IH]; intros m; cbn [foldl].
  - rewrite app_nil_r. reflexivity.
  - rewrite IH, mapPoints_appendPoint, <- app_assoc. reflexivity.
Qed.

Lemma mapPoints_empty : mapPoints ∅ = [].
Proof. unfold mapPoints. rewrite map_to_list_empty. reflexivity. Qed.

Lemma bind_Permutation_pointwise {A B} (f g : A → list B) (l : list A) :
  (∀ x, f x ≡ₚ g x) → l ≫= f ≡ₚ l ≫= g.
Proof.
  intros H. induction l as [|x l IH]; [reflexivity|].
  rewrite !bind_cons, (H x), IH. reflexivity.
Qed.

Lemma datasets_foldl (rt : Runtime) entries : ∀ acc,
  foldl (λ (datasets : list Dataset) '(locationName, dataPoints),
           (datasets ++ [mkDataset locationName
                           (sortSlice rt _ lessX dataPoints)])%list)
        acc entries
  = (acc ++ (entryDataset rt <$> entries))%list.
Proof.
  induction entries as [|[l ps] entries IH]; intros acc; cbn [foldl].
  - rewrite app_nil_r. reflexivity.
  - rewrite IH, <- app_assoc. reflexivity.
Qed.

(** [convertCSVFilesToJSON], its two loops read as maps. *)
Lemma convertCSVFilesToJSON_unfold (rt : Runtime) w csvFiles :
  convertCSVFilesToJSON rt w csvFiles =
  match processFiles w csvFiles ∅ with
  | (_, Some err) => ([], Some err)
  | (m, None) =>
      (sortSlice rt _ lessLabel (entryDataset rt <$> rangeMap rt (map_to_list m)),
       None)
  end.
Proof.
  unfold convertCSVFilesToJSON.
  destruct (processFiles w csvFiles ∅) as [m [e|]]; [reflexivity|].
  rewrite datasets_foldl. reflexivity.
Qed.

(** A successful conversion: no file failed and the output is the
    sorted list of the Datasets of the accumulated map. *)
Lemma convertCSVFilesToJSON_ok (rt : Runtime) w csvFiles datasets :
  convertCSVFilesToJSON rt w csvFiles = (datasets, None) →
  (∀ csvFile, List.In csvFile csvFiles → ¬ fileFails w csvFile)
  ∧ datasets
    = sortSlice rt _ lessLabel
        (entryDataset rt
           <$> rangeMap rt
                 (map_to_list (foldl appendPoint ∅ (allPoints w csvFiles)))).
Proof.
  rewrite convertCSVFilesToJSON_unfold.
  destruct (processFiles_spec w csvFiles ∅)
    as [(f & e & m' & Hin & Hf & ->) | [Hall ->]]; [discriminate|].
  intros [= <-]. split; [exact Hall | reflexivity].
Qed.

Lemma output_Permutation (rt : LawfulRuntime) (m : gmap string (list DataPoint)) :
  sortSlice rt _ lessLabel (entryDataset rt <$> rangeMap rt (map_to_list m))
  ≡ₚ entryDataset rt <$> map_to_list m.
Proof. rewrite sortSlice_perm, rangeMap_perm. reflexivity. Qed.

Lemma output_labels (rt : LawfulRuntime) (m : gmap string (list DataPoint)) :
  NoDup (Label <$> sortSlice rt _ lessLabel
                     (entryDataset rt <$> rangeMap rt (map_to_list m))).
Proof.
  rewrite output_Permutation, <- list_fmap_compose.
  apply (NoDup_fst_map_to_list m).
Qed.

End AccumulatorFacts.

(* ===================================================================== *)
(** * Facts about sort                                                    *)
(* ===================================================================== *)

Section SwapFacts.
Context {A : Type} (less : A → A → bool).
Import sort.

Lemma gtb_true (a b : Z) : b < a → (a >? b) = true.
Proof. intros H. rewrite Z.gtb_ltb. apply Z.ltb_lt. exact H. Qed.

Lemma gtb_false (a b : Z) : a <= b → (a >? b) = false.
Proof. intros H. rewrite Z.gtb_ltb. apply Z.ltb_ge. exact H. Qed.

Lemma at_nat (data : list A) (k : nat) : at_ data (Z.of_nat k) = data !! k.
Proof.
  unfold at_. destruct (Z.ltb_spec (Z.of_nat k) 0); [lia|].
  rewrite Nat2Z.id. reflexivity.
Qed.

Lemma at_middle (pre post : list A) (x : A) :
  at_ (pre ++ x :: post) (gostring.len_list pre) = Some x.
Proof.
  unfold gostring.len_list. rewrite at_nat. apply list_lookup_middle. reflexivity.
Qed.

(** Two neighbours change places. *)
Lemma Swap_adjacent (pre post : list A) (y x : A) :
  Swap (pre ++ y :: x :: post)
       (gostring.len_list pre + 1) (gostring.len_list pre)
  = (pre ++ x :: y :: post)%list.
Proof.
  unfold Swap.
  replace (gostring.len_list pre + 1) with (gostring.len_list (pre ++ [y]))
    by (unfold gostring.len_list; rewrite length_app; simpl; lia).
  rewrite (at_middle pre (x :: post) y).
  replace (pre ++ y :: x :: post)%list with ((pre ++ [y]) ++ x :: post)%list
    by (rewrite <- app_assoc; reflexivity).
  rewrite (at_middle (pre ++ [y]) post x).
  unfold gostring.len_list. rewrite !Nat2Z.id.
  rewrite <- app_assoc. cbn [app].
  rewrite length_app. cbn [length].
  replace (length pre + 1)%nat with (length pre + 1)%nat by reflexivity.
  rewrite (insert_app_r_alt pre) by lia.
  replace (length pre + 1 - length pre)%nat with 1%nat by lia.
  cbn [list_insert insert].
  rewrite (insert_app_r_alt pre) by lia.
  replace (length pre - length pre)%nat with 0%nat by lia.
  reflexivity.
Qed.

Lemma Less_adjacent (pre post : list A) (y x : A) :
  Less less (pre ++ y :: x :: post)
       (gostring.len_list pre + 1) (gostring.len_list pre)
  = less x y.
Proof.
  unfold Less.
  rewrite (at_middle pre (x :: post) y).
  replace (gostring.len_list pre + 1) with (gostring.len_list (pre ++ [y]))
    by (unfold gostring.len_list; rewrite length_app; simpl; lia).
  replace (pre ++ y :: x :: post)%list with ((pre ++ [y]) ++ x :: post)%list
    by (rewrite <- app_assoc; reflexivity).
  rewrite (at_middle (pre ++ [y]) post x). reflexivity.
Qed.

(** The inner loop of the insertion sort inserts the element at [j]
    into the run before it. *)
Lemma insertionInner_spec (r : list A) : ∀ (n : nat) (pre post : list A) (x : A),
  (length r <= n)%nat →
  insertionInner less n (pre ++ rev r ++ x :: post)
    (gostring.len_list pre) (gostring.len_list pre + gostring.len_list r)
  = (pre ++ rev (insertRev less x r) ++ post)%list.
Proof.
  induction r as [|y r IH]; intros n pre post x Hn.
  - cbn [rev app insertRev]. destruct n as [|n]; [reflexivity|].
    cbn [insertionInner].
    rewrite gtb_false by (unfold gostring.len_list; simpl; lia).
    reflexivity.
  - destruct n as [|n]; [simpl in Hn; lia|].
    cbn [insertionInner rev insertRev].
    assert (Ej : gostring.len_list pre + gostring.len_list (y :: r)
                 = gostring.len_list (pre ++ rev r) + 1).
    { unfold gostring.len_list. rewrite length_app, length_rev. simpl. lia. }
    assert (Ed : (pre ++ (rev r ++ [y]) ++ x :: post)%list
                 = ((pre ++ rev r) ++ y :: x :: post)%list).
    { rewrite <- !app_assoc. reflexivity. }
    rewrite Ej, Ed.
    rewrite gtb_true by (unfold gostring.len_list; rewrite length_app; lia).
    replace (gostring.len_list (pre ++ rev r) + 1 - 1)
      with (gostring.len_list (pre ++ rev r)) by lia.
    rewrite Less_adjacent. cbn [andb].
    destruct (less x y).
    + rewrite Swap_adjacent.
      replace ((pre ++ rev r) ++ x :: y :: post)%list
        with (pre ++ rev r ++ x :: (y :: post))%list
        by (rewrite <- app_assoc; reflexivity).
      replace (gostring.len_list (pre ++ rev r))
        with (gostring.len_list pre + gostring.len_list r)
        by (unfold gostring.len_list; rewrite length_app, length_rev; lia).
      rewrite IH by (simpl in Hn; lia).
      cbn [rev]. rewrite <- !app_assoc. reflexivity.
    + cbn [rev]. rewrite <- !app_assoc. reflexivity.
Qed.

Lemma insertionInner_insertBack (n : nat) (pre l post : list A) (x : A) :
  (length l <= n)%nat →
  insertionInner less n (pre ++ l ++ x :: post)
    (gostring.len_list pre) (gostring.len_list pre + gostring.len_list l)
  = (pre ++ insertBack less l x ++ post)%list.
Proof.
  intros Hn. unfold insertBack.
  rewrite <- (rev_involutive l) at 1.
  replace (gostring.len_list l) with (gostring.len_list (rev l))
    by (unfold gostring.len_list; rewrite length_rev; reflexivity).
  apply insertionInner_spec. rewrite length_rev. exact Hn.
Qed.

Lemma length_insertRev (x : A) (r : list A) :
  length (insertRev less x r) = S (length r).
Proof.
  induction r as [|y r IH]; [reflexivity|]. cbn [insertRev].
  destruct (less x y); simpl; [rewrite IH|]; reflexivity.
Qed.

Lemma length_insertBack (l : list A) (x : A) :
  length (insertBack less l x) = S (length l).
Proof. unfold insertBack. rewrite length_rev, length_insertRev, length_rev. reflexivity. Qed.

(** The outer loop inserts the elements of [todo] one after the other
    into the sorted run [done]. *)
Lemma insertionOuter_spec (todo : list A) : ∀ (pre done post : list A),
  insertionOuter less (length todo) (pre ++ done ++ todo ++ post)
    (gostring.len_list pre) (gostring.len_list pre + gostring.len_list done)
  = (pre ++ foldl (insertBack less) done todo ++ post)%list.
Proof.
  induction todo as [|x todo IH]; intros pre done post.
  - reflexivity.
  - cbn [length insertionOuter foldl app].
    replace (Z.to_nat (gostring.len_list pre + gostring.len_list done
                       - gostring.len_list pre))
      with (length done) by (unfold gostring.len_list; lia).
    rewrite (insertionInner_insertBack (length done) pre done (todo ++ post) x)
      by lia.
    replace (gostring.len_list pre + gostring.len_list done + 1)
      with (gostring.len_list pre + gostring.len_list (insertBack less done x))
      by (unfold gostring.len_list; rewrite length_insertBack; lia).
    apply IH.
Qed.

(** [insertionSort_func] sorts the range [[a, b)] by insertion and
    leaves the rest of the slice alone. *)
Lemma insertionSort_func_spec (pre mid post : list A) :
  insertionSort_func less (pre ++ mid ++ post)
    (gostring.len_list pre) (gostring.len_list pre + gostring.len_list mid)
  = (pre ++ isort less mid ++ post)%list.
Proof.
  unfold insertionSort_func, isort. destruct mid as [|x todo].
  - replace (Z.to_nat _) with 0%nat by (unfold gostring.len_list; simpl; lia).
    reflexivity.
  - replace (Z.to_nat _) with (length todo)
      by (unfold gostring.len_list; simpl; lia).
    cbn [foldl]. change (insertBack less [] x) with [x].
    replace (gostring.len_list pre + 1)
      with (gostring.len_list pre + gostring.len_list [x])
      by reflexivity.
    apply (insertionOuter_spec todo pre [x] post).
Qed.

Lemma insertionSort_func_whole (l : list A) :
  insertionSort_func less l 0 (gostring.len_list l) = isort less l.
Proof.
  pose proof (insertionSort_func_spec [] l []) as H.
  cbn [app] in H. rewrite !app_nil_r in H. exact H.
Qed.

End SwapFacts.

Section InsertionSortFacts.
Context {A : Type} (less : A → A → bool).

Lemma insertRev_Permutation (x : A) (r : list A) : insertRev less x r ≡ₚ x :: r.
Proof.
  induction r as [|y r IH]; [reflexivity|]. cbn [insertRev].
  destruct (less x y); [|reflexivity].
  rewrite IH. apply Permutation_swap.
Qed.

Lemma insertBack_Permutation (l : list A) (x : A) :
  insertBack less l x ≡ₚ (l ++ [x])%list.
Proof.
  unfold insertBack.
  rewrite <- Permutation_rev, insertRev_Permutation, <- Permutation_rev.
  apply Permutation_cons_append.
Qed.

Lemma foldl_insertBack_Permutation (l : list A) : ∀ acc,
  foldl (insertBack less) acc l ≡ₚ (acc ++ l)%list.
Proof.
  induction l as [|x l IH]; intros acc; cbn [foldl].
  - rewrite app_nil_r. reflexivity.
  - rewrite IH, insertBack_Permutation, <- app_assoc. reflexivity.
Qed.

Lemma isort_Permutation (l : list A) : isort less l ≡ₚ l.
Proof. unfold isort. rewrite foldl_insertBack_Permutation. reflexivity. Qed.

Lemma swo_asym :
  StrictWeakOrder less → ∀ x y, less x y = true → less y x = false.
Proof.
  intros [Hirr Htr _] x y Hxy.
  destruct (less y x) eqn:Hyx; [|reflexivity].
  rewrite <- (Hirr x). symmetry. exact (Htr x y x Hxy Hyx).
Qed.

Lemma Sorted_rev (R : A → A → Prop) (l : list A) :
  Sorted R l → Sorted (flip R) (rev l).
Proof.
  intros H. rewrite rev_alt. apply (Sorted_reverse R l H).
Qed.

Lemma HdRel_insertRev (P : A → A → Prop) (y x : A) (r : list A) :
  P y x → HdRel P y r → HdRel P y (insertRev less x r).
Proof.
  intros Hx Hr. destruct r as [|z r]; cbn [insertRev].
  - constructor. exact Hx.
  - destruct (less x z); constructor; [|exact Hx].
    inversion Hr; assumption.
Qed.

Lemma insertRev_Sorted (x : A) (r : list A) :
  StrictWeakOrder less →
  Sorted (λ a b, less a b = false) r →
  Sorted (λ a b, less a b = false) (insertRev less x r).
Proof.
  intros Hswo Hs. induction Hs as [|y r Hs IH Hhd]; cbn [insertRev].
  - repeat constructor.
  - destruct (less x y) eqn:Hxy.
    + constructor; [exact IH|].
      apply HdRel_insertRev; [|exact Hhd].
      apply (swo_asym Hswo). exact Hxy.
    + constructor; [constructor; assumption|].
      constructor. exact Hxy.
Qed.

Lemma insertBack_Sorted (l : list A) (x : A) :
  StrictWeakOrder less →
  Sorted (λ a b, less b a = false) l →
  Sorted (λ a b, less b a = false) (insertBack less l x).
Proof.
  intros Hswo Hs. unfold insertBack.
  apply (Sorted_rev (λ a b, less a b = false)).
  apply insertRev_Sorted; [exact Hswo|].
  apply (Sorted_rev (λ a b, less b a = false)). exact Hs.
Qed.

Lemma isort_Sorted (l : list A) :
  StrictWeakOrder less → Sorted (λ a b, less b a = false) (isort less l).
Proof.
  intros Hswo. unfold isort.
  assert (H : ∀ acc, Sorted (λ a b, less b a = false) acc →
              Sorted (λ a b, less b a = false) (foldl (insertBack less) acc l)).
  { induction l as [|x l IH]; intros acc Hacc; cbn [foldl]; [exact Hacc|].
    apply IH, insertBack_Sorted; assumption. }
  apply H. constructor.
Qed.

(** The insertion keeps the order of equivalent elements. *)
Lemma insertRev_equivalents (x0 x : A) (r : list A) :
  StrictWeakOrder less →
  equivalents less x0 (insertRev less x r) = equivalents less x0 (x :: r).
Proof.
  intros Hswo. induction r as [|y r IH]; [reflexivity|]. cbn [insertRev].
  destruct (less x y) eqn:Hxy; [|reflexivity].
  unfold equivalents in *. cbn [List.filter] in *. rewrite IH.
  destruct (negb (less x0 x) && negb (less x x0)) eqn:Ex;
    destruct (negb (less x0 y) && negb (less y x0)) eqn:Ey; try reflexivity.
  exfalso.
  apply andb_true_iff in Ex as [_ Hx]. apply andb_true_iff in Ey as [Hy _].
  apply negb_true_iff in Hx, Hy.
  rewrite (swo_negtrans less Hswo x x0 y Hx Hy) in Hxy. discriminate.
Qed.

Lemma insertBack_equivalents (x0 : A) (l : list A) (x : A) :
  StrictWeakOrder less →
  equivalents less x0 (insertBack less l x) = equivalents less x0 (l ++ [x]).
Proof.
  intros Hswo. unfold insertBack, equivalents.
  rewrite List.filter_rev.
  pose proof (insertRev_equivalents x0 x (rev l) Hswo) as H.
  unfold equivalents in H. rewrite H.
  rewrite <- List.filter_rev. cbn [rev]. rewrite rev_involutive. reflexivity.
Qed.

(** Insertion sort is stable. *)
Lemma isort_stable (x0 : A) (l : list A) :
  StrictWeakOrder less →
  equivalents less x0 (isort less l) = equivalents less x0 l.
Proof.
  intros Hswo. unfold isort.
  assert (H : ∀ acc, equivalents less x0 (foldl (insertBack less) acc l)
                     = equivalents less x0 (acc ++ l)).
  { induction l as [|x l IH]; intros acc; cbn [foldl].
    - rewrite app_nil_r. reflexivity.
    - rewrite IH. unfold equivalents at 1 2. rewrite !List.filter_app.
      fold (equivalents less x0 (insertBack less acc x)).
      rewrite insertBack_equivalents by assumption.
      unfold equivalents.
      change (x :: l) with ([x] ++ l)%list.
      rewrite !List.filter_app, <- app_assoc. reflexivity. }
  apply H.
Qed.

End InsertionSortFacts.

(* ===================================================================== *)
(** * Runtimes that keep the contract                                     *)
(* ===================================================================== *)

Section Runtimes.

Lemma insertionSlice_isort (A : Type) (less : A → A → bool) (x : list A) :
  insertionSlice A less x = isort less x.
Proof. apply insertionSort_func_whole. Qed.

Lemma insertionSlice_perm (A : Type) (less : A → A → bool) (x : list A) :
  insertionSlice A less x ≡ₚ x.
Proof. rewrite insertionSlice_isort. apply isort_Permutation. Qed.

Lemma insertionSlice_sorted (A : Type) (less : A → A → bool) (x : list A) :
  StrictWeakOrder less →
  Sorted (λ a b, less b a = false) (insertionSlice A less x).
Proof. intros H. rewrite insertionSlice_isort. apply isort_Sorted. exact H. Qed.

Lemma reverse_perm (entries : list (string * list DataPoint)) :
  reverse entries ≡ₚ entries.
Proof. apply reverse_Permutation. Qed.

(** On a slice of at most twelve elements [sort.Slice] is the insertion
    sort. *)
Lemma pdqSlice_short (A : Type) (less : A → A → bool) (x : list A) :
  (length x <= 12)%nat → pdqSlice A less x = insertionSlice A less x.
Proof.
  intros H. unfold pdqSlice, insertionSlice, sort.Slice, sort.pdqsort_func.
  cbn [sort.pdqsortLoop]. unfold sort.maxInsertion.
  replace (gostring.len_list x - 0 <=? 12) with true
    by (symmetry; apply Z.leb_le; unfold gostring.len_list; lia).
  reflexivity.
Qed.

End Runtimes.

(* ===================================================================== *)
(** * Slices, ranges and swaps                                            *)
(* ===================================================================== *)

Section RangeFacts.
Context {A : Type}.
Import sort.
Local Abbreviation len := gostring.len_list.

Lemma at_Z (d : list A) i : 0 <= i → at_ d i = d !! Z.to_nat i.
Proof. intros Hi. unfold at_. destruct (Z.ltb_spec i 0); [lia|reflexivity]. Qed.

Lemma at_Some (d : list A) i x : at_ d i = Some x → 0 <= i < len d.
Proof.
  unfold at_, gostring.len_list. destruct (Z.ltb_spec i 0) as [?|Hi]; [discriminate|].
  intros Hx. apply lookup_lt_Some in Hx. lia.
Qed.

Lemma at_inrange (d : list A) i : 0 <= i < len d → ∃ x, at_ d i = Some x.
Proof.
  unfold at_, gostring.len_list. intros Hi.
  destruct (Z.ltb_spec i 0); [lia|].
  apply lookup_lt_is_Some. lia.
Qed.

Lemma at_outside (d : list A) i : ¬ (0 <= i < len d) → at_ d i = None.
Proof.
  intros H. destruct (at_ d i) as [x|] eqn:E; [|reflexivity].
  apply at_Some in E. contradiction.
Qed.

Lemma len_Swap (d : list A) i j : len (Swap d i j) = len d.
Proof.
  unfold Swap, gostring.len_list.
  destruct (at_ d i), (at_ d j); rewrite ?length_insert; reflexivity.
Qed.

Lemma at_Swap (d : list A) i j k :
  0 <= i < len d → 0 <= j < len d →
  at_ (Swap d i j) k
  = if k =? j then at_ d i else if k =? i then at_ d j else at_ d k.
Proof.
  intros Hi Hj. unfold Swap.
  destruct (at_inrange d i Hi) as [x Hx]. destruct (at_inrange d j Hj) as [y Hy].
  rewrite Hx, Hy. unfold at_ in *. unfold gostring.len_list in *.
  destruct (Z.ltb_spec i 0); [lia|]. destruct (Z.ltb_spec j 0); [lia|].
  destruct (Z.eqb_spec k j) as [->|Hkj].
  - destruct (Z.ltb_spec j 0); [lia|].
    rewrite list_lookup_insert_eq; [congruence|]. rewrite length_insert. lia.
  - destruct (Z.ltb_spec k 0) as [Hk|Hk].
    + destruct (Z.eqb_spec k i); [lia | reflexivity].
    + rewrite list_lookup_insert_ne by lia.
      destruct (Z.eqb_spec k i) as [->|Hki].
      * rewrite list_lookup_insert_eq by lia. congruence.
      * rewrite list_lookup_insert_ne by lia. reflexivity.
Qed.

Lemma Swap_Permutation (d : list A) i j : Swap d i j ≡ₚ d.
Proof.
  unfold Swap. destruct (at_ d i) as [x|] eqn:Hx; [|reflexivity].
  destruct (at_ d j) as [y|] eqn:Hy; [|reflexivity].
  unfold at_ in *.
  destruct (i <? 0); [discriminate|]. destruct (j <? 0); [discriminate|].
  apply Permutation_insert_swap; assumption.
Qed.

Lemma Less_at (less : A → A → bool) (d : list A) i j x y :
  at_ d i = Some x → at_ d j = Some y → Less less d i j = less x y.
Proof. intros Hx Hy. unfold Less. rewrite Hx, Hy. reflexivity. Qed.

Lemma rangePerm_len a b (d d' : list A) : rangePerm a b d d' → len d' = len d.
Proof.
  intros [Hp _]. unfold gostring.len_list. rewrite (Permutation_length Hp).
  reflexivity.
Qed.

Lemma rangePerm_refl a b (d : list A) : rangePerm a b d d.
Proof. split; [reflexivity | auto]. Qed.

Lemma rangePerm_trans a b (d1 d2 d3 : list A) :
  rangePerm a b d1 d2 → rangePerm a b d2 d3 → rangePerm a b d1 d3.
Proof.
  intros [Hp1 Ho1] [Hp2 Ho2]. split.
  - rewrite Hp2. exact Hp1.
  - intros k Hk. rewrite Ho2, Ho1 by assumption. reflexivity.
Qed.

Lemma rangePerm_widen a b a' b' (d d' : list A) :
  a' <= a → b <= b' → rangePerm a b d d' → rangePerm a' b' d d'.
Proof.
  intros Ha Hb [Hp Ho]. split; [exact Hp|].
  intros k Hk. apply Ho. lia.
Qed.

Lemma Swap_rangePerm a b (d : list A) i j :
  0 <= a → b <= len d → a <= i < b → a <= j < b →
  rangePerm a b d (Swap d i j).
Proof.
  intros Ha Hb Hi Hj. split; [apply Swap_Permutation|].
  intros k Hk. rewrite at_Swap by lia.
  destruct (Z.eqb_spec k j); [lia|]. destruct (Z.eqb_spec k i); [lia|].
  reflexivity.
Qed.

Lemma split_segment a b (d : list A) :
  0 <= a → a <= b → b <= len d →
  d = (take (Z.to_nat a) d ++ segment a b d ++ drop (Z.to_nat b) d)%list.
Proof.
  intros Ha Hab Hb. unfold segment.
  rewrite <- (take_drop (Z.to_nat a) d) at 1. f_equal.
  rewrite <- (take_drop (Z.to_nat (b - a)) (drop (Z.to_nat a) d)) at 1. f_equal.
  rewrite drop_drop. f_equal. lia.
Qed.

Lemma at_segment a b (d : list A) k :
  0 <= a → a <= k < b →
  segment a b d !! Z.to_nat (k - a) = at_ d k.
Proof.
  intros Ha Hk. unfold segment, at_.
  destruct (Z.ltb_spec k 0); [lia|].
  rewrite lookup_take_lt by lia. rewrite lookup_drop. f_equal. lia.
Qed.

Lemma elem_of_segment a b (d : list A) x :
  0 <= a → a <= b → b <= len d →
  x ∈ segment a b d ↔ ∃ k, a <= k < b ∧ at_ d k = Some x.
Proof.
  intros Ha Hab Hb. split.
  - intros Hx. apply list_elem_of_lookup in Hx as [i Hi].
    assert (Hlt : (i < Z.to_nat (b - a))%nat).
    { apply lookup_lt_Some in Hi. unfold segment in Hi.
      rewrite length_take in Hi. lia. }
    exists (a + Z.of_nat i). split; [lia|].
    rewrite <- (at_segment a b) by lia.
    replace (Z.to_nat (a + Z.of_nat i - a)) with i by lia. exact Hi.
  - intros (k & Hk & Hx). rewrite <- (at_segment a b) in Hx by lia.
    apply list_elem_of_lookup. eauto.
Qed.

Lemma rangePerm_segment a b (d d' : list A) :
  0 <= a → a <= b → b <= len d →
  rangePerm a b d d' → segment a b d' ≡ₚ segment a b d.
Proof.
  intros Ha Hab Hb Hr. pose proof (rangePerm_len _ _ _ _ Hr) as Hlen.
  destruct Hr as [Hp Ho].
  assert (Ht : take (Z.to_nat a) d' = take (Z.to_nat a) d).
  { apply list_eq. intros i.
    destruct (decide (i < Z.to_nat a)%nat) as [Hi|Hi].
    - rewrite !lookup_take_lt by lia.
      specialize (Ho (Z.of_nat i) ltac:(lia)). rewrite !at_nat in Ho. exact Ho.
    - rewrite !lookup_take_ge by lia. reflexivity. }
  assert (Hd : drop (Z.to_nat b) d' = drop (Z.to_nat b) d).
  { apply list_eq. intros i. rewrite !lookup_drop.
    specialize (Ho (Z.of_nat (Z.to_nat b + i)) ltac:(lia)).
    rewrite !at_nat in Ho. exact Ho. }
  pose proof (split_segment a b d Ha Hab Hb) as E1.
  pose proof (split_segment a b d' Ha Hab ltac:(lia)) as E2.
  rewrite Ht, Hd in E2.
  assert (Hp' : (take (Z.to_nat a) d ++ segment a b d' ++ drop (Z.to_nat b) d)%list
                ≡ₚ (take (Z.to_nat a) d ++ segment a b d ++ drop (Z.to_nat b) d)%list)
    by (rewrite <- E1, <- E2; exact Hp).
  apply Permutation_app_inv_l in Hp'. apply Permutation_app_inv_r in Hp'.
  exact Hp'.
Qed.

(** A property of all elements of a range survives a rearrangement of
    the range. *)
Lemma rangePerm_allIn a b (d d' : list A) (P : A → Prop) :
  0 <= a → a <= b → b <= len d →
  rangePerm a b d d' → allIn a b d P → allIn a b d' P.
Proof.
  intros Ha Hab Hb Hr HP k x Hk Hx.
  pose proof (rangePerm_len _ _ _ _ Hr) as Hlen.
  assert (Hin : x ∈ segment a b d').
  { apply elem_of_segment; [lia..|]. eauto. }
  rewrite (rangePerm_segment a b d d') in Hin by assumption.
  apply elem_of_segment in Hin as (k' & Hk' & Hx'); [|lia..].
  exact (HP k' x Hk' Hx').
Qed.

(** A rearrangement of a part of the range [[a, b)] leaves a property of
    all its elements in place. *)
Lemma rangePerm_allIn_sub a b a' b' (d d' : list A) (P : A → Prop) :
  0 <= a → a <= a' → a' <= b' → b' <= b → b <= len d →
  rangePerm a' b' d d' → allIn a b d P → allIn a b d' P.
Proof.
  intros Ha Haa Hab Hbb Hb Hr HP.
  apply (rangePerm_allIn a b d d' P); try assumption; try lia.
  apply (rangePerm_widen a' b'); assumption.
Qed.

End RangeFacts.

(* ===================================================================== *)
(** * The helpers of pdqsort keep to their range                          *)
(* ===================================================================== *)

Section SortRangeFacts.
Context {A : Type} (less : A → A → bool).
Import sort.
Local Abbreviation len := gostring.len_list.

Lemma segment_decomp (pre mid post : list A) :
  segment (len pre) (len pre + len mid) (pre ++ mid ++ post) = mid.
Proof.
  unfold segment, gostring.len_list.
  rewrite Nat2Z.id, drop_app_length.
  replace (Z.to_nat _) with (length mid) by lia.
  apply take_app_length.
Qed.

Lemma rangePerm_decomp (pre mid mid' post : list A) :
  mid' ≡ₚ mid →
  rangePerm (len pre) (len pre + len mid)
            (pre ++ mid ++ post) (pre ++ mid' ++ post).
Proof.
  intros Hp. split; [rewrite Hp; reflexivity|].
  intros k Hk. unfold at_. destruct (Z.ltb_spec k 0); [reflexivity|].
  unfold gostring.len_list in Hk.
  pose proof (Permutation_length Hp) as Hl.
  destruct Hk as [Hk|Hk].
  - rewrite !lookup_app_l by lia. reflexivity.
  - rewrite !app_assoc.
    rewrite !(lookup_app_r (_ ++ _)) by (rewrite length_app; lia).
    rewrite !length_app, Hl. reflexivity.
Qed.

Lemma sortedRange_segment a b (d : list A) :
  0 <= a → a <= b → b <= len d →
  Sorted (λ x y, less y x = false) (segment a b d) → sortedRange less a b d.
Proof.
  intros Ha Hab Hb Hs k x y Hk1 Hk2 Hx Hy.
  rewrite <- (at_segment a b) in Hx, Hy by lia.
  replace (Z.to_nat (k + 1 - a)) with (S (Z.to_nat (k - a))) in Hy by lia.
  exact (Sorted_consecutive _ _ _ _ _ Hs Hx Hy).
Qed.

Lemma segment_cons a b (d : list A) x :
  0 <= a → a < b → at_ d a = Some x →
  segment a b d = x :: segment (a + 1) b d.
Proof.
  intros Ha Hab Hx. unfold segment.
  replace (Z.to_nat (b - a)) with (S (Z.to_nat (b - (a + 1)))) by lia.
  rewrite at_Z in Hx by lia.
  rewrite (drop_S d x (Z.to_nat a) Hx). cbn [take].
  do 3 f_equal. lia.
Qed.

Lemma segment_sortedRange a b (d : list A) :
  0 <= a → a <= b → b <= len d →
  sortedRange less a b d → Sorted (λ x y, less y x = false) (segment a b d).
Proof.
  intros Ha Hab Hb Hs.
  assert (H : ∀ (n : nat) m, m = b - Z.of_nat n → a <= m →
            Sorted (λ x y, less y x = false) (segment m b d)).
  { induction n as [|n IH]; intros m Hm Hn.
    - unfold segment. replace (Z.to_nat (b - m)) with 0%nat by lia.
      constructor.
    - destruct (at_inrange d m ltac:(lia)) as [x Hx].
      rewrite (segment_cons m b d x) by (assumption || lia).
      specialize (IH (m + 1) ltac:(lia) ltac:(lia)).
      constructor; [exact IH|].
      destruct n as [|n].
      + unfold segment. replace (Z.to_nat (b - (m + 1))) with 0%nat by lia.
        constructor.
      + destruct (at_inrange d (m + 1) ltac:(lia)) as [y Hy].
        rewrite (segment_cons (m + 1) b d y) by (assumption || lia).
        constructor. apply (Hs m x y); (assumption || lia). }
  apply (H (Z.to_nat (b - a))); lia.
Qed.

Lemma range_decomp a b (d : list A) :
  0 <= a → a <= b → b <= len d →
  ∃ pre mid post,
    d = (pre ++ mid ++ post)%list ∧ len pre = a ∧ len pre + len mid = b.
Proof.
  intros Ha Hab Hb.
  exists (take (Z.to_nat a) d), (segment a b d), (drop (Z.to_nat b) d).
  split; [apply split_segment; assumption|].
  unfold gostring.len_list, segment in *.
  rewrite !length_take, length_drop. lia.
Qed.

(** [insertionSort_func] sorts the range and keeps to it. *)
Lemma insertionSort_func_range (d : list A) a b :
  StrictWeakOrder less → 0 <= a → a <= b → b <= len d →
  rangePerm a b d (insertionSort_func less d a b)
  ∧ sortedRange less a b (insertionSort_func less d a b).
Proof.
  intros Hswo Ha Hab Hb.
  destruct (range_decomp a b d Ha Hab Hb) as (pre & mid & post & -> & <- & <-).
  rewrite insertionSort_func_spec. split.
  - apply rangePerm_decomp, isort_Permutation.
  - apply sortedRange_segment.
    + unfold gostring.len_list. lia.
    + unfold gostring.len_list. lia.
    + unfold gostring.len_list.
      rewrite !length_app, (Permutation_length (isort_Permutation less mid)). lia.
    + replace (len mid) with (len (isort less mid))
        by (unfold gostring.len_list;
            rewrite (Permutation_length (isort_Permutation less mid)); reflexivity).
      rewrite segment_decomp. apply isort_Sorted. exact Hswo.
Qed.

(** [reverseRange_func] keeps to its range. *)
Lemma reverseLoop_range a b (n : nat) : ∀ (d : list A) i j,
  0 <= a → b <= len d → a <= i → j < b →
  rangePerm a b d (reverseLoop n d i j).
Proof.
  induction n as [|n IH]; intros d i j Ha Hb Hi Hj; cbn [reverseLoop].
  - apply rangePerm_refl.
  - destruct (Z.ltb_spec i j) as [Hlt|]; [|apply rangePerm_refl].
    apply (rangePerm_trans a b d (Swap d i j)).
    + apply Swap_rangePerm; lia.
    + apply IH; rewrite ?len_Swap; lia.
Qed.

Lemma reverseRange_func_range (d : list A) a b :
  0 <= a → b <= len d → rangePerm a b d (reverseRange_func d a b).
Proof. intros Ha Hb. apply reverseLoop_range; lia. Qed.

Lemma land_mask_range r k : 0 <= k → 0 <= Z.land r (Z.shiftl 1 k - 1) < 2 ^ k.
Proof.
  intros Hk. rewrite Z.shiftl_1_l.
  replace (2 ^ k - 1) with (Z.ones k) by (rewrite Z.ones_equiv; lia).
  rewrite Z.land_ones by lia. apply Z.mod_pos_bound. apply Z.pow_pos_nonneg; lia.
Qed.

Lemma nextPowerOfTwo_bound length : 0 < length → 2 ^ bitsLen length <= 2 * length.
Proof.
  intros H. unfold bitsLen. destruct (Z.leb_spec length 0); [lia|].
  rewrite Z.add_1_r, Z.pow_succ_r by apply Z.log2_nonneg.
  pose proof (Z.log2_spec length H). lia.
Qed.

Lemma breakLoop_range a b (n : nat) : ∀ (d : list A) idx i random,
  0 <= a → b <= len d → 0 < b - a →
  a <= idx + i → idx + i + Z.of_nat n <= b →
  rangePerm a b d
    (breakLoop n d a (b - a) idx i random (nextPowerOfTwo (b - a))).
Proof.
  induction n as [|n IH]; intros d idx i random Ha Hb Hlen Hi Hn; cbn [breakLoop].
  - apply rangePerm_refl.
  - set (other := Z.land (xorshiftNext random) (nextPowerOfTwo (b - a) - 1)).
    assert (Ho : 0 <= other < 2 * (b - a)).
    { subst other. unfold nextPowerOfTwo.
      pose proof (land_mask_range (xorshiftNext random) (bitsLen (b - a))
                    ltac:(unfold bitsLen; destruct (b - a <=? 0);
                          [lia | pose proof (Z.log2_nonneg (b - a)); lia])).
      pose proof (nextPowerOfTwo_bound (b - a) Hlen). lia. }
    set (other' := if other >=? b - a then other - (b - a) else other).
    assert (Ho' : 0 <= other' < b - a).
    { subst other'. destruct (Z.geb_spec other (b - a)); lia. }
    apply (rangePerm_trans a b d (Swap d (idx + i) (a + other'))).
    + apply Swap_rangePerm; lia.
    + apply IH; rewrite ?len_Swap; lia.
Qed.

(** [breakPatterns_func] keeps to its range. *)
Lemma breakPatterns_func_range (d : list A) a b :
  0 <= a → b <= len d → rangePerm a b d (breakPatterns_func d a b).
Proof.
  intros Ha Hb. unfold breakPatterns_func.
  destruct (Z.geb_spec (b - a) 8) as [H8|]; [|apply rangePerm_refl].
  apply breakLoop_range; try lia.
  - rewrite Z.quot_div_nonneg by lia. dlia.
  - rewrite Z.quot_div_nonneg by lia. dlia.
Qed.

Lemma order2_func_result (d : list A) x y s :
  let '(x', y', _) := order2_func less d x y s in
  (x' = x ∧ y' = y) ∨ (x' = y ∧ y' = x).
Proof. unfold order2_func. destruct (Less less d y x); auto. Qed.

Lemma median_func_result (d : list A) x y z s :
  fst (median_func less d x y z s) = x
  ∨ fst (median_func less d x y z s) = y
  ∨ fst (median_func less d x y z s) = z.
Proof.
  unfold median_func.
  pose proof (order2_func_result d x y s) as H1.
  destruct (order2_func less d x y s) as [[x1 y1] s1].
  pose proof (order2_func_result d y1 z s1) as H2.
  destruct (order2_func less d y1 z s1) as [[y2 z2] s2].
  pose proof (order2_func_result d x1 y2 s2) as H3.
  destruct (order2_func less d x1 y2 s2) as [[x3 y3] s3].
  cbn [fst]. intuition congruence.
Qed.

(** The pivot chosen in a range of at least eight elements lies in it. *)
Lemma choosePivot_func_range (d : list A) a b :
  8 <= b - a → a <= fst (choosePivot_func less d a b) < b.
Proof.
  intros H8. unfold choosePivot_func.
  set (q := Z.quot (b - a) 4).
  assert (Hq : 2 <= q ∧ 4 * q <= b - a).
  { subst q. rewrite Z.quot_div_nonneg by lia. dlia. }
  destruct (Z.geb_spec (b - a) 8); [|lia].
  assert (Hres : ∀ i j k s, a < i < b - 1 → a < j < b - 1 → a < k < b - 1 →
            a < fst (median_func less d i j k s) < b - 1).
  { intros i j k s Hi Hj Hk.
    destruct (median_func_result d i j k s) as [-> | [-> | ->]]; assumption. }
  destruct (Z.geb_spec (b - a) shortestNinther) as [H50|H50].
  - pose proof (median_func_result d (a + q * 1 - 1) (a + q * 1) (a + q * 1 + 1) 0) as M1.
    unfold medianAdjacent_func.
    destruct (median_func less d (a + q * 1 - 1) (a + q * 1) (a + q * 1 + 1) 0)
      as [i1 s1]. cbn [fst] in M1.
    pose proof (median_func_result d (a + q * 2 - 1) (a + q * 2) (a + q * 2 + 1) s1) as M2.
    destruct (median_func less d (a + q * 2 - 1) (a + q * 2) (a + q * 2 + 1) s1)
      as [j1 s2]. cbn [fst] in M2.
    pose proof (median_func_result d (a + q * 3 - 1) (a + q * 3) (a + q * 3 + 1) s2) as M3.
    destruct (median_func less d (a + q * 3 - 1) (a + q * 3) (a + q * 3 + 1) s2)
      as [k1 s3]. cbn [fst] in M3.
    unfold shortestNinther in H50.
    specialize (Hres i1 j1 k1 s3 ltac:(lia) ltac:(lia) ltac:(lia)).
    destruct (median_func less d i1 j1 k1 s3) as [j' s']. cbn [fst] in Hres.
    destruct (s' =? 0); [cbn [fst]; lia|].
    destruct (s' =? maxSwaps); cbn [fst]; lia.
  - specialize (Hres (a + q * 1) (a + q * 2) (a + q * 3) 0
                  ltac:(lia) ltac:(lia) ltac:(lia)).
    destruct (median_func less d (a + q * 1) (a + q * 2) (a + q * 3) 0) as [j' s'].
    cbn [fst] in Hres.
    destruct (s' =? 0); [cbn [fst]; lia|].
    destruct (s' =? maxSwaps); cbn [fst]; lia.
Qed.

End SortRangeFacts.

(* ===================================================================== *)
(** * The two partitions of pdqsort                                       *)
(* ===================================================================== *)

Section PartitionFacts.
Context {A : Type} (less : A → A → bool).
Import sort.
Local Abbreviation len := gostring.len_list.

Lemma at_Swap_transpose (d : list A) i j k :
  0 <= i < len d → 0 <= j < len d →
  at_ (Swap d i j) k = at_ d (transpose i j k).
Proof.
  intros Hi Hj. rewrite at_Swap by assumption. unfold transpose.
  destruct (k =? j); [reflexivity|]. destruct (k =? i); reflexivity.
Qed.

Lemma Less_Swap (d : list A) i j k l :
  0 <= i < len d → 0 <= j < len d →
  Less less (Swap d i j) k l = Less less d (transpose i j k) (transpose i j l).
Proof.
  intros Hi Hj. unfold Less. rewrite !at_Swap_transpose by assumption.
  reflexivity.
Qed.

Lemma transpose_other i j k : k ≠ i → k ≠ j → transpose i j k = k.
Proof.
  intros Hi Hj. unfold transpose.
  destruct (Z.eqb_spec k j); [contradiction|].
  destruct (Z.eqb_spec k i); [contradiction|]. reflexivity.
Qed.

Lemma transpose_l i j : transpose i j i = j.
Proof.
  unfold transpose. destruct (Z.eqb_spec i j); [congruence|].
  rewrite Z.eqb_refl. reflexivity.
Qed.

Lemma transpose_r i j : transpose i j j = i.
Proof. unfold transpose. rewrite Z.eqb_refl. reflexivity. Qed.

Lemma scanUp_spec (d : list A) a j (n : nat) : ∀ i,
  i <= j + 1 → j - i + 1 <= Z.of_nat n →
  i <= scanUp less n d a i j <= j + 1
  ∧ (∀ k, i <= k < scanUp less n d a i j → Less less d k a = true)
  ∧ (scanUp less n d a i j <= j → Less less d (scanUp less n d a i j) a = false).
Proof.
  induction n as [|n IH]; intros i Hi Hn; cbn [scanUp].
  - split; [lia|]. split; intros; lia.
  - destruct (Z.leb_spec i j) as [Hle|Hle]; cbn [andb].
    + destruct (Less less d i a) eqn:E.
      * destruct (IH (i + 1) ltac:(lia) ltac:(lia)) as (H1 & H2 & H3).
        split; [lia|]. split; [|exact H3].
        intros k Hk. destruct (Z.eq_dec k i) as [->|]; [exact E|].
        apply H2. lia.
      * split; [lia|]. split; [intros; lia|]. intros _. exact E.
    + split; [lia|]. split; intros; lia.
Qed.

Lemma scanDown_spec (d : list A) a i (n : nat) : ∀ j,
  i <= j + 1 → j - i + 1 <= Z.of_nat n →
  i - 1 <= scanDown less n d a i j <= j
  ∧ (∀ k, scanDown less n d a i j < k <= j → Less less d k a = false)
  ∧ (i <= scanDown less n d a i j → Less less d (scanDown less n d a i j) a = true).
Proof.
  induction n as [|n IH]; intros j Hi Hn; cbn [scanDown].
  - split; [lia|]. split; intros; lia.
  - destruct (Z.leb_spec i j) as [Hle|Hle]; cbn [andb].
    + destruct (Less less d j a) eqn:E; cbn [negb].
      * split; [lia|]. split; [intros; lia|]. intros _. exact E.
      * destruct (IH (j - 1) ltac:(lia) ltac:(lia)) as (H1 & H2 & H3).
        split; [lia|]. split; [|exact H3].
        intros k Hk. destruct (Z.eq_dec k j) as [->|]; [exact E|].
        apply H2. lia.
    + split; [lia|]. split; intros; lia.
Qed.

Lemma scanUpEq_spec (d : list A) a j (n : nat) : ∀ i,
  i <= j + 1 → j - i + 1 <= Z.of_nat n →
  i <= scanUpEq less n d a i j <= j + 1
  ∧ (∀ k, i <= k < scanUpEq less n d a i j → Less less d a k = false)
  ∧ (scanUpEq less n d a i j <= j → Less less d a (scanUpEq less n d a i j) = true).
Proof.
  induction n as [|n IH]; intros i Hi Hn; cbn [scanUpEq].
  - split; [lia|]. split; intros; lia.
  - destruct (Z.leb_spec i j) as [Hle|Hle]; cbn [andb].
    + destruct (Less less d a i) eqn:E; cbn [negb].
      * split; [lia|]. split; [intros; lia|]. intros _. exact E.
      * destruct (IH (i + 1) ltac:(lia) ltac:(lia)) as (H1 & H2 & H3).
        split; [lia|]. split; [|exact H3].
        intros k Hk. destruct (Z.eq_dec k i) as [->|]; [exact E|].
        apply H2. lia.
    + split; [lia|]. split; intros; lia.
Qed.

Lemma scanDownEq_spec (d : list A) a i (n : nat) : ∀ j,
  i <= j + 1 → j - i + 1 <= Z.of_nat n →
  i - 1 <= scanDownEq less n d a i j <= j
  ∧ (∀ k, scanDownEq less n d a i j < k <= j → Less less d a k = true)
  ∧ (i <= scanDownEq less n d a i j → Less less d a (scanDownEq less n d a i j) = false).
Proof.
  induction n as [|n IH]; intros j Hi Hn; cbn [scanDownEq].
  - split; [lia|]. split; intros; lia.
  - destruct (Z.leb_spec i j) as [Hle|Hle]; cbn [andb].
    + destruct (Less less d a j) eqn:E.
      * destruct (IH (j - 1) ltac:(lia) ltac:(lia)) as (H1 & H2 & H3).
        split; [lia|]. split; [|exact H3].
        intros k Hk. destruct (Z.eq_dec k j) as [->|]; [exact E|].
        apply H2. lia.
      * split; [lia|]. split; [intros; lia|]. intros _. exact E.
    + split; [lia|]. split; intros; lia.
Qed.

(** The loop of [partition_func]: what is left of [i] is less than the
    pivot at [a], what is right of [j] is not. *)
Lemma partitionLoop_spec a b (n : nat) : ∀ (d : list A) i j,
  0 <= a → b <= len d → a < i → j < b → i <= j + 1 →
  j - i + 1 <= Z.of_nat n →
  (∀ k, a < k < i → Less less d k a = true) →
  (∀ k, j < k < b → Less less d k a = false) →
  rangePerm (a + 1) b d (fst (partitionLoop less n d a i j))
  ∧ a <= snd (partitionLoop less n d a i j) < b
  ∧ (∀ k, a < k <= snd (partitionLoop less n d a i j) →
       Less less (fst (partitionLoop less n d a i j)) k a = true)
  ∧ (∀ k, snd (partitionLoop less n d a i j) < k < b →
       Less less (fst (partitionLoop less n d a i j)) k a = false).
Proof.
  induction n as [|n IH]; intros d i j Ha Hb Hi Hj Hij Hn Hlo Hhi;
    cbn [partitionLoop].
  - cbn [fst snd]. split; [apply rangePerm_refl|]. split; [lia|].
    split; intros k Hk; [apply Hlo | apply Hhi]; lia.
  - destruct (scanUp_spec d a j (Z.to_nat (j - i + 1)) i ltac:(lia) ltac:(lia))
      as (U1 & U2 & U3).
    set (i1 := scanUp less (Z.to_nat (j - i + 1)) d a i j) in *.
    destruct (scanDown_spec d a i1 (Z.to_nat (j - i1 + 1)) j ltac:(lia) ltac:(lia))
      as (D1 & D2 & D3).
    set (j1 := scanDown less (Z.to_nat (j - i1 + 1)) d a i1 j) in *.
    assert (Hlo1 : ∀ k, a < k < i1 → Less less d k a = true).
    { intros k Hk. destruct (Z.lt_ge_cases k i); [apply Hlo | apply U2]; lia. }
    assert (Hhi1 : ∀ k, j1 < k < b → Less less d k a = false).
    { intros k Hk. destruct (Z.lt_ge_cases j k); [apply Hhi | apply D2]; lia. }
    destruct (Z.gtb_spec i1 j1) as [Hgt|Hngt].
    + cbn [fst snd]. split; [apply rangePerm_refl|]. split; [lia|].
      split; intros k Hk; [apply Hlo1 | apply Hhi1]; lia.
    + specialize (U3 ltac:(lia)). specialize (D3 ltac:(lia)).
      assert (Hne : i1 ≠ j1) by (intros E; rewrite E in U3; congruence).
      assert (Hs : rangePerm (a + 1) b d (Swap d i1 j1))
        by (apply Swap_rangePerm; lia).
      destruct (IH (Swap d i1 j1) (i1 + 1) (j1 - 1)) as (R1 & R2 & R3 & R4);
        rewrite ?len_Swap; try lia.
      * intros k Hk. rewrite Less_Swap by lia.
        rewrite (transpose_other i1 j1 a) by lia.
        destruct (Z.eq_dec k i1) as [->|].
        -- rewrite transpose_l. exact D3.
        -- rewrite transpose_other by lia. apply Hlo1. lia.
      * intros k Hk. rewrite Less_Swap by lia.
        rewrite (transpose_other i1 j1 a) by lia.
        destruct (Z.eq_dec k j1) as [->|].
        -- rewrite transpose_r. exact U3.
        -- rewrite transpose_other by lia. apply Hhi1. lia.
      * split; [exact (rangePerm_trans _ _ _ _ _ Hs R1)|].
        split; [exact R2|]. split; assumption.
Qed.

(** [partition_func]: [data[mid]] is the pivot, the elements left of it
    are less than it and the ones right of it are not. *)
Lemma partition_func_spec (d : list A) a b pivot p :
  0 <= a → b <= len d → a <= pivot < b → at_ d pivot = Some p →
  let d' := fst (fst (partition_func less d a b pivot)) in
  let mid := snd (fst (partition_func less d a b pivot)) in
  rangePerm a b d d' ∧ a <= mid < b ∧ at_ d' mid = Some p
  ∧ allIn a mid d' (λ x, less x p = true)
  ∧ allIn (mid + 1) b d' (λ x, less x p = false).
Proof.
  intros Ha Hb Hp Hpiv.
  assert (Hfinal : ∀ dL j,
    rangePerm a b d dL → at_ dL a = Some p → a <= j < b →
    (∀ k, a < k <= j → Less less dL k a = true) →
    (∀ k, j < k < b → Less less dL k a = false) →
    rangePerm a b d (Swap dL j a) ∧ a <= j < b ∧ at_ (Swap dL j a) j = Some p
    ∧ allIn a j (Swap dL j a) (λ x, less x p = true)
    ∧ allIn (j + 1) b (Swap dL j a) (λ x, less x p = false)).
  { intros dL j Hr Hpa Hj Hlo Hhi.
    pose proof (rangePerm_len _ _ _ _ Hr) as Hl.
    split.
    { apply (rangePerm_trans a b d dL); [exact Hr|].
      apply Swap_rangePerm; lia. }
    split; [exact Hj|]. split.
    { rewrite at_Swap_transpose by lia. rewrite transpose_l. exact Hpa. }
    split.
    - intros k x Hk Hx. rewrite at_Swap_transpose in Hx by lia.
      destruct (Z.eq_dec k a) as [->|Hne].
      + rewrite transpose_r in Hx.
        rewrite <- (Less_at less dL j a x p Hx Hpa). apply Hlo. lia.
      + rewrite transpose_other in Hx by lia.
        rewrite <- (Less_at less dL k a x p Hx Hpa). apply Hlo. lia.
    - intros k x Hk Hx. rewrite at_Swap_transpose in Hx by lia.
      rewrite transpose_other in Hx by lia.
      rewrite <- (Less_at less dL k a x p Hx Hpa). apply Hhi. lia. }
  unfold partition_func.
  assert (Hs0 : rangePerm a b d (Swap d a pivot)) by (apply Swap_rangePerm; lia).
  assert (Hpa : at_ (Swap d a pivot) a = Some p).
  { rewrite at_Swap_transpose by lia. rewrite transpose_l. exact Hpiv. }
  set (d0 := Swap d a pivot) in *.
  assert (Hl0 : len d0 = len d) by apply len_Swap.
  destruct (scanUp_spec d0 a (b - 1) (Z.to_nat (b - 1 - (a + 1) + 1)) (a + 1)
              ltac:(lia) ltac:(lia)) as (U1 & U2 & U3).
  set (i1 := scanUp less _ d0 a (a + 1) (b - 1)) in *.
  destruct (scanDown_spec d0 a i1 (Z.to_nat (b - 1 - i1 + 1)) (b - 1)
              ltac:(lia) ltac:(lia)) as (D1 & D2 & D3).
  set (j1 := scanDown less _ d0 a i1 (b - 1)) in *.
  destruct (Z.gtb_spec i1 j1) as [Hgt|Hngt].
  - cbn [fst snd]. apply Hfinal; try assumption; try lia.
    + intros k Hk. apply U2. lia.
    + intros k Hk. apply D2. lia.
  - specialize (U3 ltac:(lia)). specialize (D3 ltac:(lia)).
    assert (Hne : i1 ≠ j1) by (intros E; rewrite E in U3; congruence).
    destruct (partitionLoop_spec a b (Z.to_nat (b - a)) (Swap d0 i1 j1)
                (i1 + 1) (j1 - 1)) as (R1 & R2 & R3 & R4);
      rewrite ?len_Swap; try lia.
    + intros k Hk. rewrite Less_Swap by lia.
      rewrite (transpose_other i1 j1 a) by lia.
      destruct (Z.eq_dec k i1) as [->|].
      * rewrite transpose_l. exact D3.
      * rewrite transpose_other by lia. apply U2. lia.
    + intros k Hk. rewrite Less_Swap by lia.
      rewrite (transpose_other i1 j1 a) by lia.
      destruct (Z.eq_dec k j1) as [->|].
      * rewrite transpose_r. exact U3.
      * rewrite transpose_other by lia. apply D2. lia.
    + destruct (partitionLoop less (Z.to_nat (b - a)) (Swap d0 i1 j1) a
                  (i1 + 1) (j1 - 1)) as [dL j2] eqn:EL.
      cbn [fst snd] in *. apply Hfinal; try assumption.
      * apply (rangePerm_trans a b d d0); [exact Hs0|].
        apply (rangePerm_trans a b d0 (Swap d0 i1 j1)).
        -- apply Swap_rangePerm; lia.
        -- apply (rangePerm_widen (a + 1) b); [lia | lia | exact R1].
      * destruct R1 as [_ R1]. rewrite R1 by lia.
        rewrite at_Swap_transpose by lia.
        rewrite transpose_other by lia. exact Hpa.
Qed.

(** The loop of [partitionEqual_func]: the pivot at [a] is not less than
    what is left of [i], and is less than what is right of [j]. *)
Lemma partitionEqualLoop_spec a b (n : nat) : ∀ (d : list A) i j,
  0 <= a → b <= len d → a < i → j < b → i <= j + 1 →
  j - i + 1 <= Z.of_nat n →
  (∀ k, a < k < i → Less less d a k = false) →
  (∀ k, j < k < b → Less less d a k = true) →
  rangePerm (a + 1) b d (fst (partitionEqualLoop less n d a i j))
  ∧ a < snd (partitionEqualLoop less n d a i j) <= b
  ∧ (∀ k, a < k < snd (partitionEqualLoop less n d a i j) →
       Less less (fst (partitionEqualLoop less n d a i j)) a k = false)
  ∧ (∀ k, snd (partitionEqualLoop less n d a i j) <= k < b →
       Less less (fst (partitionEqualLoop less n d a i j)) a k = true).
Proof.
  induction n as [|n IH]; intros d i j Ha Hb Hi Hj Hij Hn Hlo Hhi;
    cbn [partitionEqualLoop].
  - cbn [fst snd]. split; [apply rangePerm_refl|]. split; [lia|].
    split; intros k Hk; [apply Hlo | apply Hhi]; lia.
  - destruct (scanUpEq_spec d a j (Z.to_nat (j - i + 1)) i ltac:(lia) ltac:(lia))
      as (U1 & U2 & U3).
    set (i1 := scanUpEq less (Z.to_nat (j - i + 1)) d a i j) in *.
    destruct (scanDownEq_spec d a i1 (Z.to_nat (j - i1 + 1)) j ltac:(lia) ltac:(lia))
      as (D1 & D2 & D3).
    set (j1 := scanDownEq less (Z.to_nat (j - i1 + 1)) d a i1 j) in *.
    assert (Hlo1 : ∀ k, a < k < i1 → Less less d a k = false).
    { intros k Hk. destruct (Z.lt_ge_cases k i); [apply Hlo | apply U2]; lia. }
    assert (Hhi1 : ∀ k, j1 < k < b → Less less d a k = true).
    { intros k Hk. destruct (Z.lt_ge_cases j k); [apply Hhi | apply D2]; lia. }
    destruct (Z.gtb_spec i1 j1) as [Hgt|Hngt].
    + cbn [fst snd]. split; [apply rangePerm_refl|]. split; [lia|].
      split; intros k Hk; [apply Hlo1 | apply Hhi1]; lia.
    + specialize (U3 ltac:(lia)). specialize (D3 ltac:(lia)).
      assert (Hne : i1 ≠ j1) by (intros E; rewrite E in U3; congruence).
      assert (Hs : rangePerm (a + 1) b d (Swap d i1 j1))
        by (apply Swap_rangePerm; lia).
      destruct (IH (Swap d i1 j1) (i1 + 1) (j1 - 1)) as (R1 & R2 & R3 & R4);
        rewrite ?len_Swap; try lia.
      * intros k Hk. rewrite Less_Swap by lia.
        rewrite (transpose_other i1 j1 a) by lia.
        destruct (Z.eq_dec k i1) as [->|].
        -- rewrite transpose_l. exact D3.
        -- rewrite transpose_other by lia. apply Hlo1. lia.
      * intros k Hk. rewrite Less_Swap by lia.
        rewrite (transpose_other i1 j1 a) by lia.
        destruct (Z.eq_dec k j1) as [->|].
        -- rewrite transpose_r. exact U3.
        -- rewrite transpose_other by lia. apply Hhi1. lia.
      * split; [exact (rangePerm_trans _ _ _ _ _ Hs R1)|].
        split; [exact R2|]. split; assumption.
Qed.

(** [partitionEqual_func]: the pivot is not less than the elements left
    of [mid], and is less than the ones from [mid] on. *)
Lemma partitionEqual_func_spec (d : list A) a b pivot p :
  (∀ x, less x x = false) →
  0 <= a → b <= len d → a <= pivot < b → at_ d pivot = Some p →
  let d' := fst (partitionEqual_func less d a b pivot) in
  let mid := snd (partitionEqual_func less d a b pivot) in
  rangePerm a b d d' ∧ a < mid <= b
  ∧ allIn a mid d' (λ x, less p x = false)
  ∧ allIn mid b d' (λ x, less p x = true).
Proof.
  intros Hirr Ha Hb Hp Hpiv. unfold partitionEqual_func.
  assert (Hs0 : rangePerm a b d (Swap d a pivot)) by (apply Swap_rangePerm; lia).
  assert (Hpa : at_ (Swap d a pivot) a = Some p).
  { rewrite at_Swap_transpose by lia. rewrite transpose_l. exact Hpiv. }
  set (d0 := Swap d a pivot) in *.
  assert (Hl0 : len d0 = len d) by apply len_Swap.
  destruct (partitionEqualLoop_spec a b (S (Z.to_nat (b - a))) d0 (a + 1) (b - 1))
    as (R1 & R2 & R3 & R4); try lia.
  destruct (partitionEqualLoop less (S (Z.to_nat (b - a))) d0 a (a + 1) (b - 1))
    as [dL mid] eqn:EL.
  cbn -[partitionEqualLoop] in *.
  assert (HpL : at_ dL a = Some p).
  { destruct R1 as [_ R1]. rewrite R1 by lia. exact Hpa. }
  split.
  { apply (rangePerm_trans a b d d0); [exact Hs0|].
    apply (rangePerm_widen (a + 1) b); [lia | lia | exact R1]. }
  split; [exact R2|]. split.
  - intros k x Hk Hx. destruct (Z.eq_dec k a) as [->|Hne].
    + rewrite HpL in Hx. injection Hx as <-. apply Hirr.
    + rewrite <- (Less_at less dL a k p x HpL Hx). apply R3. lia.
  - intros k x Hk Hx.
    rewrite <- (Less_at less dL a k p x HpL Hx). apply R4. lia.
Qed.

End PartitionFacts.

(* ===================================================================== *)
(** * Order facts by position, and [partialInsertionSort_func]            *)
(* ===================================================================== *)

Section PartialInsertionFacts.
Context {A : Type} (less : A → A → bool).
Import sort.
Local Abbreviation len := gostring.len_list.

Lemma Less_irrefl (d : list A) i :
  StrictWeakOrder less → Less less d i i = false.
Proof.
  intros Hswo. unfold Less. destruct (at_ d i); [|reflexivity].
  apply (swo_irrefl _ Hswo).
Qed.

Lemma Less_asym (d : list A) i j :
  StrictWeakOrder less → Less less d i j = true → Less less d j i = false.
Proof.
  intros Hswo. unfold Less.
  destruct (at_ d i), (at_ d j); try discriminate.
  apply (swo_asym _ Hswo).
Qed.

Lemma Less_negtrans (d : list A) i j k :
  StrictWeakOrder less → 0 <= j < len d →
  Less less d i j = false → Less less d j k = false → Less less d i k = false.
Proof.
  intros Hswo Hj. unfold Less.
  destruct (at_inrange d j Hj) as [y ->].
  destruct (at_ d i), (at_ d k); try reflexivity.
  apply (swo_negtrans _ Hswo).
Qed.

Lemma sortedRange_Less a b (d : list A) :
  sortedRange less a b d
  ↔ ∀ k, a <= k → k + 1 < b → Less less d (k + 1) k = false.
Proof.
  split.
  - intros Hs k Hk1 Hk2. unfold Less.
    destruct (at_ d (k + 1)) as [y|] eqn:Hy; [|reflexivity].
    destruct (at_ d k) as [x|] eqn:Hx; [|reflexivity].
    exact (Hs k x y Hk1 Hk2 Hx Hy).
  - intros Hs k x y Hk1 Hk2 Hx Hy.
    rewrite <- (Less_at less d (k + 1) k y x Hy Hx). apply Hs; assumption.
Qed.

Lemma sortedRange_rangePerm_outside a b a' b' (d d' : list A) :
  rangePerm a' b' d d' → (b <= a' ∨ b' <= a) →
  sortedRange less a b d → sortedRange less a b d'.
Proof.
  intros [_ Ho] Hdis Hs k x y Hk1 Hk2 Hx Hy.
  rewrite Ho in Hx, Hy by lia. exact (Hs k x y Hk1 Hk2 Hx Hy).
Qed.

Lemma lowerBound_rangePerm a b (d d' : list A) :
  0 <= a → a <= b → b <= len d →
  rangePerm a b d d' → lowerBound less a b d → lowerBound less a b d'.
Proof.
  intros Ha Hab Hb Hr Hlb v Hv.
  destruct Hr as [Hp Ho]. rewrite Ho in Hv by lia.
  apply (rangePerm_allIn a b d d'); try assumption; [split; assumption|].
  exact (Hlb v Hv).
Qed.

Lemma lowerBound_sub a b b' (d : list A) :
  b' <= b → lowerBound less a b d → lowerBound less a b' d.
Proof.
  intros Hbb Hlb v Hv k x Hk Hx. apply (Hlb v Hv k x); [lia | exact Hx].
Qed.

Lemma lowerBound_Less a b (d : list A) k :
  lowerBound less a b d → a <= k < b → Less less d k (a - 1) = false.
Proof.
  intros Hlb Hk. unfold Less.
  destruct (at_ d k) as [x|] eqn:Hx; [|reflexivity].
  destruct (at_ d (a - 1)) as [v|] eqn:Hv; [|reflexivity].
  exact (Hlb v Hv k x Hk Hx).
Qed.

Lemma scanSorted_spec (d : list A) b (n : nat) : ∀ i,
  i <= b → b - i <= Z.of_nat n →
  i <= scanSorted less n d i b <= b
  ∧ (∀ k, i <= k < scanSorted less n d i b → Less less d k (k - 1) = false)
  ∧ (scanSorted less n d i b < b →
       Less less d (scanSorted less n d i b) (scanSorted less n d i b - 1) = true).
Proof.
  induction n as [|n IH]; intros i Hi Hn; cbn [scanSorted].
  - split; [lia|]. split; intros; lia.
  - destruct (Z.ltb_spec i b) as [Hlt|Hge]; cbn [andb].
    + destruct (Less less d i (i - 1)) eqn:E; cbn [negb].
      * split; [lia|]. split; [intros; lia|]. intros _. exact E.
      * destruct (IH (i + 1) ltac:(lia) ltac:(lia)) as (H1 & H2 & H3).
        split; [lia|]. split; [|exact H3].
        intros k Hk. destruct (Z.eq_dec k i) as [->|]; [exact E|].
        apply H2. lia.
    + split; [lia|]. split; intros; lia.
Qed.

(** The left shift of [partialInsertionSort_func] puts the element at
    [j] in its place among the sorted elements before it. *)
Lemma shiftLeft_spec a i b (n : nat) : ∀ (d : list A) j,
  StrictWeakOrder less →
  0 <= a → a <= j → j < i → i <= b → b <= len d → j <= Z.of_nat n →
  (∀ k, a <= k < b → Less less d k (a - 1) = false) →
  (∀ k, a <= k → k + 1 < j → Less less d (k + 1) k = false) →
  (∀ k, j <= k → k + 1 < i → Less less d (k + 1) k = false) →
  (a <= j - 1 → j + 1 < i → Less less d (j + 1) (j - 1) = false) →
  rangePerm a i d (shiftLeft less n d j)
  ∧ ∀ k, a <= k → k + 1 < i → Less less (shiftLeft less n d j) (k + 1) k = false.
Proof.
  induction n as [|n IH]; intros d j Hswo Ha Haj Hji Hib Hb Hn LB S1 S2 S3;
    cbn [shiftLeft].
  - split; [apply rangePerm_refl|]. intros k Hk1 Hk2. apply S2; lia.
  - destruct (Z.geb_spec j 1) as [Hj1|Hj1]; cbn [andb].
    + destruct (Less less d j (j - 1)) eqn:E.
      * assert (Hja : a < j).
        { destruct (Z.eq_dec j a) as [->|]; [|lia].
          rewrite LB in E by lia. discriminate. }
        destruct (IH (Swap d j (j - 1)) (j - 1)) as [R1 R2];
          rewrite ?len_Swap; try assumption; try lia.
        -- intros k Hk. rewrite Less_Swap by lia.
           rewrite (transpose_other j (j - 1) (a - 1)) by lia.
           destruct (Z.eq_dec k j) as [->|].
           ++ rewrite transpose_l. apply LB. lia.
           ++ destruct (Z.eq_dec k (j - 1)) as [->|].
              ** rewrite transpose_r. apply LB. lia.
              ** rewrite transpose_other by lia. apply LB. lia.
        -- intros k Hk1 Hk2. rewrite Less_Swap by lia.
           rewrite !transpose_other by lia. apply S1; lia.
        -- intros k Hk1 Hk2. rewrite Less_Swap by lia.
           destruct (Z.eq_dec k (j - 1)) as [->|].
           ++ replace (j - 1 + 1) with j by lia.
              rewrite transpose_l, transpose_r.
              apply (Less_asym _ _ _ Hswo). exact E.
           ++ destruct (Z.eq_dec k j) as [->|].
              ** rewrite transpose_l, transpose_other by lia. apply S3; lia.
              ** rewrite !transpose_other by lia. apply S2; lia.
        -- intros Hk1 Hk2. rewrite Less_Swap by lia.
           replace (j - 1 + 1) with j by lia.
           rewrite transpose_l, transpose_other by lia.
           replace (j - 1) with (j - 1 - 1 + 1) at 1 by lia.
           apply S1; lia.
        -- split; [|exact R2].
           apply (rangePerm_trans a i d (Swap d j (j - 1))); [|exact R1].
           apply Swap_rangePerm; lia.
      * split; [apply rangePerm_refl|]. intros k Hk1 Hk2.
        destruct (Z.lt_trichotomy (k + 1) j) as [Hlt|[Heq|Hgt]].
        -- apply S1; lia.
        -- rewrite Heq. replace k with (j - 1) by lia. exact E.
        -- apply S2; lia.
    + split; [apply rangePerm_refl|]. intros k Hk1 Hk2. apply S2; lia.
Qed.

Lemma shiftRight_range i b (n : nat) : ∀ (d : list A) j,
  0 <= i → i < j → b <= len d →
  rangePerm i b d (shiftRight less n d j b).
Proof.
  induction n as [|n IH]; intros d j Hi Hij Hb; cbn [shiftRight].
  - apply rangePerm_refl.
  - destruct (Z.ltb_spec j b) as [Hlt|Hge]; cbn [andb]; [|apply rangePerm_refl].
    destruct (Less less d j (j - 1)); [|apply rangePerm_refl].
    apply (rangePerm_trans i b d (Swap d j (j - 1))).
    + apply Swap_rangePerm; lia.
    + apply IH; rewrite ?len_Swap; lia.
Qed.

Lemma partialInsertionLoop_spec a b (steps : nat) : ∀ (d : list A) i,
  StrictWeakOrder less →
  0 <= a → a < i → i <= b → b <= len d →
  lowerBound less a b d → sortedRange less a i d →
  rangePerm a b d (fst (partialInsertionLoop less steps d a b i))
  ∧ (snd (partialInsertionLoop less steps d a b i) = true →
     sortedRange less a b (fst (partialInsertionLoop less steps d a b i))).
Proof.
  induction steps as [|steps IH]; intros d i Hswo Ha Hai Hib Hb Hlb Hs;
    cbn [partialInsertionLoop].
  - cbn [fst snd]. split; [apply rangePerm_refl | discriminate].
  - destruct (scanSorted_spec d b (Z.to_nat (b - i)) i ltac:(lia) ltac:(lia))
      as (C1 & C2 & C3).
    set (i1 := scanSorted less (Z.to_nat (b - i)) d i b) in *.
    assert (Hs1 : ∀ k, a <= k → k + 1 < i1 → Less less d (k + 1) k = false).
    { intros k Hk1 Hk2. destruct (Z.lt_ge_cases (k + 1) i) as [Hlt|Hge].
      - apply (proj1 (sortedRange_Less a i d) Hs); lia.
      - replace k with (k + 1 - 1) at 2 by lia. apply C2. lia. }
    destruct (Z.eqb_spec i1 b) as [Heq|Hne].
    { cbn [fst snd]. split; [apply rangePerm_refl|]. intros _.
      apply (proj2 (sortedRange_Less a b d)). rewrite <- Heq. exact Hs1. }
    destruct (b - a <? shortestShifting).
    { cbn [fst snd]. split; [apply rangePerm_refl | discriminate]. }
    specialize (C3 ltac:(lia)).
    set (d1 := Swap d i1 (i1 - 1)).
    assert (Hr1 : rangePerm a b d d1) by (apply Swap_rangePerm; lia).
    assert (Hl1 : len d1 = len d) by apply len_Swap.
    assert (Hlb1 : lowerBound less a b d1)
      by (apply (lowerBound_rangePerm a b d d1); assumption || lia).
    set (d2 := if i1 - a >=? 2
               then shiftLeft less (Z.to_nat (i1 - 1)) d1 (i1 - 1) else d1).
    assert (H2 : rangePerm a i1 d1 d2
                 ∧ ∀ k, a <= k → k + 1 < i1 → Less less d2 (k + 1) k = false).
    { subst d2. destruct (Z.geb_spec (i1 - a) 2) as [Hge|Hlt].
      - apply (shiftLeft_spec a i1 b); try assumption; try lia.
        + intros k Hk. apply (lowerBound_Less a b); assumption.
        + intros k Hk1 Hk2. subst d1. rewrite Less_Swap by lia.
          rewrite !transpose_other by lia. apply Hs1; lia.
      - split; [apply rangePerm_refl|]. intros k Hk1 Hk2. lia. }
    destruct H2 as [Hr2 Hs2].
    assert (Hl2 : len d2 = len d)
      by (rewrite (rangePerm_len _ _ _ _ Hr2); exact Hl1).
    set (d3 := if b - i1 >=? 2
               then shiftRight less (Z.to_nat (b - (i1 + 1))) d2 (i1 + 1) b
               else d2).
    assert (Hr3 : rangePerm i1 b d2 d3).
    { subst d3. destruct (b - i1 >=? 2); [|apply rangePerm_refl].
      apply shiftRight_range; lia. }
    assert (Hr : rangePerm a b d d3).
    { apply (rangePerm_trans a b d d1); [exact Hr1|].
      apply (rangePerm_trans a b d1 d2).
      - apply (rangePerm_widen a i1); [lia | lia | exact Hr2].
      - apply (rangePerm_widen i1 b); [lia | lia | exact Hr3]. }
    destruct (IH d3 i1) as [R1 R2]; try assumption; try lia.
    + rewrite (rangePerm_len _ _ _ _ Hr). exact Hb.
    + apply (lowerBound_rangePerm a b d d3); assumption || lia.
    + apply (sortedRange_rangePerm_outside a i1 i1 b d2 d3);
        [exact Hr3 | lia | apply (proj2 (sortedRange_Less a i1 d2)); exact Hs2].
    + split; [|exact R2]. exact (rangePerm_trans _ _ _ _ _ Hr R1).
Qed.

(** [partialInsertionSort_func] keeps to its range when nothing in it is
    less than the element before it, and reports [true] only for a
    sorted range. *)
Lemma partialInsertionSort_func_spec (d : list A) a b :
  StrictWeakOrder less →
  0 <= a → a < b → b <= len d → lowerBound less a b d →
  rangePerm a b d (fst (partialInsertionSort_func less d a b))
  ∧ (snd (partialInsertionSort_func less d a b) = true →
     sortedRange less a b (fst (partialInsertionSort_func less d a b))).
Proof.
  intros Hswo Ha Hab Hb Hlb. unfold partialInsertionSort_func.
  apply partialInsertionLoop_spec; try assumption; try lia.
  intros k x y Hk1 Hk2. lia.
Qed.

End PartialInsertionFacts.

(* ===================================================================== *)
(** * [heapSort_func]                                                     *)
(* ===================================================================== *)

Section HeapFacts.
Context {A : Type} (less : A → A → bool).
Import sort.
Local Abbreviation len := gostring.len_list.

Lemma siftDownLoop_spec first lo hi (n : nat) : ∀ (d : list A) root,
  StrictWeakOrder less →
  0 <= first → first + hi <= len d → 0 <= lo → lo <= root →
  hi - root <= Z.of_nat n →
  (∀ p, lo <= p → p ≠ root → heapAt less first hi d p) →
  (∀ q c, lo <= q → root = 2 * q + 1 ∨ root = 2 * q + 2 →
     c = 2 * root + 1 ∨ c = 2 * root + 2 → c < hi →
     Less less d (first + q) (first + c) = false) →
  rangePerm first (first + hi) d (siftDownLoop less n d root hi first)
  ∧ heapFrom less first lo hi (siftDownLoop less n d root hi first).
Proof.
  induction n as [|n IH]; intros d root Hswo Hf Hhi Hlo Hroot Hn HA HB;
    cbn [siftDownLoop].
  - split; [apply rangePerm_refl|]. intros p Hp.
    destruct (Z.eq_dec p root) as [->|Hne]; [|apply HA; assumption].
    intros c Hc Hlt. lia.
  - destruct (Z.geb_spec (2 * root + 1) hi) as [Hge|Hlt].
    { split; [apply rangePerm_refl|]. intros p Hp.
      destruct (Z.eq_dec p root) as [->|Hne]; [|apply HA; assumption].
      intros c Hc Hlt. lia. }
    set (child := if (2 * root + 1 + 1 <? hi)
                     && Less less d (first + (2 * root + 1)) (first + (2 * root + 1) + 1)
                  then 2 * root + 1 + 1 else 2 * root + 1).
    assert (Hchild : (child = 2 * root + 1 ∨ child = 2 * root + 2) ∧ child < hi).
    { subst child. destruct (Z.ltb_spec (2 * root + 1 + 1) hi); cbn [andb].
      - destruct (Less less d _ _); lia.
      - lia. }
    assert (Hmax : ∀ c, c = 2 * root + 1 ∨ c = 2 * root + 2 → c < hi →
              Less less d (first + child) (first + c) = false).
    { intros c Hc Hc'. subst child.
      destruct (Z.ltb_spec (2 * root + 1 + 1) hi) as [H2|H2]; cbn [andb].
      - destruct (Less less d (first + (2 * root + 1)) (first + (2 * root + 1) + 1))
          eqn:E.
        + destruct Hc as [-> | ->].
          * apply (Less_asym _ _ _ _ Hswo).
            replace (first + (2 * root + 1 + 1)) with (first + (2 * root + 1) + 1)
              by lia.
            exact E.
          * replace (2 * root + 2) with (2 * root + 1 + 1) by lia.
            apply Less_irrefl. exact Hswo.
        + destruct Hc as [-> | ->].
          * apply Less_irrefl. exact Hswo.
          * replace (first + (2 * root + 2)) with (first + (2 * root + 1) + 1)
              by lia.
            exact E.
      - replace c with (2 * root + 1) by lia. apply Less_irrefl. exact Hswo. }
    destruct Hchild as [Hchild Hchi].
    destruct (Less less d (first + root) (first + child)) eqn:E; cbn [negb].
    + assert (Hs : rangePerm first (first + hi) d
                     (Swap d (first + root) (first + child)))
        by (apply Swap_rangePerm; lia).
      destruct (IH (Swap d (first + root) (first + child)) child) as [R1 R2];
        rewrite ?len_Swap; try assumption; try lia.
      * intros p Hp Hpc c Hc Hc'. rewrite Less_Swap by lia.
        destruct (Z.eq_dec p root) as [->|Hpr].
        -- rewrite transpose_l.
           destruct (Z.eq_dec c child) as [->|Hcc].
           ++ rewrite transpose_r. apply (Less_asym _ _ _ _ Hswo). exact E.
           ++ rewrite transpose_other by lia. apply Hmax; assumption.
        -- rewrite (transpose_other _ _ (first + p)) by lia.
           destruct (Z.eq_dec c root) as [->|Hcr].
           ++ rewrite transpose_l.
              apply (HB p child); try assumption; lia.
           ++ rewrite transpose_other by lia.
              apply (HA p Hp Hpr c Hc Hc').
      * intros q c Hq Hqc Hc Hc'. rewrite Less_Swap by lia.
        replace q with root by lia.
        rewrite transpose_l, transpose_other by lia.
        apply (HA child); try assumption; lia.
      * split; [|exact R2]. exact (rangePerm_trans _ _ _ _ _ Hs R1).
    + split; [apply rangePerm_refl|]. intros p Hp.
      destruct (Z.eq_dec p root) as [->|Hne]; [|apply HA; assumption].
      intros c Hc Hc'.
      apply (Less_negtrans less d _ (first + child)); try assumption; try lia.
      apply Hmax; assumption.
Qed.

Lemma siftDown_func_spec first lo hi (d : list A) :
  StrictWeakOrder less →
  0 <= first → first + hi <= len d → 0 <= lo →
  (∀ p, lo < p → heapAt less first hi d p) →
  rangePerm first (first + hi) d (siftDown_func less d lo hi first)
  ∧ heapFrom less first lo hi (siftDown_func less d lo hi first).
Proof.
  intros Hswo Hf Hhi Hlo HA. unfold siftDown_func.
  apply siftDownLoop_spec; try assumption; try lia.
  intros p Hp Hne. apply HA. lia.
Qed.

Lemma heapBuild_spec first hi (n : nat) : ∀ (d : list A),
  StrictWeakOrder less →
  0 <= first → first + hi <= len d →
  heapFrom less first (Z.of_nat n) hi d →
  rangePerm first (first + hi) d (heapBuild less n d hi first)
  ∧ heapFrom less first 0 hi (heapBuild less n d hi first).
Proof.
  induction n as [|n IH]; intros d Hswo Hf Hhi Hh; cbn [heapBuild].
  - split; [apply rangePerm_refl | exact Hh].
  - destruct (siftDown_func_spec first (Z.of_nat n) hi d) as [S1 S2];
      try assumption; try lia.
    { intros p Hp. apply Hh. lia. }
    destruct (IH (siftDown_func less d (Z.of_nat n) hi first)) as [R1 R2];
      try assumption.
    { rewrite (rangePerm_len _ _ _ _ S1). exact Hhi. }
    split; [|exact R2]. exact (rangePerm_trans _ _ _ _ _ S1 R1).
Qed.

(** The root of a heap is not less than any of its elements. *)
Lemma heap_root_max first hi (d : list A) :
  StrictWeakOrder less → 0 <= first → first + hi <= len d →
  heapFrom less first 0 hi d →
  ∀ c, 0 <= c < hi → Less less d first (first + c) = false.
Proof.
  intros Hswo Hf Hhi Hh c Hc.
  assert (H : ∀ (n : nat) c, c <= Z.of_nat n → 0 <= c < hi →
            Less less d first (first + c) = false).
  { clear c Hc. induction n as [|n IH]; intros c Hn Hc.
    - replace c with 0 by lia. rewrite Z.add_0_r. apply Less_irrefl. exact Hswo.
    - destruct (Z.eq_dec c 0) as [->|Hc0].
      { rewrite Z.add_0_r. apply Less_irrefl. exact Hswo. }
      set (q := (c - 1) / 2).
      assert (Hq : c = 2 * q + 1 ∨ c = 2 * q + 2) by (subst q; dlia).
      apply (Less_negtrans less d _ (first + q)); try assumption; try lia.
      + apply IH; lia.
      + apply (Hh q ltac:(lia) c Hq). lia. }
  apply (H (Z.to_nat c)); lia.
Qed.

Lemma heapPop_spec first b (n : nat) : ∀ (d : list A),
  StrictWeakOrder less →
  0 <= first → b <= len d → first + Z.of_nat n <= b →
  heapFrom less first 0 (Z.of_nat n) d →
  sortedRange less (first + Z.of_nat n) b d →
  (∀ k, first <= k < first + Z.of_nat n → first + Z.of_nat n < b →
     Less less d (first + Z.of_nat n) k = false) →
  rangePerm first (first + Z.of_nat n) d (heapPop less n d 0 first)
  ∧ sortedRange less first b (heapPop less n d 0 first).
Proof.
  induction n as [|n IH]; intros d Hswo Hf Hb Hn Hh Hs Hle; cbn [heapPop].
  - split; [apply rangePerm_refl|]. rewrite Z.add_0_r in Hs. exact Hs.
  - rewrite Nat2Z.inj_succ in *.
    set (i := Z.of_nat n) in *.
    pose proof (heap_root_max first (Z.succ i) d Hswo Hf ltac:(lia) Hh) as Hmax.
    set (d1 := Swap d first (first + i)).
    assert (Hr1 : rangePerm first (first + Z.succ i) d d1)
      by (apply Swap_rangePerm; lia).
    assert (Hl1 : len d1 = len d) by apply len_Swap.
    assert (Hat1 : ∀ k, at_ d1 k = at_ d (transpose first (first + i) k)).
    { intros k. apply at_Swap_transpose; lia. }
    assert (HL1 : ∀ k l, Less less d1 k l
              = Less less d (transpose first (first + i) k)
                            (transpose first (first + i) l)).
    { intros k l. apply Less_Swap; lia. }
    destruct (siftDown_func_spec first 0 i d1) as [S1 S2];
      try assumption; try lia.
    { intros p Hp c Hc Hc'. rewrite HL1.
      rewrite !transpose_other by lia. apply (Hh p ltac:(lia) c Hc). lia. }
    set (d2 := siftDown_func less d1 0 i first) in *.
    assert (Hl2 : len d2 = len d)
      by (rewrite (rangePerm_len _ _ _ _ S1); exact Hl1).
    destruct (IH d2) as [R1 R2]; try assumption; try lia.
    + apply (sortedRange_rangePerm_outside less (first + i) b first (first + i) d1 d2);
        [exact S1 | lia |].
      apply (proj2 (sortedRange_Less less (first + i) b d1)).
      intros k Hk1 Hk2. rewrite HL1.
      destruct (Z.eq_dec k (first + i)) as [->|Hne].
      * rewrite transpose_r.
        destruct (Z.eq_dec i 0) as [Hi0|Hi0].
        -- rewrite Hi0, Z.add_0_r in *. rewrite transpose_other by lia.
           replace (first + 1) with (first + Z.succ 0) by lia.
           apply Hle; lia.
        -- rewrite transpose_other by lia.
           replace (first + i + 1) with (first + Z.succ i) by lia.
           apply Hle; lia.
      * destruct (Z.eq_dec i 0) as [Hi0|Hi0].
        -- rewrite Hi0, Z.add_0_r in *.
           rewrite !transpose_other by lia.
           apply (proj1 (sortedRange_Less less (first + Z.succ 0) b d) Hs); lia.
        -- rewrite !transpose_other by lia.
           apply (proj1 (sortedRange_Less less (first + Z.succ i) b d) Hs); lia.
    + intros k Hk Hib.
      assert (E : Less less d2 (first + i) k = false
                  ↔ ∀ x y, at_ d2 (first + i) = Some x → at_ d2 k = Some y →
                           less x y = false).
      { unfold Less. destruct (at_ d2 (first + i)), (at_ d2 k);
          split; intros H; try reflexivity; try (intros ? ? ?; discriminate).
        - intros x y [= <-] [= <-]. exact H.
        - apply H; reflexivity. }
      apply E. intros x y Hx Hy.
      rewrite (proj2 S1), Hat1, transpose_r in Hx by lia.
      assert (Hall : allIn first (first + i) d1 (λ y, less x y = false)).
      { intros k' y' Hk' Hy'. rewrite Hat1 in Hy'.
        rewrite <- (Less_at less d first
                     (transpose first (first + i) k') x y' Hx Hy').
        destruct (Z.eq_dec k' first) as [->|Hkf].
        - rewrite transpose_l. apply (Hmax i). lia.
        - rewrite transpose_other by lia.
          replace k' with (first + (k' - first)) by lia. apply Hmax. lia. }
      assert (Hall2 : allIn first (first + i) d2 (λ y, less x y = false)).
      { apply (rangePerm_allIn first (first + i) d1 d2); assumption || lia. }
      exact (Hall2 k y Hk Hy).
    + split; [|exact R2].
      apply (rangePerm_trans _ _ d d1); [exact Hr1|].
      apply (rangePerm_trans _ _ d1 d2).
      * apply (rangePerm_widen first (first + i)); [lia | lia | exact S1].
      * apply (rangePerm_widen first (first + i)); [lia | lia | exact R1].
Qed.

End HeapFacts.

(* ===================================================================== *)
(** * [pdqsort_func] sorts                                                *)
(* ===================================================================== *)

Section PdqsortFacts.
Context {A : Type} (less : A → A → bool).
Import sort.
Local Abbreviation len := gostring.len_list.

(** [heapSort_func] sorts the range and keeps to it. *)
Lemma heapSort_func_range (d : list A) a b :
  StrictWeakOrder less → 0 <= a → a <= b → b <= len d →
  rangePerm a b d (heapSort_func less d a b)
  ∧ sortedRange less a b (heapSort_func less d a b).
Proof.
  intros Hswo Ha Hab Hb. unfold heapSort_func.
  set (n := Z.to_nat (Z.quot (b - a - 1) 2 + 1)).
  destruct (heapBuild_spec less a (b - a) n d) as [B1 B2];
    try assumption; try lia.
  { intros p Hp c Hc Hc'. exfalso. subst n.
    destruct (Z.eq_dec (b - a) 0) as [E|E].
    - lia.
    - rewrite Z.quot_div_nonneg in Hp by lia. revert Hp Hc Hc'. dlia. }
  set (d1 := heapBuild less n d (b - a) a) in *.
  assert (Hl1 : len d1 = len d) by apply (rangePerm_len _ _ _ _ B1).
  destruct (heapPop_spec less a b (Z.to_nat (b - a)) d1) as [P1 P2];
    try assumption; try lia.
  - rewrite Z2Nat.id by lia. exact B2.
  - intros k x y Hk1 Hk2. lia.
  - split; [|exact P2].
    apply (rangePerm_trans a b d d1).
    + replace b with (a + (b - a)) at 1 by lia. exact B1.
    + replace b with (a + Z.of_nat (Z.to_nat (b - a))) at 1 by lia. exact P1.
Qed.

Lemma sortedRange_join a m b (d : list A) :
  sortedRange less a m d → sortedRange less m b d →
  (a < m → m < b → Less less d m (m - 1) = false) →
  sortedRange less a b d.
Proof.
  intros H1 H2 H3. apply (proj2 (sortedRange_Less less a b d)).
  intros k Hk1 Hk2. destruct (Z.lt_trichotomy (k + 1) m) as [Hlt|[Heq|Hgt]].
  - apply (proj1 (sortedRange_Less less a m d) H1); lia.
  - rewrite Heq. replace k with (m - 1) by lia. apply H3; lia.
  - apply (proj1 (sortedRange_Less less m b d) H2); lia.
Qed.

Lemma sortedRange_equivalent a m (d : list A) p :
  StrictWeakOrder less →
  allIn a m d (λ x, less p x = false ∧ less x p = false) →
  sortedRange less a m d.
Proof.
  intros Hswo Hall k x y Hk1 Hk2 Hx Hy.
  destruct (Hall k x ltac:(lia) Hx) as [Hpx _].
  destruct (Hall (k + 1) y ltac:(lia) Hy) as [_ Hyp].
  exact (swo_negtrans _ Hswo y p x Hyp Hpx).
Qed.

Lemma sortedRange_pivot a m b (d : list A) p :
  StrictWeakOrder less →
  sortedRange less a m d → sortedRange less (m + 1) b d →
  at_ d m = Some p →
  allIn a m d (λ x, less x p = true) →
  allIn (m + 1) b d (λ x, less x p = false) →
  sortedRange less a b d.
Proof.
  intros Hswo H1 H2 Hp Hlo Hhi k x y Hk1 Hk2 Hx Hy.
  destruct (Z.lt_trichotomy (k + 1) m) as [Hlt|[Heq|Hgt]].
  - exact (H1 k x y ltac:(lia) ltac:(lia) Hx Hy).
  - rewrite Heq, Hp in Hy. injection Hy as <-.
    apply (swo_asym _ Hswo). exact (Hlo k x ltac:(lia) Hx).
  - destruct (Z.eq_dec k m) as [->|Hne].
    + rewrite Hp in Hx. injection Hx as <-.
      exact (Hhi (m + 1) y ltac:(lia) Hy).
    + exact (H2 k x y ltac:(lia) ltac:(lia) Hx Hy).
Qed.

Lemma allIn_outside a b a' b' (d d' : list A) (P : A → Prop) :
  rangePerm a' b' d d' → (b <= a' ∨ b' <= a) →
  allIn a b d P → allIn a b d' P.
Proof.
  intros [_ Ho] Hdis Hall k x Hk Hx. rewrite Ho in Hx by lia.
  exact (Hall k x Hk Hx).
Qed.

Lemma lowerBound_outside a b a' b' (d d' : list A) :
  rangePerm a' b' d d' → (b <= a' ∨ b' <= a - 1) →
  lowerBound less a b d → lowerBound less a b d'.
Proof.
  intros Hr Hdis Hlb v Hv.
  destruct (Z.le_gt_cases b a) as [Hba|Hba]; [intros k x Hk; lia|].
  rewrite (proj2 Hr) in Hv by lia.
  apply (allIn_outside a b a' b' d d'); [exact Hr | lia | exact (Hlb v Hv)].
Qed.

Lemma allIn_sub a b a' b' (d : list A) (P : A → Prop) :
  a <= a' → b' <= b → allIn a b d P → allIn a' b' d P.
Proof. intros Ha Hb Hall k x Hk Hx. apply (Hall k x); [lia | exact Hx]. Qed.

(** [pdqsort_func] with fuel for more than the length of the range:
    the range [[a, b)] comes out sorted, and the rest of the slice is
    left alone, when nothing in the range is less than the element
    before it. *)
Lemma pdqsortLoop_spec (fuel : nat) : ∀ (d : list A) a b limit wb wp,
  StrictWeakOrder less →
  0 <= a → a <= b → b <= len d → b - a < Z.of_nat fuel →
  lowerBound less a b d →
  ∃ d', pdqsortLoop less fuel d a b limit wb wp = Some d'
        ∧ rangePerm a b d d' ∧ sortedRange less a b d'.
Proof.
  induction fuel as [|fuel IH]; intros d a b limit wb wp Hswo Ha Hab Hb Hfuel Hlb;
    [lia|].
  cbn [pdqsortLoop].
  destruct (Z.leb_spec (b - a) maxInsertion) as [Hsmall|Hbig].
  { eexists. split; [reflexivity|].
    apply insertionSort_func_range; assumption. }
  destruct (Z.eqb_spec limit 0) as [Hlim|Hlim].
  { eexists. split; [reflexivity|].
    apply heapSort_func_range; assumption. }
  unfold maxInsertion in Hbig.
  destruct (if negb wb then (breakPatterns_func d a b, limit - 1) else (d, limit))
    as [d1 limit1] eqn:E1.
  assert (Hr1 : rangePerm a b d d1).
  { destruct wb; cbn [negb] in E1; injection E1 as <- _.
    - apply rangePerm_refl.
    - apply breakPatterns_func_range; lia. }
  assert (Hl1 : len d1 = len d) by apply (rangePerm_len _ _ _ _ Hr1).
  pose proof (choosePivot_func_range less d1 a b ltac:(lia)) as Hpiv.
  destruct (choosePivot_func less d1 a b) as [pivot hint]. cbn [fst] in Hpiv.
  destruct (if isDecreasing hint
            then (reverseRange_func d1 a b, b - 1 - (pivot - a), increasingHint)
            else (d1, pivot, hint)) as [[d2 pivot2] hint2] eqn:E2.
  assert (H2 : rangePerm a b d1 d2 ∧ a <= pivot2 < b).
  { destruct (isDecreasing hint); injection E2 as <- <- _.
    - split; [apply reverseRange_func_range; lia | lia].
    - split; [apply rangePerm_refl | lia]. }
  destruct H2 as [Hr2 Hpiv2].
  assert (Hl2 : len d2 = len d)
    by (rewrite (rangePerm_len _ _ _ _ Hr2); exact Hl1).
  assert (Hlb2 : lowerBound less a b d2).
  { apply (lowerBound_rangePerm less a b d d2); try assumption.
    exact (rangePerm_trans _ _ _ _ _ Hr1 Hr2). }
  destruct (if wb && wp && isIncreasing hint2
            then partialInsertionSort_func less d2 a b else (d2, false))
    as [d3 done] eqn:E3.
  assert (H3 : rangePerm a b d2 d3 ∧ (done = true → sortedRange less a b d3)).
  { destruct (wb && wp && isIncreasing hint2).
    - pose proof (partialInsertionSort_func_spec less d2 a b Hswo Ha
                    ltac:(lia) ltac:(lia) Hlb2) as H.
      rewrite E3 in H. exact H.
    - injection E3 as <- <-. split; [apply rangePerm_refl | discriminate]. }
  destruct H3 as [Hr3 Hdone].
  assert (Hr : rangePerm a b d d3).
  { apply (rangePerm_trans _ _ _ _ _ Hr1).
    exact (rangePerm_trans _ _ _ _ _ Hr2 Hr3). }
  assert (Hl3 : len d3 = len d) by apply (rangePerm_len _ _ _ _ Hr).
  assert (Hlb3 : lowerBound less a b d3)
    by (apply (lowerBound_rangePerm less a b d d3); assumption).
  destruct done.
  { exists d3. split; [reflexivity|]. split; [exact Hr | apply Hdone; reflexivity]. }
  clear Hdone E1 E2 E3.
  destruct (at_inrange d3 pivot2 ltac:(lia)) as [p Hp].
  destruct ((a >? 0) && negb (Less less d3 (a - 1) pivot2)) eqn:Eeq.
  - (* the pivot equals the element before the range *)
    apply andb_true_iff in Eeq as [Ea0 Eless].
    apply Z.gtb_lt in Ea0. apply negb_true_iff in Eless.
    destruct (at_inrange d3 (a - 1) ltac:(lia)) as [v Hv].
    rewrite (Less_at less d3 (a - 1) pivot2 v p Hv Hp) in Eless.
    pose proof (partitionEqual_func_spec less d3 a b pivot2 p
                  (swo_irrefl _ Hswo) Ha ltac:(lia) Hpiv2 Hp) as HPE.
    destruct (partitionEqual_func less d3 a b pivot2) as [d4 mid].
    cbn [fst snd] in HPE. destruct HPE as (Hr4 & Hmid & Hlo & Hhi).
    assert (Hl4 : len d4 = len d)
      by (rewrite (rangePerm_len _ _ _ _ Hr4); exact Hl3).
    assert (Hge : allIn a b d4 (λ y, less y v = false)).
    { apply (rangePerm_allIn a b d3 d4); try assumption; try lia.
      exact (Hlb3 v Hv). }
    assert (Heqv : allIn a mid d4 (λ x, less p x = false ∧ less x p = false)).
    { intros k x Hk Hx. split; [exact (Hlo k x Hk Hx)|].
      apply (swo_negtrans _ Hswo x v p); [|exact Eless].
      apply (Hge k x); [lia | exact Hx]. }
    assert (Hlb4 : lowerBound less mid b d4).
    { intros w Hw k y Hk Hy.
      destruct (Heqv (mid - 1) w ltac:(lia) Hw) as [Hpw _].
      pose proof (Hhi k y Hk Hy) as Hpy. cbn beta in Hpy.
      destruct (less y w) eqn:Hyw; [|reflexivity].
      rewrite (swo_trans _ Hswo p y w Hpy Hyw) in Hpw. discriminate. }
    destruct (IH d4 mid b limit1 wb wp Hswo ltac:(lia) ltac:(lia) ltac:(lia)
                ltac:(lia) Hlb4) as (d5 & E5 & Hr5 & Hs5).
    exists d5. split; [exact E5|]. split.
    + apply (rangePerm_trans _ _ _ _ _ Hr).
      apply (rangePerm_trans _ _ _ _ _ Hr4).
      apply (rangePerm_widen mid b); [lia | lia | exact Hr5].
    + apply (sortedRange_join a mid b).
      * apply (sortedRange_rangePerm_outside less a mid mid b d4 d5);
          [exact Hr5 | lia |].
        exact (sortedRange_equivalent a mid d4 p Hswo Heqv).
      * exact Hs5.
      * intros _ Hmb.
        destruct (at_inrange d4 (mid - 1) ltac:(lia)) as [w Hw].
        destruct (at_inrange d5 mid
                    ltac:(rewrite (rangePerm_len _ _ _ _ Hr5); lia)) as [y Hy].
        assert (Hw5 : at_ d5 (mid - 1) = Some w)
          by (rewrite (proj2 Hr5) by lia; exact Hw).
        rewrite (Less_at less d5 mid (mid - 1) y w Hy Hw5).
        exact (lowerBound_rangePerm less mid b d4 d5 ltac:(lia)
                 ltac:(lia) ltac:(lia) Hr5 Hlb4 w Hw5 mid y ltac:(lia) Hy).
  - (* the usual partition *)
    clear Eeq.
    pose proof (partition_func_spec less d3 a b pivot2 p Ha ltac:(lia) Hpiv2 Hp)
      as HP.
    destruct (partition_func less d3 a b pivot2) as [[d4 mid] ap].
    cbn [fst snd] in HP. destruct HP as (Hr4 & Hmid & Hpm & Hlo & Hhi).
    assert (Hl4 : len d4 = len d)
      by (rewrite (rangePerm_len _ _ _ _ Hr4); exact Hl3).
    assert (Hlb4 : lowerBound less a mid d4).
    { apply (lowerBound_sub less a b); [lia|].
      apply (lowerBound_rangePerm less a b d3 d4); assumption || lia. }
    assert (Hub4 : lowerBound less (mid + 1) b d4).
    { intros w Hw. replace (mid + 1 - 1) with mid in Hw by lia.
      rewrite Hpm in Hw. injection Hw as <-. exact Hhi. }
    assert (Hfin : ∀ d6, rangePerm a b d4 d6 →
              sortedRange less a mid d6 → sortedRange less (mid + 1) b d6 →
              at_ d6 mid = Some p →
              allIn a mid d6 (λ x, less x p = true) →
              allIn (mid + 1) b d6 (λ x, less x p = false) →
              rangePerm a b d d6 ∧ sortedRange less a b d6).
    { intros d6 Hr6 Hs1 Hs2 Hp6 Hlo6 Hhi6. split.
      - apply (rangePerm_trans _ _ _ _ _ Hr).
        exact (rangePerm_trans _ _ _ _ _ Hr4 Hr6).
      - exact (sortedRange_pivot a mid b d6 p Hswo Hs1 Hs2 Hp6 Hlo6 Hhi6). }
    destruct (mid - a <? b - mid).
    + destruct (IH d4 a mid limit1 true true Hswo ltac:(lia) ltac:(lia)
                  ltac:(lia) ltac:(lia) Hlb4) as (d5 & E5 & Hr5 & Hs5).
      rewrite E5. cbn [mbind option_bind].
      assert (Hl5 : len d5 = len d)
        by (rewrite (rangePerm_len _ _ _ _ Hr5); exact Hl4).
      destruct (IH d5 (mid + 1) b limit1 (mid - a >=? Z.quot (b - a) 8) ap Hswo
                  ltac:(lia) ltac:(lia) ltac:(lia) ltac:(lia)
                  (lowerBound_outside (mid + 1) b a mid d4 d5 Hr5 ltac:(lia) Hub4))
        as (d6 & E6 & Hr6 & Hs6).
      exists d6. split; [exact E6|]. apply Hfin.
      * apply (rangePerm_trans a b d4 d5).
        -- apply (rangePerm_widen a mid); [lia | lia | exact Hr5].
        -- apply (rangePerm_widen (mid + 1) b); [lia | lia | exact Hr6].
      * apply (sortedRange_rangePerm_outside less a mid (mid + 1) b d5 d6);
          [exact Hr6 | lia | exact Hs5].
      * exact Hs6.
      * rewrite (proj2 Hr6), (proj2 Hr5) by lia. exact Hpm.
      * apply (allIn_outside a mid (mid + 1) b d5 d6); [exact Hr6 | lia |].
        apply (rangePerm_allIn a mid d4 d5); assumption || lia.
      * apply (rangePerm_allIn (mid + 1) b d5 d6); try assumption; try lia.
        apply (allIn_outside (mid + 1) b a mid d4 d5); [exact Hr5 | lia | exact Hhi].
    + destruct (IH d4 (mid + 1) b limit1 true true Hswo ltac:(lia) ltac:(lia)
                  ltac:(lia) ltac:(lia) Hub4) as (d5 & E5 & Hr5 & Hs5).
      rewrite E5. cbn [mbind option_bind].
      assert (Hl5 : len d5 = len d)
        by (rewrite (rangePerm_len _ _ _ _ Hr5); exact Hl4).
      destruct (IH d5 a mid limit1 (b - mid >=? Z.quot (b - a) 8) ap Hswo
                  ltac:(lia) ltac:(lia) ltac:(lia) ltac:(lia)
                  (lowerBound_outside a mid (mid + 1) b d4 d5 Hr5 ltac:(lia) Hlb4))
        as (d6 & E6 & Hr6 & Hs6).
      exists d6. split; [exact E6|]. apply Hfin.
      * apply (rangePerm_trans a b d4 d5).
        -- apply (rangePerm_widen (mid + 1) b); [lia | lia | exact Hr5].
        -- apply (rangePerm_widen a mid); [lia | lia | exact Hr6].
      * exact Hs6.
      * apply (sortedRange_rangePerm_outside less (mid + 1) b a mid d5 d6);
          [exact Hr6 | lia | exact Hs5].
      * rewrite (proj2 Hr6), (proj2 Hr5) by lia. exact Hpm.
      * apply (rangePerm_allIn a mid d5 d6); try assumption; try lia.
        apply (allIn_outside a mid (mid + 1) b d4 d5); [exact Hr5 | lia | exact Hlo].
      * apply (allIn_outside (mid + 1) b a mid d5 d6); [exact Hr6 | lia |].
        apply (rangePerm_allIn (mid + 1) b d4 d5); assumption || lia.
Qed.

End PdqsortFacts.

(* ===================================================================== *)
(** * [sort.Slice] only swaps                                             *)
(* ===================================================================== *)

Section SwapOnlyFacts.
Context {A : Type} (less : A → A → bool).
Import sort.
Local Abbreviation len := gostring.len_list.

Ltac split_ifs :=
  repeat match goal with
         | |- context [if ?c then _ else _] => destruct c
         end.

Ltac swaps_only IH :=
  split_ifs; cbn [fst snd]; try reflexivity;
  try (rewrite IH; apply Swap_Permutation).

Lemma insertionInner_perm (n : nat) : ∀ (d : list A) a j,
  insertionInner less n d a j ≡ₚ d.
Proof.
  induction n as [|n IH]; intros d a j; cbn [insertionInner];
    [reflexivity | swaps_only IH].
Qed.

Lemma insertionOuter_perm (n : nat) : ∀ (d : list A) a i,
  insertionOuter less n d a i ≡ₚ d.
Proof.
  induction n as [|n IH]; intros d a i; cbn [insertionOuter]; [reflexivity|].
  rewrite IH. apply insertionInner_perm.
Qed.

Lemma insertionSort_func_perm (d : list A) a b :
  insertionSort_func less d a b ≡ₚ d.
Proof. apply insertionOuter_perm. Qed.

Lemma siftDownLoop_perm (n : nat) : ∀ (d : list A) root hi first,
  siftDownLoop less n d root hi first ≡ₚ d.
Proof.
  induction n as [|n IH]; intros d root hi first; cbn [siftDownLoop];
    [reflexivity | swaps_only IH].
Qed.

Lemma heapBuild_perm (n : nat) : ∀ (d : list A) hi first,
  heapBuild less n d hi first ≡ₚ d.
Proof.
  induction n as [|n IH]; intros d hi first; cbn [heapBuild]; [reflexivity|].
  rewrite IH. apply siftDownLoop_perm.
Qed.

Lemma heapPop_perm (n : nat) : ∀ (d : list A) lo first,
  heapPop less n d lo first ≡ₚ d.
Proof.
  induction n as [|n IH]; intros d lo first; cbn [heapPop]; [reflexivity|].
  rewrite IH. unfold siftDown_func. rewrite siftDownLoop_perm.
  apply Swap_Permutation.
Qed.

Lemma heapSort_func_perm (d : list A) a b : heapSort_func less d a b ≡ₚ d.
Proof. unfold heapSort_func. rewrite heapPop_perm. apply heapBuild_perm. Qed.

Lemma breakLoop_perm (n : nat) : ∀ (d : list A) a length idx i random modulus,
  breakLoop n d a length idx i random modulus ≡ₚ d.
Proof.
  induction n as [|n IH]; intros d a length idx i random modulus;
    cbn [breakLoop]; [reflexivity|].
  rewrite IH. apply Swap_Permutation.
Qed.

Lemma breakPatterns_func_perm (d : list A) a b : breakPatterns_func d a b ≡ₚ d.
Proof.
  unfold breakPatterns_func. destruct (b - a >=? 8); [|reflexivity].
  apply breakLoop_perm.
Qed.

Lemma reverseLoop_perm (n : nat) : ∀ (d : list A) i j,
  reverseLoop n d i j ≡ₚ d.
Proof.
  induction n as [|n IH]; intros d i j; cbn [reverseLoop];
    [reflexivity | swaps_only IH].
Qed.

Lemma shiftLeft_perm (n : nat) : ∀ (d : list A) j, shiftLeft less n d j ≡ₚ d.
Proof.
  induction n as [|n IH]; intros d j; cbn [shiftLeft];
    [reflexivity | swaps_only IH].
Qed.

Lemma shiftRight_perm (n : nat) : ∀ (d : list A) j b,
  shiftRight less n d j b ≡ₚ d.
Proof.
  induction n as [|n IH]; intros d j b; cbn [shiftRight];
    [reflexivity | swaps_only IH].
Qed.

Lemma partialInsertionLoop_perm (steps : nat) : ∀ (d : list A) a b i,
  fst (partialInsertionLoop less steps d a b i) ≡ₚ d.
Proof.
  induction steps as [|steps IH]; intros d a b i; cbn [partialInsertionLoop];
    [reflexivity|].
  destruct (_ =? b); [reflexivity|].
  destruct (b - a <? shortestShifting); [reflexivity|].
  rewrite IH.
  destruct (b - _ >=? 2); destruct (_ - a >=? 2);
    rewrite ?shiftRight_perm, ?shiftLeft_perm; apply Swap_Permutation.
Qed.

Lemma partialInsertionSort_func_perm (d : list A) a b :
  fst (partialInsertionSort_func less d a b) ≡ₚ d.
Proof. apply partialInsertionLoop_perm. Qed.

Lemma partitionLoop_perm (n : nat) : ∀ (d : list A) a i j,
  fst (partitionLoop less n d a i j) ≡ₚ d.
Proof.
  induction n as [|n IH]; intros d a i j; [reflexivity|].
  cbn [partitionLoop].
  set (i1 := scanUp less (Z.to_nat (j - i + 1)) d a i j).
  set (j1 := scanDown less (Z.to_nat (j - i1 + 1)) d a i1 j).
  destruct (i1 >? j1); [reflexivity|].
  rewrite IH. apply Swap_Permutation.
Qed.

Lemma partition_func_perm (d : list A) a b pivot :
  fst (fst (partition_func less d a b pivot)) ≡ₚ d.
Proof.
  unfold partition_func. destruct (_ >? _).
  - cbn [fst]. rewrite !Swap_Permutation. reflexivity.
  - match goal with
    | |- context [partitionLoop less ?n ?d0 ?a0 ?i0 ?j0] =>
        pose proof (partitionLoop_perm n d0 a0 i0 j0) as H;
        destruct (partitionLoop less n d0 a0 i0 j0) as [dL jL]
    end.
    cbn [fst] in *. rewrite Swap_Permutation, H, !Swap_Permutation.
    reflexivity.
Qed.

Lemma partitionEqualLoop_S (n : nat) (d : list A) a i j :
  partitionEqualLoop less (S n) d a i j =
  let i1 := scanUpEq less (Z.to_nat (j - i + 1)) d a i j in
  let j1 := scanDownEq less (Z.to_nat (j - i1 + 1)) d a i1 j in
  if i1 >? j1 then (d, i1)
  else partitionEqualLoop less n (Swap d i1 j1) a (i1 + 1) (j1 - 1).
Proof. reflexivity. Qed.

Lemma partitionEqualLoop_perm (n : nat) : ∀ (d : list A) a i j,
  fst (partitionEqualLoop less n d a i j) ≡ₚ d.
Proof.
  induction n as [|n IH]; intros d a i j; [reflexivity|].
  rewrite partitionEqualLoop_S. cbv zeta.
  destruct (_ >? _); [reflexivity|].
  rewrite IH. apply Swap_Permutation.
Qed.

Lemma partitionEqual_func_perm (d : list A) a b pivot :
  fst (partitionEqual_func less d a b pivot) ≡ₚ d.
Proof.
  unfold partitionEqual_func. rewrite partitionEqualLoop_perm.
  apply Swap_Permutation.
Qed.

(** Whatever [less] is, [pdqsort_func] rearranges the slice. *)
Lemma pdqsortLoop_perm (fuel : nat) : ∀ (d : list A) a b limit wb wp d',
  pdqsortLoop less fuel d a b limit wb wp = Some d' → d' ≡ₚ d.
Proof.
  induction fuel as [|fuel IH]; intros d a b limit wb wp d'; [discriminate|].
  cbn [pdqsortLoop].
  destruct (Z.leb_spec (b - a) maxInsertion) as [Hsmall|Hbig].
  { intros [= <-]. apply insertionSort_func_perm. }
  destruct (Z.eqb_spec limit 0) as [Hlim|Hlim].
  { intros [= <-]. apply heapSort_func_perm. }
  destruct (if negb wb then (breakPatterns_func d a b, limit - 1) else (d, limit))
    as [d1 limit1] eqn:E1.
  assert (H1 : d1 ≡ₚ d).
  { destruct (negb wb); injection E1 as <- _;
      [apply breakPatterns_func_perm | reflexivity]. }
  destruct (choosePivot_func less d1 a b) as [pivot hint].
  destruct (if isDecreasing hint
            then (reverseRange_func d1 a b, b - 1 - (pivot - a), increasingHint)
            else (d1, pivot, hint)) as [[d2 pivot2] hint2] eqn:E2.
  assert (H2 : d2 ≡ₚ d1).
  { destruct (isDecreasing hint); injection E2 as <- _ _;
      [apply reverseLoop_perm | reflexivity]. }
  destruct (if wb && wp && isIncreasing hint2
            then partialInsertionSort_func less d2 a b else (d2, false))
    as [d3 done] eqn:E3.
  assert (H3 : d3 ≡ₚ d2).
  { destruct (wb && wp && isIncreasing hint2).
    - pose proof (partialInsertionSort_func_perm d2 a b) as H.
      rewrite E3 in H. exact H.
    - injection E3 as <- _. reflexivity. }
  assert (H : d3 ≡ₚ d) by (rewrite H3, H2; exact H1).
  clear E1 E2 E3 H1 H2 H3.
  destruct done; [intros [= <-]; exact H|].
  destruct ((a >? 0) && negb (Less less d3 (a - 1) pivot2)).
  - pose proof (partitionEqual_func_perm d3 a b pivot2) as H4.
    destruct (partitionEqual_func less d3 a b pivot2) as [d4 mid].
    cbn [fst] in H4. intros E. apply IH in E. rewrite E, H4. exact H.
  - pose proof (partition_func_perm d3 a b pivot2) as H4.
    destruct (partition_func less d3 a b pivot2) as [[d4 mid] ap].
    cbn [fst] in H4.
    destruct (mid - a <? b - mid).
    + destruct (pdqsortLoop less fuel d4 a mid limit1 true true) as [d5|] eqn:E5;
        cbn [mbind option_bind]; [|discriminate].
      intros E. apply IH in E5, E. rewrite E, E5, H4. exact H.
    + destruct (pdqsortLoop less fuel d4 (mid + 1) b limit1 true true)
        as [d5|] eqn:E5; cbn [mbind option_bind]; [|discriminate].
      intros E. apply IH in E5, E. rewrite E, E5, H4. exact H.
Qed.

Lemma segment_whole (d : list A) : segment 0 (len d) d = d.
Proof.
  unfold segment, gostring.len_list. cbn [Z.to_nat drop].
  rewrite Z.sub_0_r, Nat2Z.id. apply firstn_all.
Qed.

(** [sort.Slice] returns, with the slice rearranged into an order where
    no element is less than its predecessor. *)
Lemma Slice_sorts (x : list A) :
  StrictWeakOrder less →
  ∃ x', Slice less x = Some x' ∧ x' ≡ₚ x
        ∧ Sorted (λ a b, less b a = false) x'.
Proof.
  intros Hswo. unfold Slice, pdqsort_func.
  destruct (pdqsortLoop_spec less (S (Z.to_nat (len x - 0))) x 0 (len x)
              (bitsLen (len x)) true true Hswo)
    as (x' & E & Hr & Hs); unfold gostring.len_list in *; try lia.
  { intros v Hv. discriminate. }
  exists x'. split; [exact E|]. split; [exact (proj1 Hr)|].
  pose proof (rangePerm_len _ _ _ _ Hr) as Hl.
  unfold gostring.len_list in Hl.
  rewrite <- (segment_whole x'). unfold gostring.len_list.
  rewrite Hl. apply segment_sortedRange; unfold gostring.len_list; try lia.
  exact Hs.
Qed.

End SwapOnlyFacts.

Section PdqRuntime.

Lemma pdqSlice_perm (A : Type) (less : A → A → bool) (x : list A) :
  pdqSlice A less x ≡ₚ x.
Proof.
  unfold pdqSlice, sort.Slice, sort.pdqsort_func.
  destruct (sort.pdqsortLoop less _ x 0 _ _ true true) as [x'|] eqn:E;
    cbn [default]; [|reflexivity].
  exact (pdqsortLoop_perm less _ _ _ _ _ _ _ _ E).
Qed.

Lemma pdqSlice_sorted (A : Type) (less : A → A → bool) (x : list A) :
  StrictWeakOrder less →
  Sorted (λ a b, less b a = false) (pdqSlice A less x).
Proof.
  intros Hswo. unfold pdqSlice.
  destruct (Slice_sorts less x Hswo) as (x' & -> & _ & Hs). exact Hs.
Qed.

End PdqRuntime.

(** The runtime of Go keeps the contract, whichever way it ranges over
    a map: from the last entry to the first, or from the first to the
    last. *)
Definition lawfulPdqRuntime : LawfulRuntime :=
  mkLawfulRuntime pdqRuntime pdqSlice_perm pdqSlice_sorted reverse_perm.

Definition lawfulForwardRuntime : LawfulRuntime :=
  mkLawfulRuntime (mkRuntime pdqSlice id)
    pdqSlice_perm pdqSlice_sorted
    (λ entries, Permutation_refl entries).

(* ===================================================================== *)
(** * More on the Log File Locator                                        *)
(* ===================================================================== *)

Section LocatorMore.
Import gostring filepath time.

Lemma prefix_split (p : string) : ∀ s,
  String.prefix p s = true → ∃ r, s = p +:+ r.
Proof.
  induction p as [|a p IH]; intros s H.
  - exists s. reflexivity.
  - destruct s as [|b s]; [discriminate|]. cbn [String.prefix] in H.
    destruct (ascii_dec a b) as [->|]; [|discriminate].
    destruct (IH s H) as [r ->]. exists r. reflexivity.
Qed.

(** A name matched by [gym-stats-*.csv] holds no separator, so it is its
    own base name, and it is at least 14 bytes long. *)
Lemma matchGymStats_plain name :
  matchGymStats name = true → hasSeparator name = false ∧ name ≠ "".
Proof.
  unfold matchGymStats. intros H.
  apply andb_true_iff in H as [Hp H]. apply andb_true_iff in H as [_ Hs].
  apply negb_true_iff in Hs.
  destruct (prefix_split _ _ Hp) as [r ->].
  split; [|discriminate].
  rewrite hasSeparator_app. change (hasSeparator "gym-stats-") with false.
  cbn [orb].
  unfold slice, len in Hs.
  rewrite length_append in Hs.
  replace (Z.to_nat 10) with (String.length "gym-stats-") in Hs by reflexivity.
  rewrite substring_skip in Hs.
  replace (Z.to_nat _) with (String.length r) in Hs
    by (cbn [String.length]; lia).
  rewrite substring_all in Hs. exact Hs.
Qed.

Lemma Glob_Base (names : list string) file :
  List.In file (Glob names) → Base file = file.
Proof.
  unfold Glob. rewrite filter_In. intros [_ H].
  apply matchGymStats_plain in H as [H1 H2]. apply Base_plain; assumption.
Qed.

(** The test of the range loop, for any file name. *)
Lemma inRange_select from to file :
  validCivil from → validCivil to →
  cHour from = 0 ∧ cMin from = 0 ∧ cSec from = 0 →
  cHour to = 0 ∧ cMin to = 0 ∧ cSec to = 0 →
  inRange (civilTime from) (civilTime to) file = true
  ↔ 20 <= len (Base file)
    ∧ ∃ d, parseCivil layoutCompactDate (slice (Base file) 10 18) = Some d
           ∧ dateLe from d ∧ dateLe d to.
Proof.
  intros Hf Ht Hf0 Ht0. unfold inRange.
  destruct (Z.ltb_spec (len (Base file)) 20) as [Hlt|Hge].
  { split; [discriminate | intros [H _]; lia]. }
  destruct (parseCivil layoutCompactDate (slice (Base file) 10 18)) as [d|] eqn:Hd.
  2: { unfold Parse. rewrite Hd. cbn.
       split; [discriminate | intros (_ & d & [=] & _)]. }
  pose proof (parseCivil_valid _ _ _ Hd) as Hdv.
  assert (Hd0 : cHour d = 0 ∧ cMin d = 0 ∧ cSec d = 0)
    by (eapply parseCivil_midnight; [|exact Hd]; reflexivity).
  assert (E : Parse layoutCompactDate (slice (Base file) 10 18) = Some (civilTime d))
    by (apply Parse_civil; eauto).
  rewrite E, AddDate_one_day by assumption.
  unfold Equal, After, Before. cbn [unixSec].
  rewrite andb_true_iff, !orb_true_iff, !Z.eqb_eq, !Z.ltb_lt.
  split.
  - intros [H1 H2]. split; [lia|]. exists d. split; [reflexivity|].
    rewrite (dateLe_unixSec from d), (dateLe_unixSec d to) by assumption.
    split; [lia|].
    destruct H2 as [H2|H2]; [lia|].
    destruct (Z.le_gt_cases (unixSec (civilTime d)) (unixSec (civilTime to)))
      as [|Hgt]; [assumption|].
    pose proof (dateLt_unixSec_day to d Ht Hdv Ht0 Hd0 ltac:(lia)). lia.
  - intros (_ & d' & [= <-] & H1 & H2).
    rewrite (dateLe_unixSec from d) in H1 by assumption.
    rewrite (dateLe_unixSec d to) in H2 by assumption.
    split; lia.
Qed.

(** The loop over the matches of [findLatestCSV]: the result is the
    start, or the first of the files with the greatest modification
    time, when that time is after the one of the start. *)
Lemma latest_fold (w : World) (files : list string) : ∀ latestFile latestTime,
  let step := λ '(latestFile, latestTime) file,
                match statModTime w file with
                | None => (latestFile, latestTime)
                | Some modTime =>
                    if latestTime <? modTime then (file, modTime)
                    else (latestFile, latestTime)
                end in
  let result := foldl step (latestFile, latestTime) files in
  (∀ file t, List.In file files → statModTime w file = Some t → t <= snd result)
  ∧ (result = (latestFile, latestTime)
     ∨ ∃ pre post,
         files = (pre ++ fst result :: post)%list
         ∧ statModTime w (fst result) = Some (snd result)
         ∧ latestTime < snd result
         ∧ ∀ file t, List.In file pre → statModTime w file = Some t →
                     t < snd result).
Proof.
  induction files as [|x rest IH]; intros f0 t0; cbv zeta.
  - cbn [foldl]. split; [intros file t' []|]. left. reflexivity.
  - cbn [foldl].
    destruct (statModTime w x) as [tx|] eqn:Ex.
    + destruct (Z.ltb_spec t0 tx) as [Hlt|Hge].
      * specialize (IH x tx). cbv zeta in IH. destruct IH as [Hmax Hres].
        destruct (foldl _ (x, tx) rest) as [f t]. cbn [fst snd] in *.
        assert (Htx : tx <= t).
        { destruct Hres as [[= -> ->]|(pre & post & _ & _ & H & _)]; lia. }
        split.
        -- intros file t' [<-|Hin] Hs; [|eauto].
           rewrite Ex in Hs. injection Hs as <-. exact Htx.
        -- right. destruct Hres as [E|(pre & post & -> & Hs & Hlt' & Hpre)].
           ++ exists [], rest. injection E as -> ->. cbn [app].
              repeat split; try assumption. intros file t' [].
           ++ exists (x :: pre), post. repeat split; try assumption; [lia|].
              intros file t' [<-|Hin] Hst; [|eauto].
              rewrite Ex in Hst. injection Hst as <-. exact Hlt'.
      * specialize (IH f0 t0). cbv zeta in IH. destruct IH as [Hmax Hres].
        destruct (foldl _ (f0, t0) rest) as [f t]. cbn [fst snd] in *.
        assert (Ht0 : t0 <= t).
        { destruct Hres as [[= -> ->]|(pre & post & _ & _ & H & _)]; lia. }
        split.
        -- intros file t' [<-|Hin] Hs; [|eauto].
           rewrite Ex in Hs. injection Hs as <-. lia.
        -- destruct Hres as [E|(pre & post & -> & Hs & Hlt' & Hpre)];
             [left; exact E | right].
           exists (x :: pre), post. repeat split; try assumption.
           intros file t' [<-|Hin] Hst; [|eauto].
           rewrite Ex in Hst. injection Hst as <-. lia.
    + specialize (IH f0 t0). cbv zeta in IH. destruct IH as [Hmax Hres].
      destruct (foldl _ (f0, t0) rest) as [f t]. cbn [fst snd] in *.
      split.
      * intros file t' [<-|Hin] Hs; [congruence | eauto].
      * destruct Hres as [E|(pre & post & -> & Hs & Hlt' & Hpre)];
          [left; exact E | right].
        exists (x :: pre), post. repeat split; try assumption.
        intros file t' [<-|Hin] Hst; [congruence | eauto].
Qed.

(** No date lies in a range whose start is after its end. *)
Lemma inverted_range_empty w fromDate toDate from to :
  parseCivil layoutDate fromDate = Some from →
  parseCivil layoutDate toDate = Some to →
  dateLt to from →
  Glob (dirNames w) ≠ [] →
  findCSVFilesInRange w fromDate toDate = ([], None).
Proof.
  intros Hf Ht Hlt Hne.
  rewrite (findCSVFilesInRange_filter w fromDate toDate (civilTime from) (civilTime to))
    by (try assumption; apply Parse_civil; eauto).
  f_equal.
  assert (Hout : ∀ file, inRange (civilTime from) (civilTime to) file = false).
  { intros file.
    destruct (inRange (civilTime from) (civilTime to) file) eqn:E; [|reflexivity].
    exfalso. apply inRange_select in E as (_ & d & _ & H1 & H2).
    - unfold dateLe, dateLt, dateEq in *. lia.
    - eapply parseCivil_valid; eauto.
    - eapply parseCivil_valid; eauto.
    - eapply parseCivil_midnight; [|exact Hf]; reflexivity.
    - eapply parseCivil_midnight; [|exact Ht]; reflexivity. }
  clear Hne. induction (Glob (dirNames w)) as [|file files IH]; [reflexivity|].
  cbn [List.filter]. rewrite Hout. exact IH.
Qed.

End LocatorMore.

(* ===================================================================== *)
(** * More on the Row Parser                                              *)
(* ===================================================================== *)

Section ParserMore.

Lemma findColumns_cons header headers i c :
  findColumns (header :: headers) i c
  = findColumns headers (i + 1) (headerStep header i c).
Proof. reflexivity. Qed.

(** A column position after the header loop: the position it had before
    when no header bears the name, and else the position of the last
    header that does. *)
Lemma findColumns_last (F : columns → Z) (name : string) :
  (∀ header i c,
     F (headerStep header i c) = if String.eqb header name then i else F c) →
  ∀ headers i c,
    (F (findColumns headers i c) = F c ∧ ¬ List.In name headers)
    ∨ ∃ k : nat,
        F (findColumns headers i c) = i + Z.of_nat k
        ∧ headers !! k = Some name
        ∧ ∀ j, (k < j)%nat → headers !! j ≠ Some name.
Proof.
  intros HF. induction headers as [|h rest IH]; intros i c.
  - left. split; [reflexivity | intros []].
  - rewrite findColumns_cons.
    specialize (IH (i + 1) (headerStep h i c)). rewrite HF in IH.
    destruct (String.eqb_spec h name) as [->|Hne].
    + right. destruct IH as [[E Hnot]|(k & E & Hk & Hlast)].
      * exists 0%nat. split; [lia|]. split; [reflexivity|].
        intros [|j] Hj; [lia|]. cbn. intros Hin. apply Hnot.
        apply list_elem_of_In, (list_elem_of_lookup_2 _ j). exact Hin.
      * exists (S k). split; [lia|]. split; [exact Hk|].
        intros [|j] Hj; [lia|]. cbn. apply Hlast. lia.
    + destruct IH as [[E Hnot]|(k & E & Hk & Hlast)].
      * left. split; [exact E|]. intros [H|H]; [congruence | contradiction].
      * right. exists (S k). split; [lia|]. split; [exact Hk|].
        intros [|j] Hj; [lia|]. cbn. apply Hlast. lia.
Qed.

Lemma headerStep_timestamp header i c :
  timestampIdx (headerStep header i c)
  = if String.eqb header "timestamp" then i else timestampIdx c.
Proof.
  unfold headerStep.
  destruct (String.eqb header "timestamp"); [reflexivity|].
  destruct (String.eqb header "location_name"); [reflexivity|].
  destruct (String.eqb header "user_count"); [reflexivity|].
  destruct (String.eqb header "status"); reflexivity.
Qed.

Lemma headerStep_locationName header i c :
  locationNameIdx (headerStep header i c)
  = if String.eqb header "location_name" then i else locationNameIdx c.
Proof.
  unfold headerStep.
  destruct (String.eqb_spec header "timestamp") as [->|]; [reflexivity|].
  destruct (String.eqb header "location_name"); [reflexivity|].
  destruct (String.eqb header "user_count"); [reflexivity|].
  destruct (String.eqb header "status"); reflexivity.
Qed.

Lemma headerStep_userCount header i c :
  userCountIdx (headerStep header i c)
  = if String.eqb header "user_count" then i else userCountIdx c.
Proof.
  unfold headerStep.
  destruct (String.eqb_spec header "timestamp") as [->|]; [reflexivity|].
  destruct (String.eqb_spec header "location_name") as [->|]; [reflexivity|].
  destruct (String.eqb header "user_count"); [reflexivity|].
  destruct (String.eqb header "status"); reflexivity.
Qed.

Lemma headerStep_status header i c :
  statusIdx (headerStep header i c)
  = if String.eqb header "status" then i else statusIdx c.
Proof.
  unfold headerStep.
  destruct (String.eqb_spec header "timestamp") as [->|]; [reflexivity|].
  destruct (String.eqb_spec header "location_name") as [->|]; [reflexivity|].
  destruct (String.eqb_spec header "user_count") as [->|]; [reflexivity|].
  destruct (String.eqb header "status"); reflexivity.
Qed.

Lemma headerColumns_lastPosition (F : columns → Z) (name : string) headers :
  (∀ header i c,
     F (headerStep header i c) = if String.eqb header name then i else F c) →
  F (mkColumns (-1) (-1) (-1) (-1)) = -1 →
  lastPosition name headers (F (headerColumns headers)).
Proof.
  intros HF H0. unfold headerColumns, lastPosition.
  destruct (findColumns_last F name HF headers 0 (mkColumns (-1) (-1) (-1) (-1)))
    as [[E Hnot]|(k & E & Hk & Hlast)].
  - left. split; [congruence | exact Hnot].
  - right. rewrite E. split; [lia|].
    replace (Z.to_nat (0 + Z.of_nat k)) with k by lia. split; assumption.
Qed.

End ParserMore.

(* ===================================================================== *)
(** * More on the Aggregator                                              *)
(* ===================================================================== *)

Section AggregatorMore.

(** The error of [processCSVFile] does not depend on the accumulator. *)
Lemma processCSVFile_error w csvFile (m m' : gmap string (list DataPoint)) :
  snd (processCSVFile w csvFile m) = snd (processCSVFile w csvFile m').
Proof.
  unfold processCSVFile.
  destruct (openCSV w csvFile) as [[|[headers|] rows]|]; try reflexivity.
  destruct (_ || _); reflexivity.
Qed.

Lemma processCSVFile_fails w csvFile m :
  fileFails w csvFile →
  ∃ e, processCSVFile w csvFile m = (m, Some e).
Proof.
  intros Hf. destruct (processCSVFile_spec w csvFile m) as [[_ H]|[H _]];
    [exact H | contradiction].
Qed.

Lemma processFiles_app w pre : ∀ rest m,
  (∀ csvFile, List.In csvFile pre → ¬ fileFails w csvFile) →
  processFiles w (pre ++ rest) m
  = processFiles w rest (foldl appendPoint m (allPoints w pre)).
Proof.
  induction pre as [|f pre IH]; intros rest m Hok; [reflexivity|].
  cbn [app processFiles].
  destruct (processCSVFile_spec w f m) as [[Hf _]|[_ ->]].
  - exfalso. apply (Hok f); [left; reflexivity | exact Hf].
  - rewrite IH by (intros g Hg; apply Hok; right; exact Hg).
    unfold allPoints. cbn [mbind list_bind]. rewrite foldl_appendPoint_app.
    reflexivity.
Qed.

Lemma processFiles_ok w csvFiles m :
  (∀ csvFile, List.In csvFile csvFiles → ¬ fileFails w csvFile) →
  processFiles w csvFiles m
  = (foldl appendPoint m (allPoints w csvFiles), None).
Proof.
  intros Hok. destruct (processFiles_spec w csvFiles m)
    as [(f & e & m' & Hin & Hf & _)|[_ H]]; [|exact H].
  exfalso. exact (Hok f Hin Hf).
Qed.

Lemma convertCSVFilesToJSON_success (rt : Runtime) w csvFiles :
  (∀ csvFile, List.In csvFile csvFiles → ¬ fileFails w csvFile) →
  convertCSVFilesToJSON rt w csvFiles
  = (sortSlice rt _ lessLabel
       (entryDataset rt
          <$> rangeMap rt
                (map_to_list (foldl appendPoint ∅ (allPoints w csvFiles)))),
     None).
Proof.
  intros Hok. rewrite convertCSVFilesToJSON_unfold, processFiles_ok by assumption.
  reflexivity.
Qed.

Lemma allPoints_app w (l1 l2 : list string) :
  allPoints w (l1 ++ l2) = (allPoints w l1 ++ allPoints w l2)%list.
Proof. unfold allPoints. apply bind_app. Qed.

Lemma allPoints_Permutation w (l1 l2 : list string) :
  l1 ≡ₚ l2 → allPoints w l1 ≡ₚ allPoints w l2.
Proof. intros H. unfold allPoints. rewrite H. reflexivity. Qed.

Lemma pointsAt_Permutation L (l1 l2 : list (string * DataPoint)) :
  l1 ≡ₚ l2 → pointsAt L l1 ≡ₚ pointsAt L l2.
Proof. intros H. unfold pointsAt. rewrite H. reflexivity. Qed.

Lemma pointsAt_elem L p (points : list (string * DataPoint)) :
  p ∈ pointsAt L points ↔ (L, p) ∈ points.
Proof.
  unfold pointsAt. rewrite list_elem_of_omap. split.
  - intros ([l q] & Hin & H). cbn [fst snd] in H.
    destruct (decide (l = L)) as [->|]; [|discriminate].
    injection H as ->. exact Hin.
  - intros Hin. exists (L, p). split; [exact Hin|]. cbn [fst snd].
    rewrite decide_True by reflexivity. reflexivity.
Qed.

(** The labelled points of the output are the entries of the map. *)
Lemma labelledPoints_output (rt : LawfulRuntime)
  (m : gmap string (list DataPoint)) :
  labelledPoints
    (sortSlice rt _ lessLabel (entryDataset rt <$> rangeMap rt (map_to_list m)))
  ≡ₚ mapPoints m.
Proof.
  unfold labelledPoints. rewrite output_Permutation, list_fmap_bind.
  unfold mapPoints. apply bind_Permutation_pointwise.
  intros [l ps]. unfold compose, entryDataset. cbn [Label Data fst snd].
  rewrite sortSlice_perm. reflexivity.
Qed.

Lemma labelledPoints_allPoints (rt : LawfulRuntime) w csvFiles :
  labelledPoints
    (sortSlice rt _ lessLabel
       (entryDataset rt
          <$> rangeMap rt
                (map_to_list (foldl appendPoint ∅ (allPoints w csvFiles)))))
  ≡ₚ allPoints w csvFiles.
Proof.
  rewrite labelledPoints_output, mapPoints_foldl, mapPoints_empty. reflexivity.
Qed.

(** The datasets of the output, one by one. *)
Lemma output_elem (rt : LawfulRuntime) (points : list (string * DataPoint)) d :
  d ∈ sortSlice rt _ lessLabel
        (entryDataset rt
           <$> rangeMap rt (map_to_list (foldl appendPoint ∅ points)))
  ↔ pointsAt (Label d) points ≠ []
    ∧ d = mkDataset (Label d)
                    (sortSlice rt _ lessX (pointsAt (Label d) points)).
Proof.
  rewrite output_Permutation, list_elem_of_fmap. split.
  - intros ([l ps] & -> & Hin). apply elem_of_map_to_list in Hin.
    apply lookup_allPoints in Hin as [-> Hne].
    unfold entryDataset. cbn [Label Data fst snd]. split; [exact Hne | reflexivity].
  - intros [Hne ->]. exists (Label d, pointsAt (Label d) points).
    split; [reflexivity|]. apply elem_of_map_to_list.
    rewrite lookup_foldl_appendPoint, lookup_empty.
    destruct (pointsAt (Label d) points); [contradiction | reflexivity].
Qed.

Lemma le_Transitive : Transitive (λ a b : string, gostring.le a b = true).
Proof. intros a b c. apply le_trans. Qed.

Lemma le_AntiSymm : AntiSymm eq (λ a b : string, gostring.le a b = true).
Proof. intros a b. apply le_antisym. Qed.

(** Two lists of strings in nondecreasing order with the same elements
    are the same list. *)
Lemma sorted_strings_unique (l1 l2 : list string) :
  Sorted (λ a b, gostring.le a b = true) l1 →
  Sorted (λ a b, gostring.le a b = true) l2 →
  l1 ≡ₚ l2 → l1 = l2.
Proof.
  apply (@Sorted_unique _ _ le_Transitive le_AntiSymm).
Qed.

Lemma Sorted_fmap_key {A} (key : A → string) (l : list A) :
  Sorted (λ a b, gostring.lt (key b) (key a) = false) l →
  Sorted (λ a b, gostring.le a b = true) (key <$> l).
Proof.
  intros H. induction H as [|x l Hs IH Hhd]; cbn; constructor; [exact IH|].
  destruct Hhd as [|y l' Hxy]; cbn; constructor.
  apply not_lt_le. exact Hxy.
Qed.

Lemma Forall2_fmap_eq {A B} (f : A → B) (l : list A) : ∀ k,
  f <$> l = f <$> k → Forall2 (λ x y, f x = f y) l k.
Proof.
  induction l as [|x l IH]; intros [|y k] E; try discriminate; [constructor|].
  injection E as E1 E2. constructor; [exact E1 | apply IH; exact E2].
Qed.

Lemma Forall2_with_Forall {A B} (P : A → B → Prop) (Q : A → Prop)
  (R : B → Prop) (l : list A) (k : list B) :
  Forall2 P l k → Forall Q l → Forall R k →
  Forall2 (λ x y, P x y ∧ Q x ∧ R y) l k.
Proof.
  intros H. induction H as [|x y l k Hxy H IH]; intros HQ HR; [constructor|].
  apply Forall_cons in HQ as [Hx HQ]. apply Forall_cons in HR as [Hy HR].
  constructor; auto.
Qed.

End AggregatorMore.

(* ===================================================================== *)
(** * The date of an instant rebuilds the instant                         *)
(* ===================================================================== *)

Section CalendarInverse.
Import time.

(** Every day number is a day of a year of the 400-year cycle. *)
Lemma dayNumber_decompose (d : Z) :
  ∃ n400 n100 n4 n1 yday,
    0 <= n100 <= 3 ∧ 0 <= n4 <= 24 ∧ 0 <= n1 <= 3
    ∧ 0 <= yday < 365 + (if (n1 =? 3) && (negb (n4 =? 24) || (n100 =? 3))
                         then 1 else 0)
    ∧ d = yearDays n400 n100 n4 n1 + yday.
Proof.
  set (n400 := d / 146097).
  set (d1 := d - 146097 * n400).
  set (n100 := d1 / 36524 - d1 / 36524 / 4).
  set (d2 := d1 - 36524 * n100).
  set (n4 := d2 / 1461).
  set (d3 := d2 - 1461 * n4).
  set (n1 := d3 / 365 - d3 / 365 / 4).
  set (yday := d3 - 365 * n1).
  assert (H1 : 0 <= d1 < 146097) by (subst d1 n400; dlia).
  assert (H100 : 0 <= n100 <= 3) by (subst n100; dlia).
  assert (H2 : 0 <= d2 <= 36524 ∧ (n100 < 3 → d2 < 36524))
    by (subst d2 n100; dlia).
  assert (H4 : 0 <= n4 <= 24) by (subst n4; dlia).
  assert (H3 : 0 <= d3 <= 1460 ∧ (n4 = 24 → n100 < 3 → d3 < 1460))
    by (subst d3 n4; dlia).
  assert (Hn1 : 0 <= n1 <= 3) by (subst n1; dlia).
  assert (Hy : 0 <= yday <= 365 ∧ (yday = 365 → n1 = 3 ∧ d3 = 1460))
    by (subst yday n1; dlia).
  exists n400, n100, n4, n1, yday.
  repeat split; try lia.
  - destruct (Z.eqb_spec n1 3), (Z.eqb_spec n4 24), (Z.eqb_spec n100 3);
      cbn [andb orb negb]; lia.
  - unfold yearDays. subst yday d3 d2 d1. lia.
Qed.

Lemma month_of_yearDay (day : Z) :
  0 <= day < 365 →
  ∃ m, 1 <= m <= 12 ∧ daysBefore (m - 1) <= day < daysBefore m.
Proof.
  intros H.
  destruct (Z.lt_ge_cases day 31); [exists 1; unfold daysBefore; simpl; lia|].
  destruct (Z.lt_ge_cases day 59); [exists 2; unfold daysBefore; simpl; lia|].
  destruct (Z.lt_ge_cases day 90); [exists 3; unfold daysBefore; simpl; lia|].
  destruct (Z.lt_ge_cases day 120); [exists 4; unfold daysBefore; simpl; lia|].
  destruct (Z.lt_ge_cases day 151); [exists 5; unfold daysBefore; simpl; lia|].
  destruct (Z.lt_ge_cases day 181); [exists 6; unfold daysBefore; simpl; lia|].
  destruct (Z.lt_ge_cases day 212); [exists 7; unfold daysBefore; simpl; lia|].
  destruct (Z.lt_ge_cases day 243); [exists 8; unfold daysBefore; simpl; lia|].
  destruct (Z.lt_ge_cases day 273); [exists 9; unfold daysBefore; simpl; lia|].
  destruct (Z.lt_ge_cases day 304); [exists 10; unfold daysBefore; simpl; lia|].
  destruct (Z.lt_ge_cases day 334); [exists 11; unfold daysBefore; simpl; lia|].
  exists 12; unfold daysBefore; simpl; lia.
Qed.

(** Month and day of a day of the year are a date of the calendar, whose
    day of the year it is. *)
Lemma monthDay_inverse year yday :
  0 <= yday < 365 + (if isLeap year then 1 else 0) →
  ∃ m d, monthDay year yday = (year, m, d)
         ∧ 1 <= m <= 12 ∧ 1 <= d <= daysIn m year
         ∧ yearDay year m d = yday.
Proof.
  intros Hy. unfold monthDay.
  change (31 + 29 - 1) with 59.
  destruct (isLeap year) eqn:L; cbn [andb].
  - destruct (Z.eqb_spec yday 59) as [->|Hne].
    { exists 2, 29. split; [reflexivity|].
      unfold daysIn, yearDay, leapAdj, daysBefore. rewrite L. simpl. lia. }
    set (day := if yday >? 59 then yday - 1 else yday).
    assert (Hday : 0 <= day < 365 ∧ (yday > 59 → day = yday - 1 ∧ 59 <= day)
                   ∧ (yday < 59 → day = yday))
      by (subst day; destruct (Z.gtb_spec yday 59); lia).
    destruct (month_of_yearDay day ltac:(lia)) as (m & Hm & Hd).
    pose proof (monthOf_day year day m Hm Hd) as HM. cbv zeta in HM.
    cbv zeta. fold day. rewrite HM.
    exists m, (day - daysBefore (m - 1) + 1). split; [reflexivity|].
    pose proof (daysBefore_facts m Hm) as (F1 & F2 & F3 & F4 & F5 & F6).
    unfold daysIn, yearDay, leapAdj. rewrite L. cbn [andb].
    destruct (Z.eqb_spec m 2) as [->|Hm2]; cbn [andb].
    + cbn in *. lia.
    + destruct (Z.geb_spec m 3); lia.
  - rewrite Z.add_0_r in Hy.
    destruct (month_of_yearDay yday Hy) as (m & Hm & Hd).
    pose proof (monthOf_day year yday m Hm Hd) as HM. cbv zeta in HM.
    cbv zeta. rewrite HM.
    exists m, (yday - daysBefore (m - 1) + 1). split; [reflexivity|].
    unfold daysIn, yearDay, leapAdj. rewrite L, andb_false_r. cbn [andb].
    lia.
Qed.

Lemma fields_rebuild_day (d0 secs : Z) :
  0 <= secs < 86400 →
  let a := d0 * 86400 + secs in
  let '(y, m, d) := absDate a in
  let '(h, mi, s) := absClock a in
  1 <= m <= 12 ∧ 1 <= d <= daysIn m y
  ∧ 0 <= h < 24 ∧ 0 <= mi < 60 ∧ 0 <= s < 60
  ∧ secs = h * 3600 + mi * 60 + s
  ∧ wallSeconds y m d h mi s = a + (absoluteToInternal + internalToUnix).
Proof.
  intros Hsecs. cbv zeta.
  destruct (dayNumber_decompose d0)
    as (n400 & n100 & n4 & n1 & yday & H100 & H4 & H1 & Hyd & ->).
  set (year := 400 * n400 + 100 * n100 + 4 * n4 + n1 + absoluteZeroYear).
  assert (Hleap : isLeap year = (n1 =? 3) && (negb (n4 =? 24) || (n100 =? 3)))
    by (apply (isLeap_cycles year n400); try assumption; subst year; lia).
  rewrite absDate_cycles by assumption. fold year.
  rewrite <- Hleap in Hyd.
  destruct (monthDay_inverse year yday Hyd) as (m & d & -> & Hm & Hdd & Hyday).
  unfold absClock, secondsPerDay, secondsPerHour, secondsPerMinute.
  replace (((yearDays n400 n100 n4 n1 + yday) * 86400 + secs) mod 86400)
    with secs by dlia.
  set (h := secs / 3600).
  set (mi := (secs - h * 3600) / 60).
  set (s := secs - h * 3600 - mi * 60).
  assert (Hh : 0 <= h < 24) by (subst h; dlia).
  assert (Hmi : 0 <= mi < 60) by (subst mi h; dlia).
  assert (Hs : 0 <= s < 60) by (subst s mi h; dlia).
  repeat split; try lia.
  rewrite wallSeconds_inrange by assumption.
  destruct (daysSinceEpoch_cycles year)
    as (k400 & k100 & k4 & k1 & K100 & K4 & K1 & Hk & ->).
  assert (k400 = n400 ∧ k100 = n100 ∧ k4 = n4 ∧ k1 = n1)
    as (-> & -> & -> & ->) by (subst year; lia).
  rewrite Hyday. subst s. lia.
Qed.

(** The date and the clock of an absolute time are a date of the
    calendar and a time of day, and [Date] makes of them the time they
    were read from. *)
Lemma fields_rebuild (a : Z) :
  let '(y, m, d) := absDate a in
  let '(h, mi, s) := absClock a in
  1 <= m <= 12 ∧ 1 <= d <= daysIn m y
  ∧ 0 <= h < 24 ∧ 0 <= mi < 60 ∧ 0 <= s < 60
  ∧ a mod 86400 = h * 3600 + mi * 60 + s
  ∧ wallSeconds y m d h mi s = a + (absoluteToInternal + internalToUnix).
Proof.
  pose proof (fields_rebuild_day (a / 86400) (a mod 86400) ltac:(dlia)) as H.
  cbv zeta in H.
  replace (a / 86400 * 86400 + a mod 86400) with a in H by dlia.
  exact H.
Qed.

End CalendarInverse.

(* ===================================================================== *)
(** * More on the Timestamp Normalizer                                    *)
(* ===================================================================== *)

Section NormalizerMore.
Import time.

Lemma epoch_constants :
  unixToInternal + internalToAbsolute + (absoluteToInternal + internalToUnix) = 0.
Proof. reflexivity. Qed.

(** The wall clock [Date] computes from the fields of a time is the wall
    clock the fields were read from. *)
Lemma wallSeconds_fields (t : Time) :
  wallSeconds (Year t) (Month t) (Day t) (Hour t) (Minute t) (Second t)
  = unixSec t + offsetAt (location t) (unixSec t).
Proof.
  unfold Year, Month, Day, Hour, Minute, Second.
  pose proof (fields_rebuild (abs t)) as H.
  destruct (absDate (abs t)) as [[y m] d].
  destruct (absClock (abs t)) as [[h mi] s]. cbn [fst snd].
  destruct H as (_ & _ & _ & _ & _ & _ & ->).
  unfold abs. pose proof epoch_constants. lia.
Qed.

(** The same with the minute rounded down to an even one and the seconds
    dropped: the wall clock at the start of its two minutes. *)
Lemma wallSeconds_rounded (t : Time) :
  wallSeconds (Year t) (Month t) (Day t) (Hour t) (Z.quot (Minute t) 2 * 2) 0
  = 120 * ((unixSec t + offsetAt (location t) (unixSec t)) / 120).
Proof.
  rewrite quot2_even by apply Minute_range.
  pose proof (wallSeconds_fields t) as Hw. revert Hw.
  unfold Year, Month, Day, Hour, Minute, Second.
  pose proof (fields_rebuild (abs t)) as H.
  destruct (absDate (abs t)) as [[y m] d].
  destruct (absClock (abs t)) as [[h mi] s]. cbn [fst snd].
  destruct H as (Hm & Hd & Hh & Hmi & Hs & Hsecs & _).
  rewrite !wallSeconds_inrange by (try assumption; dlia).
  intros Hw.
  set (w := unixSec t + offsetAt (location t) (unixSec t)) in *.
  assert (Hmod : w mod 120 = (mi mod 2) * 60 + s).
  { unfold abs in Hsecs. fold w in Hsecs.
    unfold unixToInternal, internalToAbsolute in Hsecs. revert Hsecs. dlia. }
  revert Hw Hmod. dlia.
Qed.

Lemma lookup_FixedZone offset sec :
  lookup (FixedZone offset) sec = (offset, alpha, omega).
Proof. reflexivity. Qed.

Lemma Date_FixedZone y m d h mi s offset :
  Date y m d h mi s (FixedZone offset)
  = mkTime (wallSeconds y m d h mi s - offset) (FixedZone offset).
Proof.
  unfold Date. rewrite lookup_FixedZone.
  destruct (Z.eqb_spec offset 0) as [->|Hne]; [f_equal; lia|].
  unfold offsetAt. rewrite lookup_FixedZone. cbn [fst].
  destruct (_ || _); reflexivity.
Qed.

(** A time in UTC is its own UTC reading (line 210). *)
Lemma utcTime_UTC (t : Time) :
  location t = UTC →
  Date (Year t) (Month t) (Day t) (Hour t) (Minute t) (Second t) UTC = t.
Proof.
  intros Hl. rewrite Date_UTC, wallSeconds_fields, Hl.
  unfold offsetAt. rewrite lookup_UTC. cbn [fst].
  destruct t as [u l]. cbn in *. subst l. f_equal. lia.
Qed.

Lemma Parse_UTC layout value t : Parse layout value = Some t → location t = UTC.
Proof.
  intros H. apply Parse_civil in H as (c & _ & ->). apply location_civilTime.
Qed.

(** In a zone of one offset the rounded time is the start of the two
    minutes of the sample. *)
Lemma roundedTallinnTime_fixed offset (t : Time) :
  location t = UTC → offset mod 120 = 0 →
  roundedTallinnTime (FixedZone offset) t
  = mkTime (120 * (unixSec t / 120)) (FixedZone offset).
Proof.
  intros Hl Ho. unfold roundedTallinnTime.
  rewrite (utcTime_UTC t Hl), Date_FixedZone, wallSeconds_rounded.
  unfold In. cbn [unixSec location]. unfold offsetAt.
  rewrite lookup_FixedZone. cbn [fst]. f_equal. revert Ho. dlia.
Qed.

(** The zone in force in a location with a summer time: [winter] before
    [spring] and from [autumn] on, [summer] in between. *)
Lemma lookup_summer winter summer spring autumn sec :
  lookup (mkLocation winter [(spring, summer); (autumn, winter)]) sec
  = if sec <? spring then (winter, alpha, spring)
    else if sec <? autumn then (summer, spring, autumn)
    else (winter, autumn, omega).
Proof. reflexivity. Qed.

(** In a location with a summer time the rounded time is the start of
    the two minutes of the sample, but for the samples of the last
    [summer - winter] seconds of the summer time: their rounded time is
    that much later. *)
Lemma roundedTallinnTime_summer winter summer spring autumn (t : Time) :
  location t = UTC →
  0 < winter < summer →
  winter mod 120 = 0 → summer mod 120 = 0 →
  spring mod 120 = 0 → autumn mod 120 = 0 →
  spring + summer <= autumn →
  let loc := mkLocation winter [(spring, summer); (autumn, winter)] in
  roundedTallinnTime loc t
  = mkTime (120 * (unixSec t / 120)
            + (if (autumn - (summer - winter) <=? unixSec t)
                  && (unixSec t <? autumn)
               then summer - winter else 0)) loc.
Proof.
  intros Hl Hws Hw Hs Hsp Hau Hgap loc. unfold roundedTallinnTime.
  rewrite (utcTime_UTC t Hl). unfold Date.
  rewrite wallSeconds_rounded. unfold In. cbn [unixSec location].
  set (u := unixSec t).
  assert (Hw120 : 120 <= winter) by (revert Hw; dlia).
  set (late := (autumn - (summer - winter) <=? u) && (u <? autumn)).
  assert (Hlate : late = true ↔ autumn - (summer - winter) <= u < autumn).
  { subst late. rewrite andb_true_iff, Z.leb_le, Z.ltb_lt. tauto. }
  clearbody late.
  assert (Early : ¬ (autumn - (summer - winter) <= u < autumn) → late = false).
  { intros H. destruct late; [|reflexivity]. exfalso. apply H, Hlate. reflexivity. }
  unfold offsetAt. subst loc. rewrite !lookup_summer.
  destruct (Z.ltb_spec u spring) as [H1|H1]; cbn [fst].
  - rewrite Early by lia.
    set (w := 120 * ((u + winter) / 120)).
    assert (Hwall : w = 120 * (u / 120) + winter) by (subst w; revert Hw; dlia).
    assert (Hu : 120 * (u / 120) <= u) by dlia.
    destruct (Z.ltb_spec w spring) as [H2|H2].
    + destruct (Z.eqb_spec winter 0); [lia|].
      rewrite lookup_summer.
      destruct (Z.ltb_spec (w - winter) spring); [|lia].
      destruct (_ || _); cbn [fst]; f_equal; lia.
    + destruct (Z.ltb_spec w autumn) as [H3|H3]; [|lia].
      destruct (Z.eqb_spec summer 0); [lia|].
      rewrite lookup_summer.
      destruct (Z.ltb_spec (w - summer) spring) as [H4|H4]; [|lia].
      cbn [orb fst]. f_equal. lia.
  - destruct (Z.ltb_spec u autumn) as [H2|H2]; cbn [fst].
    + set (w := 120 * ((u + summer) / 120)).
      assert (Hwall : w = 120 * (u / 120) + summer) by (subst w; revert Hs; dlia).
      assert (Hu : 120 * (u / 120) <= u < 120 * (u / 120) + 120) by dlia.
      assert (Hsp' : spring <= 120 * (u / 120)) by (revert Hsp H1; dlia).
      assert (Hau' : 120 * (u / 120) + 120 <= autumn) by (revert Hau H2; dlia).
      destruct (Z.ltb_spec w spring) as [H3|H3]; [lia|].
      destruct (Z.ltb_spec w autumn) as [H4|H4].
      * destruct (Z.eqb_spec summer 0); [lia|].
        rewrite Early by lia.
        destruct (Z.ltb_spec (w - summer) spring); [lia|].
        destruct (Z.geb_spec (w - summer) autumn); [lia|].
        cbn [orb]. f_equal. lia.
      * destruct (Z.eqb_spec winter 0); [lia|].
        rewrite lookup_summer.
        destruct (Z.ltb_spec (w - winter) autumn) as [H5|H5].
        -- cbn [orb].
           destruct (Z.ltb_spec (w - winter) spring); [lia|].
           cbn [fst]. rewrite Early.
           ++ f_equal. lia.
           ++ assert (120 * (u / 120) + (summer - winter) < autumn) by lia.
              assert (Hk : (autumn - (summer - winter)) mod 120 = 0)
                by (revert Hau Hs Hw; dlia).
              revert Hk Hu. dlia.
        -- cbn [orb].
           assert (Hl' : late = true).
           { apply Hlate. split; [|lia].
             assert (autumn - (summer - winter) <= 120 * (u / 120)) by lia.
             lia. }
           rewrite Hl'.
           destruct (Z.geb_spec (w - winter) omega).
           ++ destruct (Z.ltb_spec (w - winter) spring); [lia|].
              destruct (Z.ltb_spec (w - winter) autumn); [lia|].
              cbn [fst]. f_equal. lia.
           ++ f_equal. lia.
    + rewrite Early by lia.
      set (w := 120 * ((u + winter) / 120)).
      assert (Hwall : w = 120 * (u / 120) + winter) by (subst w; revert Hw; dlia).
      assert (Hau' : autumn <= 120 * (u / 120)) by (revert Hau H2; dlia).
      destruct (Z.ltb_spec w spring) as [H3|H3]; [lia|].
      destruct (Z.ltb_spec w autumn) as [H4|H4]; [lia|].
      destruct (Z.eqb_spec winter 0); [lia|].
      rewrite lookup_summer.
      destruct (Z.ltb_spec (w - winter) spring); [lia|].
      destruct (Z.ltb_spec (w - winter) autumn); [lia|].
      destruct (_ || _); cbn [fst]; f_equal; lia.
Qed.

End NormalizerMore.

(* ===================================================================== *)
(** * The paths through the two handlers                                  *)
(* ===================================================================== *)

Section HandlerFacts.
Import http.

Lemma status_Header_Set w key value :
  status (Header_Set w key value) = status w.
Proof. unfold Header_Set. destruct (status w) eqn:E; [exact E | reflexivity]. Qed.

Lemma body_Header_Set w key value : body (Header_Set w key value) = body w.
Proof. unfold Header_Set. destruct (status w); reflexivity. Qed.

Lemma header_Header_Set w key value :
  status w = None →
  header (Header_Set w key value) = <[key := value]> (header w).
Proof. intros E. unfold Header_Set. rewrite E. reflexivity. Qed.

Lemma status_setHeaders w : status (setHeaders w) = status w.
Proof. unfold setHeaders. rewrite !status_Header_Set. reflexivity. Qed.

Lemma body_setHeaders w : body (setHeaders w) = body w.
Proof. unfold setHeaders. rewrite !body_Header_Set. reflexivity. Qed.

(** The four headers on a writer whose header is not yet written. *)
Lemma header_setHeaders w :
  status w = None →
  header (setHeaders w) !! "Access-Control-Allow-Origin" = Some "*"
  ∧ header (setHeaders w) !! "Access-Control-Allow-Methods"
    = Some "GET, POST, OPTIONS"
  ∧ header (setHeaders w) !! "Access-Control-Allow-Headers" = Some "Content-Type"
  ∧ header (setHeaders w) !! "Content-Type" = Some "application/json".
Proof.
  intros E. unfold setHeaders.
  rewrite !header_Header_Set by (rewrite ?status_Header_Set; exact E).
  repeat split.
  - rewrite !lookup_insert_ne by discriminate. apply lookup_insert_eq.
  - rewrite !lookup_insert_ne by discriminate. apply lookup_insert_eq.
  - rewrite !lookup_insert_ne by discriminate. apply lookup_insert_eq.
  - apply lookup_insert_eq.
Qed.

Lemma header_WriteHeader w code : header (WriteHeader w code) = header w.
Proof. unfold WriteHeader. destruct (status w); reflexivity. Qed.

Lemma body_WriteHeader w code : body (WriteHeader w code) = body w.
Proof. unfold WriteHeader. destruct (status w); reflexivity. Qed.

Lemma status_WriteHeader w code :
  status w = None → status (WriteHeader w code) = Some code.
Proof. intros E. unfold WriteHeader. rewrite E. reflexivity. Qed.

Lemma header_Encode w v : header (Encode w v) = header w.
Proof. unfold Encode. cbn [header]. apply header_WriteHeader. Qed.

Lemma body_Encode w v : body (Encode w v) = (body w ++ [v])%list.
Proof. unfold Encode. cbn [body]. rewrite body_WriteHeader. reflexivity. Qed.

Lemma status_Encode w v :
  status w = None → status (Encode w v) = Some StatusOK.
Proof. intros E. unfold Encode. cbn [status]. apply status_WriteHeader, E. Qed.

Lemma header_fail w code text : header (fail w code text) = header w.
Proof. unfold fail. rewrite header_Encode. apply header_WriteHeader. Qed.

Lemma body_fail w code text :
  body (fail w code text)
  = (body w ++ [mkGenerateResponse false "" "" (Some text)])%list.
Proof. unfold fail. rewrite body_Encode, body_WriteHeader. reflexivity. Qed.

Lemma status_fail w code text :
  status w = None → status (fail w code text) = Some code.
Proof.
  intros E. unfold fail, Encode. cbn [status].
  unfold WriteHeader at 1. rewrite (status_WriteHeader w code E).
  apply status_WriteHeader, E.
Qed.

End HandlerFacts.

(* ===================================================================== *)
(** * Rebuilding a time where the offsets step by whole hours             *)
(* ===================================================================== *)

Section ZoneSteps.
Import time.

(** A zone of one offset steps by whole hours everywhere. *)
Lemma wholeHourSteps_FixedZone offset u :
  wholeHourSteps (FixedZone offset) u (Z.abs offset).
Proof.
  split; [lia|]. intros x _. unfold offsetAt. rewrite !lookup_FixedZone.
  cbn [fst]. split; [lia|]. rewrite Z.sub_diag. reflexivity.
Qed.




End ZoneSteps.

(* ===================================================================== *)
(** * Properties of the Log File Locator                                  *)
(* ===================================================================== *)

Section LocatorClaims.
Import gostring filepath time.

(** C2. With [from] and [to] that parse as [YYYY-MM-DD], a file
    [gym-stats-YYYYMMDD.csv] of the working directory whose embedded
    date [d] is valid is in the result of [findCSVFilesInRange] exactly
    when [from <= d <= to] in calendar order, both ends included, and
    the call returns no error.  In particular, with the six daily logs
    of 2024-01-10 to 2024-01-15 in the directory, the range 2024-01-12
    to 2024-01-14 selects exactly the logs of the 12th, 13th and 14th. *)
Theorem C2_range_includes_both_ends
  (w : World) (fromDate toDate dateStr : string) (from to d : civil) :
  parseCivil layoutDate fromDate = Some from →
  parseCivil layoutDate toDate = Some to →
  parseCivil layoutCompactDate dateStr = Some d →
  List.In (logFileName dateStr) (dirNames w) →
  (List.In (logFileName dateStr) (fst (findCSVFilesInRange w fromDate toDate))
   ↔ dateLe from d ∧ dateLe d to)
  ∧ snd (findCSVFilesInRange w fromDate toDate) = None
  ∧ (∀ st op tz,
       findCSVFilesInRange (mkWorld januaryLogs st op tz) "2024-01-12" "2024-01-14"
       = (["gym-stats-20240112.csv"; "gym-stats-20240113.csv";
           "gym-stats-20240114.csv"], None)).
Proof.
  intros Hf Ht Hd Hin.
  destruct (compactDate_shape _ _ Hd) as [Hlen Hsep].
  assert (Hglob : List.In (logFileName dateStr) (Glob (dirNames w))).
  { unfold Glob. apply filter_In. split; [exact Hin|].
    apply logFileName_match. exact Hsep. }
  assert (Hne : Glob (dirNames w) ≠ []).
  { intros E. rewrite E in Hglob. destruct Hglob. }
  rewrite (findCSVFilesInRange_filter w fromDate toDate (civilTime from) (civilTime to))
    by (try assumption; apply Parse_civil; eauto).
  split; [|split; [reflexivity | intros; vm_compute; reflexivity]].
  cbn [fst]. rewrite filter_In.
  rewrite (inRange_logFile from to d dateStr); try assumption.
  - tauto.
  - eapply parseCivil_valid; eauto.
  - eapply parseCivil_valid; eauto.
  - eapply parseCivil_midnight; [|exact Hf]; reflexivity.
  - eapply parseCivil_midnight; [|exact Ht]; reflexivity.
Qed.

Lemma C2_range_includes_both_ends_witness :
  List.In (logFileName "20240114")
    (fst (findCSVFilesInRange (bareWorld januaryLogs) "2024-01-12" "2024-01-14"))
  ∧ ¬ List.In (logFileName "20240115")
    (fst (findCSVFilesInRange (bareWorld januaryLogs) "2024-01-12" "2024-01-14")).
Proof.
  split.
  - destruct (C2_range_includes_both_ends (bareWorld januaryLogs)
                "2024-01-12" "2024-01-14" "20240114"
                (mkCivil 2024 1 12 0 0 0) (mkCivil 2024 1 14 0 0 0)
                (mkCivil 2024 1 14 0 0 0)
                ltac:(vm_compute; reflexivity) ltac:(vm_compute; reflexivity)
                ltac:(vm_compute; reflexivity) ltac:(simpl; tauto))
      as ([_ Hin] & _ & _).
    apply Hin. unfold dateLe, dateLt, dateEq; simpl; lia.
  - intros H.
    destruct (C2_range_includes_both_ends (bareWorld januaryLogs)
                "2024-01-12" "2024-01-14" "20240115"
                (mkCivil 2024 1 12 0 0 0) (mkCivil 2024 1 14 0 0 0)
                (mkCivil 2024 1 15 0 0 0)
                ltac:(vm_compute; reflexivity) ltac:(vm_compute; reflexivity)
                ltac:(vm_compute; reflexivity) ltac:(simpl; tauto))
      as ([Hle _] & _ & _).
    specialize (Hle H). unfold dateLe, dateLt, dateEq in Hle; simpl in Hle; lia.
Defined.

(** C8 as stated fails: in a directory without any matching file a call
    with an unparsable [from] date fails with the "no CSV files found"
    error, not with an invalid-date error. *)
Lemma C8_counterexample :
  Parse layoutDate "12 January" = None
  ∧ findCSVFilesInRange (bareWorld []) "12 January" "2024-01-14"
    = ([], Some errNoCSVFiles)
  ∧ isInvalidDateFormat errNoCSVFiles = false.
Proof. vm_compute. repeat split. Qed.

(** C8, amended.  When at least one file matches the pattern, a call of
    [findCSVFilesInRange] whose [from] or [to] date does not parse as
    [YYYY-MM-DD] fails with an invalid-date error and an empty list;
    when no file matches, the call fails with the "no CSV files found"
    error whatever the dates are. *)
Theorem C8_invalid_date_after_pattern_check
  (w : World) (fromDate toDate : string) :
  (Glob (dirNames w) ≠ [] →
   Parse layoutDate fromDate = None ∨ Parse layoutDate toDate = None →
   ∃ e, findCSVFilesInRange w fromDate toDate = ([], Some e)
        ∧ isInvalidDateFormat e = true)
  ∧ (Glob (dirNames w) = [] →
     findCSVFilesInRange w fromDate toDate = ([], Some errNoCSVFiles)).
Proof.
  split.
  - intros Hne Hbad. unfold findCSVFilesInRange.
    rewrite len_list_nonempty by assumption.
    destruct (Parse layoutDate fromDate) as [from|] eqn:Ef.
    + destruct Hbad as [|Hto]; [discriminate|]. rewrite Hto.
      exists (errInvalidToDate toDate). split; reflexivity.
    + exists (errInvalidFromDate fromDate). split; reflexivity.
  - intros E. unfold findCSVFilesInRange. rewrite E. reflexivity.
Qed.

Lemma C8_invalid_date_after_pattern_check_witness :
  ∃ e, findCSVFilesInRange (bareWorld januaryLogs) "2024-01-12" "14.01.2024"
       = ([], Some e)
       ∧ isInvalidDateFormat e = true.
Proof.
  apply (proj1 (C8_invalid_date_after_pattern_check (bareWorld januaryLogs)
                  "2024-01-12" "14.01.2024")).
  - discriminate.
  - right. vm_compute. reflexivity.
Defined.

(** C9. If the pattern matches at least one file and [os.Stat] fails for
    every matched file, [findLatestCSV] returns the empty file name and
    a nil error. *)
Theorem C9_latest_is_empty_when_every_stat_fails (w : World) :
  Glob (dirNames w) ≠ [] →
  (∀ file, List.In file (Glob (dirNames w)) → statModTime w file = None) →
  findLatestCSV w = ("", None).
Proof.
  intros Hne Hstat. unfold findLatestCSV.
  rewrite len_list_nonempty by assumption.
  rewrite latest_no_stat by assumption. reflexivity.
Qed.

Lemma C9_latest_is_empty_when_every_stat_fails_witness :
  findLatestCSV (bareWorld januaryLogs) = ("", None).
Proof.
  apply C9_latest_is_empty_when_every_stat_fails.
  - discriminate.
  - intros file _. reflexivity.
Defined.

(** C10. With two dates that parse, [from] strictly after [to], and at
    least one file matching the pattern, [findCSVFilesInRange] returns
    the empty list and no error. *)
Theorem C10_inverted_range_is_empty
  (w : World) (fromDate toDate : string) (from to : civil) :
  parseCivil layoutDate fromDate = Some from →
  parseCivil layoutDate toDate = Some to →
  dateLt to from →
  Glob (dirNames w) ≠ [] →
  findCSVFilesInRange w fromDate toDate = ([], None).
Proof.
  intros Hf Ht Hlt Hne.
  rewrite (findCSVFilesInRange_filter w fromDate toDate (civilTime from) (civilTime to))
    by (try assumption; apply Parse_civil; eauto).
  f_equal.
  pose proof (parseCivil_valid _ _ _ Hf) as Hfv.
  pose proof (parseCivil_valid _ _ _ Ht) as Htv.
  assert (Hf0 : cHour from = 0 ∧ cMin from = 0 ∧ cSec from = 0)
    by (eapply parseCivil_midnight; [|exact Hf]; reflexivity).
  assert (Ht0 : cHour to = 0 ∧ cMin to = 0 ∧ cSec to = 0)
    by (eapply parseCivil_midnight; [|exact Ht]; reflexivity).
  pose proof (dateLt_unixSec to from Htv Hfv Hlt) as Hsec.
  assert (Hout : ∀ file, inRange (civilTime from) (civilTime to) file = false).
  2: { clear Hne. induction (Glob (dirNames w)) as [|file files IH]; [reflexivity|].
       cbn [List.filter]. rewrite Hout. exact IH. }
  intros file. unfold inRange.
  destruct (len (Base file) <? 20); [reflexivity|].
  destruct (Parse layoutCompactDate _) as [fileDate|]; [|reflexivity].
  rewrite AddDate_one_day by assumption.
  unfold Equal, After, Before. cbn [unixSec].
  apply andb_false_iff.
  destruct (Z.le_gt_cases (unixSec (civilTime from)) (unixSec fileDate)).
  - right. apply orb_false_iff. split; [apply Z.eqb_neq | apply Z.ltb_ge]; lia.
  - left. apply orb_false_iff. split; [apply Z.eqb_neq | apply Z.ltb_ge]; lia.
Qed.

Lemma C10_inverted_range_is_empty_witness :
  findCSVFilesInRange (bareWorld januaryLogs) "2024-01-14" "2024-01-12" = ([], None).
Proof.
  apply (C10_inverted_range_is_empty (bareWorld januaryLogs)
           "2024-01-14" "2024-01-12"
           (mkCivil 2024 1 14 0 0 0) (mkCivil 2024 1 12 0 0 0)
           ltac:(vm_compute; reflexivity) ltac:(vm_compute; reflexivity)).
  - unfold dateLt; simpl; lia.
  - discriminate.
Defined.

End LocatorClaims.

(* ===================================================================== *)
(** * Properties of the Row Parser and the Aggregator                     *)
(* ===================================================================== *)

Section AggregatorClaims.

(** C1. When the conversion of the selected files succeeds, the points
    of the output, each taken with the label of its Dataset, are exactly
    the points of the usable rows of the files: every row whose status
    is ["success"], whose timestamp parses as [YYYY-MM-DD HH:MM:SS] and
    whose user count parses as an integer has one DataPoint of its own
    in the output, no other DataPoint is there, no two Datasets share a
    label, and the DataPoint of the row is in the Dataset labelled with
    the location name of the row, with [y] the parsed integer. *)
Theorem C1_usable_rows_appear_exactly_once
  (rt : LawfulRuntime) (w : World) (csvFiles : list string)
  (datasets : list Dataset) :
  convertCSVFilesToJSON rt w csvFiles = (datasets, None) →
  labelledPoints datasets ≡ₚ allPoints w csvFiles
  ∧ NoDup (Label <$> datasets)
  ∧ ∀ csvFile headers rows record t n,
      List.In csvFile csvFiles →
      openCSV w csvFile = Some (Some headers :: rows) →
      List.In (Some record) rows →
      hasColumns (headerColumns headers) record = true →
      field record (statusIdx (headerColumns headers)) = "success" →
      time.Parse time.layoutDateTime
        (field record (timestampIdx (headerColumns headers))) = Some t →
      strconv.Atoi (field record (userCountIdx (headerColumns headers))) = Some n →
      ∃ d, d ∈ datasets
           ∧ Label d = field record (locationNameIdx (headerColumns headers))
           ∧ mkDataPoint (isoTimestamp w t) n ∈ Data d.
Proof.
  intros Hok. apply convertCSVFilesToJSON_ok in Hok as [Hall ->].
  set (m := foldl appendPoint ∅ (allPoints w csvFiles)).
  assert (Hperm : labelledPoints
                    (sortSlice rt _ lessLabel
                       (entryDataset rt <$> rangeMap rt (map_to_list m)))
                  ≡ₚ allPoints w csvFiles).
  { unfold labelledPoints. rewrite output_Permutation.
    rewrite list_fmap_bind.
    rewrite (bind_Permutation_pointwise _ (λ entry, pair (fst entry) <$> snd entry)).
    - fold (mapPoints m). subst m.
      rewrite mapPoints_foldl, mapPoints_empty. reflexivity.
    - intros [l ps]. unfold compose, entryDataset. cbn [Label Data fst snd].
      rewrite sortSlice_perm. reflexivity. }
  split; [exact Hperm | split; [apply output_labels|]].
  intros csvFile headers rows record t n Hin Hopen Hrow Hcols Hst Ht Hn.
  assert (Hpoint : (field record (locationNameIdx (headerColumns headers)),
                    mkDataPoint (isoTimestamp w t) n) ∈ allPoints w csvFiles).
  { unfold allPoints. apply list_elem_of_bind. exists csvFile.
    split; [|apply list_elem_of_In; exact Hin].
    unfold filePoints. rewrite Hopen. apply list_elem_of_omap.
    exists (Some record). split; [apply list_elem_of_In; exact Hrow|].
    unfold rowPoint. rewrite Hcols, Hst, Ht, Hn. reflexivity. }
  rewrite <- Hperm in Hpoint. unfold labelledPoints in Hpoint.
  apply list_elem_of_bind in Hpoint as (d & Hp & Hd).
  apply list_elem_of_fmap in Hp as (p & [= Hl <-] & Hp).
  exists d. auto.
Qed.

Lemma C1_usable_rows_appear_exactly_once_witness :
  labelledPoints sampleOutput ≡ₚ allPoints sampleWorld sampleFiles
  ∧ NoDup (Label <$> sampleOutput).
Proof.
  destruct (C1_usable_rows_appear_exactly_once
              lawfulPdqRuntime sampleWorld sampleFiles sampleOutput
              ltac:(vm_compute; reflexivity)) as (Hperm & Hlabels & _).
  split; assumption.
Defined.

(** C4. In every output of the aggregation any two consecutive
    DataPoints of a Dataset are in nondecreasing order of [x], and any
    two consecutive Datasets are in nondecreasing order of label, both
    in Go's bytewise lexicographic order of strings. *)
Theorem C4_output_is_ordered
  (rt : LawfulRuntime) (w : World) (csvFiles : list string)
  (datasets : list Dataset) :
  convertCSVFilesToJSON rt w csvFiles = (datasets, None) →
  (∀ d i p q, d ∈ datasets →
     Data d !! i = Some p → Data d !! S i = Some q →
     gostring.le (X p) (X q) = true)
  ∧ (∀ i a b, datasets !! i = Some a → datasets !! S i = Some b →
       gostring.le (Label a) (Label b) = true).
Proof.
  intros Hok. apply convertCSVFilesToJSON_ok in Hok as [Hall ->].
  split.
  - intros d i p q Hd Hp Hq.
    rewrite output_Permutation in Hd.
    apply list_elem_of_fmap in Hd as ([l ps] & -> & _).
    unfold entryDataset in Hp, Hq. cbn [Data snd] in Hp, Hq.
    apply not_lt_le.
    exact (Sorted_consecutive _ _ _ _ _
             (sortSlice_sorted rt _ lessX ps lessX_swo) Hp Hq).
  - intros i a b Ha Hb. apply not_lt_le.
    exact (Sorted_consecutive _ _ _ _ _
             (sortSlice_sorted rt _ lessLabel _ lessLabel_swo) Ha Hb).
Qed.

Lemma C4_output_is_ordered_witness :
  gostring.le "2024-06-01T14:02:00+03:00" "2024-06-02T12:00:00+03:00" = true
  ∧ gostring.le "Hipodroom" "T1" = true.
Proof.
  destruct (C4_output_is_ordered
              lawfulPdqRuntime sampleWorld sampleFiles sampleOutput
              ltac:(vm_compute; reflexivity)) as (Hdata & Hlabels).
  split.
  - apply (Hdata (mkDataset "Hipodroom"
                    [mkDataPoint "2024-06-01T14:02:00+03:00" 5;
                     mkDataPoint "2024-06-02T12:00:00+03:00" 9])
                 0%nat
                 (mkDataPoint "2024-06-01T14:02:00+03:00" 5)
                 (mkDataPoint "2024-06-02T12:00:00+03:00" 9));
      [left | reflexivity | reflexivity].
  - apply (Hlabels 0%nat
             (mkDataset "Hipodroom"
                [mkDataPoint "2024-06-01T14:02:00+03:00" 5;
                 mkDataPoint "2024-06-02T12:00:00+03:00" 9])
             (mkDataset "T1" [mkDataPoint "2024-06-01T14:02:00+03:00" 7]));
      reflexivity.
Defined.

(** C6. The conversion is deterministic: two runs on the same files in
    the same order, with the same contents and zone data, running the
    same sort, give the same output whatever orders the two runs visit
    the entries of the map in; hence any encoding of the output, the
    JSON text in particular, is the same byte for byte. *)
Theorem C6_conversion_is_deterministic
  (run1 run2 : LawfulRuntime) (w : World) (csvFiles : list string) :
  (∀ points, sortSlice run1 _ lessX points = sortSlice run2 _ lessX points) →
  convertCSVFilesToJSON run1 w csvFiles = convertCSVFilesToJSON run2 w csvFiles
  ∧ ∀ encode : list Dataset → string,
      encode (fst (convertCSVFilesToJSON run1 w csvFiles))
      = encode (fst (convertCSVFilesToJSON run2 w csvFiles)).
Proof.
  intros Hsort.
  assert (E : convertCSVFilesToJSON run1 w csvFiles
              = convertCSVFilesToJSON run2 w csvFiles);
    [|split; [exact E | intros encode; rewrite E; reflexivity]].
  rewrite !convertCSVFilesToJSON_unfold.
  destruct (processFiles w csvFiles ∅) as [m [e|]]; [reflexivity|].
  f_equal.
  assert (Hentry : ∀ entries : list (string * list DataPoint),
                     entryDataset run1 <$> entries
                     = entryDataset run2 <$> entries).
  { intros entries. apply list_fmap_ext. intros _ [l ps] _.
    unfold entryDataset. cbn [fst snd]. rewrite Hsort. reflexivity. }
  apply (sorted_by_key_unique Label).
  - apply output_labels.
  - rewrite !output_Permutation, Hentry. reflexivity.
  - apply (sortSlice_sorted run1 _ lessLabel _ lessLabel_swo).
  - apply (sortSlice_sorted run2 _ lessLabel _ lessLabel_swo).
Qed.

Lemma C6_conversion_is_deterministic_witness :
  convertCSVFilesToJSON lawfulPdqRuntime sampleWorld sampleFiles
  = convertCSVFilesToJSON lawfulForwardRuntime sampleWorld sampleFiles.
Proof.
  apply (C6_conversion_is_deterministic
           lawfulPdqRuntime lawfulForwardRuntime sampleWorld sampleFiles).
  intros points. reflexivity.
Defined.

(** C7. If the processing of one of the selected files fails (the file
    cannot be opened, its header cannot be read, or a required column
    is absent), [convertCSVFilesToJSON] returns an error naming a
    failing file and no Dataset at all, however many files were
    processed before it. *)
Theorem C7_one_failing_file_fails_the_request
  (rt : Runtime) (w : World) (csvFiles : list string) :
  (∃ csvFile, List.In csvFile csvFiles ∧ fileFails w csvFile) →
  ∃ csvFile err,
    List.In csvFile csvFiles ∧ fileFails w csvFile
    ∧ convertCSVFilesToJSON rt w csvFiles = ([], Some (errProcess csvFile err)).
Proof.
  intros (f & Hin & Hf). rewrite convertCSVFilesToJSON_unfold.
  destruct (processFiles_spec w csvFiles ∅)
    as [(f' & e & m' & Hin' & Hf' & ->) | [Hall _]].
  - exists f', e. auto.
  - exfalso. exact (Hall f Hin Hf).
Qed.

Lemma C7_one_failing_file_fails_the_request_witness :
  ∃ csvFile err,
    List.In csvFile
      ["gym-stats-20240601.csv"; "gym-stats-20240603.csv"; "gym-stats-20240602.csv"]
    ∧ fileFails sampleWorld csvFile
    ∧ convertCSVFilesToJSON pdqRuntime sampleWorld
        ["gym-stats-20240601.csv"; "gym-stats-20240603.csv"; "gym-stats-20240602.csv"]
      = ([], Some (errProcess csvFile err)).
Proof.
  apply (C7_one_failing_file_fails_the_request pdqRuntime sampleWorld).
  exists "gym-stats-20240603.csv". split.
  - right. left. reflexivity.
  - unfold fileFails. cbn. intros (_ & _ & _ & H).
    repeat (destruct H as [H|H]; [discriminate|]). exact H.
Defined.

End AggregatorClaims.

(* ===================================================================== *)
(** * Properties of the Timestamp Normalizer                              *)
(* ===================================================================== *)

Section NormalizerClaims.
Import time.




End NormalizerClaims.

(* ===================================================================== *)
(** * Stability of the per-location sort                                  *)
(* ===================================================================== *)

Section StabilityClaims.

Lemma equivalents_pointsWithX (x : string) (l : list DataPoint) :
  equivalents lessX (mkDataPoint x 0) l = pointsWithX x l.
Proof.
  unfold equivalents, pointsWithX. apply filter_ext. intros p.
  unfold lessX. cbn [X].
  destruct (String.eqb_spec (X p) x) as [->|Hne].
  - rewrite lt_irrefl. reflexivity.
  - destruct (gostring.lt x (X p)) eqn:E1; [reflexivity|].
    destruct (gostring.lt (X p) x) eqn:E2; [reflexivity|].
    exfalso. apply Hne. apply le_antisym; apply not_lt_le; assumption.
Qed.

Lemma Sorted_weaken {A} (R R' : A → A → Prop) (l : list A) :
  (∀ a b, R a b → R' a b) → Sorted R l → Sorted R' l.
Proof.
  intros HR Hs. induction Hs as [|x l Hs IH Hhd]; constructor; [exact IH|].
  destruct Hhd; constructor; auto.
Qed.

(** C5 as stated fails.  Thirteen samples of one location, the first
    twelve in one bucket and the thirteenth in an earlier one:
    [sort.Slice] returns the twelve points of equal [x] in another
    order than they were inserted in. *)
Lemma C5_counterexample :
  let inserted := pointsAt "T1" (allPoints tiesWorld ["gym-stats-20240601.csv"]) in
  Y <$> inserted = [1; 2; 3; 4; 5; 6; 7; 8; 9; 10; 11; 12; 13]
  ∧ option_map (fmap Y) (sort.Slice lessX inserted)
    = Some [13; 7; 3; 4; 5; 6; 1; 8; 9; 10; 11; 12; 2]
  ∧ ∃ d, convertCSVFilesToJSON pdqRuntime tiesWorld ["gym-stats-20240601.csv"]
         = ([d], None)
         ∧ Label d = "T1"
         ∧ Y <$> pointsWithX "2024-06-01T14:04:00+03:00" inserted
           = [1; 2; 3; 4; 5; 6; 7; 8; 9; 10; 11; 12]
         ∧ Y <$> pointsWithX "2024-06-01T14:04:00+03:00" (Data d)
           = [7; 3; 4; 5; 6; 1; 8; 9; 10; 11; 12; 2].
Proof.
  cbv zeta. split; [vm_compute; reflexivity|].
  split; [vm_compute; reflexivity|].
  eexists. split; [vm_compute; reflexivity|].
  repeat split; vm_compute; reflexivity.
Qed.

(** C5, amended.  The per-location sort leaves the DataPoints of a
    Dataset, which are the points of the usable rows of its location,
    in nondecreasing order of [x].  Where [sort.Slice] runs its
    insertion sort, as it does on every slice of at most 12 elements,
    the sort is stable: in a Dataset of at most 12 DataPoints those of
    equal [x] keep the order they were inserted in, file after file
    and row after row.  No such order is kept in longer Datasets. *)
Theorem C5_sort_is_stable_up_to_12_points
  (rt : LawfulRuntime) (w : World) (csvFiles : list string)
  (datasets : list Dataset) :
  (∀ points : list DataPoint, (length points <= 12)%nat →
     sortSlice rt _ lessX points = pdqSlice _ lessX points) →
  convertCSVFilesToJSON rt w csvFiles = (datasets, None) →
  ∀ d, d ∈ datasets →
    let inserted := pointsAt (Label d) (allPoints w csvFiles) in
    Data d ≡ₚ inserted
    ∧ Sorted (λ p q, gostring.le (X p) (X q) = true) (Data d)
    ∧ ((length (Data d) <= 12)%nat →
       ∀ x, pointsWithX x (Data d) = pointsWithX x inserted).
Proof.
  intros Hshort Hok d Hd. cbv zeta.
  apply convertCSVFilesToJSON_ok in Hok as [_ ->].
  rewrite output_Permutation in Hd.
  apply list_elem_of_fmap in Hd as ([l ps] & -> & Hin).
  apply elem_of_map_to_list in Hin.
  apply lookup_allPoints in Hin as [-> _].
  unfold entryDataset. cbn [Label Data fst snd].
  set (inserted := pointsAt l (allPoints w csvFiles)).
  split; [apply sortSlice_perm | split].
  - apply (Sorted_weaken (λ a b, lessX b a = false)).
    + intros a b Hab. apply not_lt_le. exact Hab.
    + apply sortSlice_sorted, lessX_swo.
  - intros Hlen x.
    assert (Hlen' : (length inserted <= 12)%nat).
    { rewrite <- (Permutation_length (sortSlice_perm rt _ lessX inserted)).
      exact Hlen. }
    rewrite Hshort, pdqSlice_short, insertionSlice_isort by assumption.
    rewrite <- !equivalents_pointsWithX.
    apply isort_stable, lessX_swo.
Qed.

Lemma C5_sort_is_stable_up_to_12_points_witness :
  Y <$> pointsAt "T1" (allPoints interleavedWorld ["gym-stats-20240601.csv"])
  = [1; 2; 3; 4; 5; 6]
  ∧ ∃ d, convertCSVFilesToJSON lawfulPdqRuntime interleavedWorld
           ["gym-stats-20240601.csv"]
         = ([d], None)
      ∧ Y <$> Data d = [3; 5; 1; 2; 4; 6]
      ∧ pointsWithX "2024-06-01T14:04:00+03:00" (Data d)
        = pointsWithX "2024-06-01T14:04:00+03:00"
            (pointsAt "T1"
               (allPoints interleavedWorld ["gym-stats-20240601.csv"]))
      ∧ Y <$> pointsWithX "2024-06-01T14:04:00+03:00" (Data d) = [1; 2; 4; 6]
      ∧ Y <$> pointsWithX "2024-06-01T14:00:00+03:00" (Data d) = [3; 5].
Proof.
  split; [vm_compute; reflexivity|].
  exists (mkDataset "T1"
            [mkDataPoint "2024-06-01T14:00:00+03:00" 3;
             mkDataPoint "2024-06-01T14:00:00+03:00" 5;
             mkDataPoint "2024-06-01T14:04:00+03:00" 1;
             mkDataPoint "2024-06-01T14:04:00+03:00" 2;
             mkDataPoint "2024-06-01T14:04:00+03:00" 4;
             mkDataPoint "2024-06-01T14:04:00+03:00" 6]).
  split; [vm_compute; reflexivity|].
  split; [reflexivity|].
  split; [|split; vm_compute; reflexivity].
  destruct (C5_sort_is_stable_up_to_12_points
              lawfulPdqRuntime interleavedWorld ["gym-stats-20240601.csv"]
              [mkDataset "T1"
                 [mkDataPoint "2024-06-01T14:00:00+03:00" 3;
                  mkDataPoint "2024-06-01T14:00:00+03:00" 5;
                  mkDataPoint "2024-06-01T14:04:00+03:00" 1;
                  mkDataPoint "2024-06-01T14:04:00+03:00" 2;
                  mkDataPoint "2024-06-01T14:04:00+03:00" 4;
                  mkDataPoint "2024-06-01T14:04:00+03:00" 6]]
              (λ points _, eq_refl)
              ltac:(vm_compute; reflexivity)
              (mkDataset "T1"
                 [mkDataPoint "2024-06-01T14:00:00+03:00" 3;
                  mkDataPoint "2024-06-01T14:00:00+03:00" 5;
                  mkDataPoint "2024-06-01T14:04:00+03:00" 1;
                  mkDataPoint "2024-06-01T14:04:00+03:00" 2;
                  mkDataPoint "2024-06-01T14:04:00+03:00" 4;
                  mkDataPoint "2024-06-01T14:04:00+03:00" 6])
              ltac:(left))
    as (_ & _ & Hstable).
  apply Hstable. cbn. lia.
Defined.

End StabilityClaims.

(* ===================================================================== *)
(** * Further properties of the Log File Locator                          *)
(* ===================================================================== *)

Section LocatorExtras.
Import gostring filepath time.

Lemma List_filter_sublist {A} (f : A → bool) (l : list A) :
  sublist (List.filter f l) l.
Proof.
  induction l as [|x l IH]; cbn [List.filter]; [constructor|].
  destruct (f x); [apply sublist_skip | apply sublist_cons]; exact IH.
Qed.

(** X1. When the pattern matches at least one file, [findLatestCSV]
    returns no error, and the file it returns is the first, in the order
    of the matches, of the inspectable matches with the greatest
    modification time: every match before it is older, no match after it
    is newer.  It returns the empty name only when no inspectable match
    was modified after the zero time. *)
Theorem X1_latest_is_the_first_newest_match (w : World) :
  Glob (dirNames w) ≠ [] →
  ∃ latestFile,
    findLatestCSV w = (latestFile, None)
    ∧ ((latestFile = ""
        ∧ ∀ file t, List.In file (Glob (dirNames w)) →
                    statModTime w file = Some t → t <= zeroTimeNanos)
       ∨ ∃ latestTime pre post,
           Glob (dirNames w) = (pre ++ latestFile :: post)%list
           ∧ statModTime w latestFile = Some latestTime
           ∧ zeroTimeNanos < latestTime
           ∧ (∀ file t, List.In file pre → statModTime w file = Some t →
                        t < latestTime)
           ∧ (∀ file t, List.In file post → statModTime w file = Some t →
                        t <= latestTime)).
Proof.
  intros Hne. unfold findLatestCSV.
  rewrite len_list_nonempty by assumption.
  pose proof (latest_fold w (Glob (dirNames w)) "" zeroTimeNanos) as H.
  cbv zeta in H.
  destruct (foldl _ ("", zeroTimeNanos) (Glob (dirNames w))) as [f t].
  cbn [fst snd] in H. destruct H as [Hmax Hres].
  exists f. split; [reflexivity|].
  destruct Hres as [[= -> ->]|(pre & post & E & Hs & Hlt & Hpre)].
  - left. split; [reflexivity | exact Hmax].
  - right. exists t, pre, post. repeat split; try assumption.
    intros file t' Hin. apply Hmax. rewrite E.
    apply in_or_app. right. right. exact Hin.
Qed.

Lemma X1_latest_is_the_first_newest_match_witness :
  ∃ latestFile,
    findLatestCSV mixedWorld = (latestFile, None)
    ∧ ((latestFile = ""
        ∧ ∀ file t, List.In file (Glob (dirNames mixedWorld)) →
                    statModTime mixedWorld file = Some t → t <= zeroTimeNanos)
       ∨ ∃ latestTime pre post,
           Glob (dirNames mixedWorld) = (pre ++ latestFile :: post)%list
           ∧ statModTime mixedWorld latestFile = Some latestTime
           ∧ zeroTimeNanos < latestTime
           ∧ (∀ file t, List.In file pre → statModTime mixedWorld file = Some t →
                        t < latestTime)
           ∧ (∀ file t, List.In file post → statModTime mixedWorld file = Some t →
                        t <= latestTime)).
Proof.
  apply (X1_latest_is_the_first_newest_match mixedWorld).
  vm_compute. discriminate.
Defined.

(** X2. With [from] and [to] that parse, [findCSVFilesInRange] keeps the
    matches in their order, and it keeps a match exactly when its name
    is at least 20 bytes long and the bytes 10 to 17 of the name are a
    valid date [YYYYMMDD] from [from] to [to]; whatever stands between
    these bytes and [.csv] plays no part. *)
Theorem X2_range_reads_bytes_10_to_17
  (w : World) (fromDate toDate : string) (from to : civil) :
  parseCivil layoutDate fromDate = Some from →
  parseCivil layoutDate toDate = Some to →
  sublist (fst (findCSVFilesInRange w fromDate toDate)) (Glob (dirNames w))
  ∧ ∀ file,
      List.In file (fst (findCSVFilesInRange w fromDate toDate))
      ↔ List.In file (Glob (dirNames w))
        ∧ 20 <= len file
        ∧ ∃ d, parseCivil layoutCompactDate (slice file 10 18) = Some d
               ∧ dateLe from d ∧ dateLe d to.
Proof.
  intros Hf Ht.
  destruct (Glob (dirNames w)) as [|file0 files] eqn:Eg.
  { unfold findCSVFilesInRange. rewrite Eg. cbn.
    split; [constructor|]. intros file. split; [intros [] | intros [[] _]]. }
  rewrite (findCSVFilesInRange_filter w fromDate toDate (civilTime from) (civilTime to))
    by (rewrite ?Eg; try discriminate; apply Parse_civil; eauto).
  cbn [fst]. rewrite Eg. split; [apply List_filter_sublist|].
  intros file. rewrite filter_In.
  split.
  - intros [Hin Hr]. split; [exact Hin|].
    rewrite <- (Glob_Base (dirNames w) file) by (rewrite Eg; exact Hin).
    apply (inRange_select from to); try assumption.
    + eapply parseCivil_valid; eauto.
    + eapply parseCivil_valid; eauto.
    + eapply parseCivil_midnight; [|exact Hf]; reflexivity.
    + eapply parseCivil_midnight; [|exact Ht]; reflexivity.
  - intros (Hin & Hsel). split; [exact Hin|].
    rewrite <- (Glob_Base (dirNames w) file) in Hsel by (rewrite Eg; exact Hin).
    apply (inRange_select from to); try assumption.
    + eapply parseCivil_valid; eauto.
    + eapply parseCivil_valid; eauto.
    + eapply parseCivil_midnight; [|exact Hf]; reflexivity.
    + eapply parseCivil_midnight; [|exact Ht]; reflexivity.
Qed.

Lemma X2_range_reads_bytes_10_to_17_witness :
  List.In "gym-stats-20240113-copy.csv"
    (fst (findCSVFilesInRange mixedWorld "2024-01-13" "2024-01-14"))
  ∧ ¬ List.In "gym-stats-2024.csv"
        (fst (findCSVFilesInRange mixedWorld "2024-01-13" "2024-01-14")).
Proof.
  destruct (X2_range_reads_bytes_10_to_17 mixedWorld "2024-01-13" "2024-01-14"
              (mkCivil 2024 1 13 0 0 0) (mkCivil 2024 1 14 0 0 0)
              ltac:(vm_compute; reflexivity) ltac:(vm_compute; reflexivity))
    as [_ Hsel].
  split.
  - apply (proj2 (Hsel "gym-stats-20240113-copy.csv")).
    split; [vm_compute; tauto|]. split; [vm_compute; discriminate|].
    exists (mkCivil 2024 1 13 0 0 0). split; [vm_compute; reflexivity|].
    unfold dateLe, dateLt, dateEq; simpl; lia.
  - intros H. apply (proj1 (Hsel "gym-stats-2024.csv")) in H as (_ & Hlen & _).
    vm_compute in Hlen. apply Hlen. reflexivity.
Defined.

End LocatorExtras.

(* ===================================================================== *)
(** * Further properties of the Row Parser                                *)
(* ===================================================================== *)

Section ParserExtras.

(** X3. Each of the four column positions found in a header is the
    position of the last header cell that bears the name of the column,
    compared byte for byte, and [-1] when no cell bears it: of two
    columns of one name the later one is read. *)
Theorem X3_last_header_of_a_name_wins (headers : list string) :
  let c := headerColumns headers in
  lastPosition "timestamp" headers (timestampIdx c)
  ∧ lastPosition "location_name" headers (locationNameIdx c)
  ∧ lastPosition "user_count" headers (userCountIdx c)
  ∧ lastPosition "status" headers (statusIdx c).
Proof.
  cbv zeta. repeat split.
  - apply (headerColumns_lastPosition timestampIdx);
      [apply headerStep_timestamp | reflexivity].
  - apply (headerColumns_lastPosition locationNameIdx);
      [apply headerStep_locationName | reflexivity].
  - apply (headerColumns_lastPosition userCountIdx);
      [apply headerStep_userCount | reflexivity].
  - apply (headerColumns_lastPosition statusIdx);
      [apply headerStep_status | reflexivity].
Qed.

(** X4. The reads of a record never leave it: when the header has the
    four columns (the test of line 179 fails) and a record passes the
    length test of line 193, each of the four positions is a position
    of the record, so [record[i]] holds a field of the record there. *)
Theorem X4_record_reads_are_in_bounds
  (headers record : list string) :
  let c := headerColumns headers in
  (timestampIdx c =? -1) || (locationNameIdx c =? -1)
    || (userCountIdx c =? -1) || (statusIdx c =? -1) = false →
  (gostring.len_list record
   <=? max2 (max2 (timestampIdx c) (locationNameIdx c))
            (max2 (userCountIdx c) (statusIdx c))) = false →
  ∀ i, List.In i [timestampIdx c; locationNameIdx c; userCountIdx c; statusIdx c] →
    0 <= i < gostring.len_list record
    ∧ record !! Z.to_nat i = Some (field record i).
Proof.
  cbv zeta. intros Hfound Hlen i Hi.
  rewrite guard_hasColumns in Hlen. apply negb_false_iff in Hlen.
  unfold hasColumns in Hlen.
  rewrite !andb_true_iff, !Z.ltb_lt in Hlen.
  rewrite !orb_false_iff, !Z.eqb_neq in Hfound.
  assert (L1 := headerColumns_lastPosition timestampIdx "timestamp" headers
                  headerStep_timestamp eq_refl).
  assert (L2 := headerColumns_lastPosition locationNameIdx "location_name" headers
                  headerStep_locationName eq_refl).
  assert (L3 := headerColumns_lastPosition userCountIdx "user_count" headers
                  headerStep_userCount eq_refl).
  assert (L4 := headerColumns_lastPosition statusIdx "status" headers
                  headerStep_status eq_refl).
  assert (Hpos : 0 <= timestampIdx (headerColumns headers)
                 ∧ 0 <= locationNameIdx (headerColumns headers)
                 ∧ 0 <= userCountIdx (headerColumns headers)
                 ∧ 0 <= statusIdx (headerColumns headers)).
  { unfold lastPosition in *.
    destruct L1 as [[? _]|[? _]]; [lia|].
    destruct L2 as [[? _]|[? _]]; [lia|].
    destruct L3 as [[? _]|[? _]]; [lia|].
    destruct L4 as [[? _]|[? _]]; [lia|]. auto. }
  assert (Hrange : 0 <= i < gostring.len_list record).
  { cbn [List.In] in Hi. destruct Hi as [<-|[<-|[<-|[<-|[]]]]]; lia. }
  split; [exact Hrange|].
  unfold field. unfold gostring.len_list in Hrange.
  destruct (lookup_lt_is_Some_2 record (Z.to_nat i) ltac:(lia)) as [v ->].
  reflexivity.
Qed.

Lemma X4_record_reads_are_in_bounds_witness :
  0 <= 3 < 6
  ∧ ["2024-06-01 11:03:47"; "1"; "Hipodroom"; "5"; "success"; "{total:5}"]
      !! Z.to_nat 3
    = Some (field ["2024-06-01 11:03:47"; "1"; "Hipodroom"; "5"; "success";
                   "{total:5}"] 3).
Proof.
  apply (X4_record_reads_are_in_bounds
           ["timestamp"; "location_id"; "location_name"; "user_count"; "status";
            "response"]
           ["2024-06-01 11:03:47"; "1"; "Hipodroom"; "5"; "success"; "{total:5}"]
           ltac:(vm_compute; reflexivity) ltac:(vm_compute; reflexivity) 3).
  do 2 right. left. reflexivity.
Defined.

(** X20. No row fails a file.  Once the file is open and its header
    read, [processCSVFile] returns an error only for a header that lacks
    one of the four columns, and then leaves the map as it was; with
    the four columns in the header it returns no error, whatever the
    rows are: records that cannot be read, short records, failed
    requests, timestamps and counts that do not parse are passed
    over. *)
Theorem X20_no_row_fails_a_file
  (w : World) (csvFile : string) (headers : list string)
  (rows : list (option (list string))) (m : gmap string (list DataPoint)) :
  openCSV w csvFile = Some (Some headers :: rows) →
  (List.In "timestamp" headers ∧ List.In "location_name" headers
   ∧ List.In "user_count" headers ∧ List.In "status" headers →
   snd (processCSVFile w csvFile m) = None)
  ∧ (¬ (List.In "timestamp" headers ∧ List.In "location_name" headers
        ∧ List.In "user_count" headers ∧ List.In "status" headers) →
     processCSVFile w csvFile m = (m, Some errMissingColumns)).
Proof.
  intros Hopen. unfold processCSVFile. rewrite Hopen.
  fold (headerColumns headers).
  pose proof (headerColumns_missing headers) as Hm. cbv zeta in Hm.
  destruct ((timestampIdx (headerColumns headers) =? -1) || _ || _ || _).
  - split; [|reflexivity].
    intros Hall. exfalso. exact (proj1 Hm eq_refl Hall).
  - split; [reflexivity|].
    intros Hnot. apply Hm in Hnot. discriminate.
Qed.

Lemma X20_no_row_fails_a_file_witness :
  snd (processCSVFile sampleWorld "gym-stats-20240601.csv" ∅) = None.
Proof.
  apply (X20_no_row_fails_a_file sampleWorld "gym-stats-20240601.csv"
           ["timestamp"; "location_id"; "location_name"; "user_count"; "status";
            "response"]
           (tail logJune1) ∅ eq_refl).
  repeat split;
    [left | do 2 right; left | do 3 right; left | do 4 right; left];
    reflexivity.
Defined.

End ParserExtras.

(* ===================================================================== *)
(** * Further properties of the Aggregator                                *)
(* ===================================================================== *)

Section AggregatorExtras.

(** X5. [processCSVFile] only appends to the map it is given: when it
    returns an error the map is as it was, and in any case the points a
    location had before the call are still there, in their order, at
    the front of the points it has after the call. *)
Theorem X5_processing_a_file_only_appends
  (w : World) (csvFile : string) (m m' : gmap string (list DataPoint))
  (e : option error) :
  processCSVFile w csvFile m = (m', e) →
  (e ≠ None → m' = m)
  ∧ ∀ locationName points,
      m !! locationName = Some points →
      ∃ more, m' !! locationName = Some (points ++ more)%list.
Proof.
  intros H.
  destruct (processCSVFile_spec w csvFile m) as [[_ [e' E]]|[_ E]];
    rewrite E in H; injection H as <- <-.
  - split; [reflexivity|]. intros l ps Hl. exists []. rewrite app_nil_r. exact Hl.
  - split; [intros Hne; contradiction|]. intros l ps Hl.
    rewrite lookup_foldl_appendPoint, Hl. cbn [default].
    destruct (pointsAt l (filePoints w csvFile)) as [|q qs].
    + exists []. rewrite app_nil_r. reflexivity.
    + eexists. reflexivity.
Qed.

Lemma X5_processing_a_file_only_appends_witness :
  ∃ more,
    fst (processCSVFile sampleWorld "gym-stats-20240602.csv"
           {["Hipodroom" := [mkDataPoint "2024-06-01T14:02:00+03:00" 5]]})
      !! "Hipodroom"
    = Some ([mkDataPoint "2024-06-01T14:02:00+03:00" 5] ++ more)%list.
Proof.
  destruct (X5_processing_a_file_only_appends sampleWorld "gym-stats-20240602.csv"
              {["Hipodroom" := [mkDataPoint "2024-06-01T14:02:00+03:00" 5]]}
              _ _ (surjective_pairing _)) as [_ H].
  apply H. vm_compute. reflexivity.
Defined.

(** X6. A conversion that succeeds returns no empty Dataset: a location
    is in the output only with at least one DataPoint.  The output is
    the empty list exactly when the files hold no usable row at all. *)
Theorem X6_no_dataset_is_empty
  (rt : LawfulRuntime) (w : World) (csvFiles : list string)
  (datasets : list Dataset) :
  convertCSVFilesToJSON rt w csvFiles = (datasets, None) →
  (∀ d, d ∈ datasets → Data d ≠ [])
  ∧ (datasets = [] ↔ allPoints w csvFiles = []).
Proof.
  intros Hok. apply convertCSVFilesToJSON_ok in Hok as [_ ->]. split.
  - intros d Hd. apply output_elem in Hd as [Hne ->]. cbn [Data Label].
    intros E. apply Hne.
    apply Permutation_nil_r. rewrite <- E. symmetry. apply sortSlice_perm.
  - pose proof (labelledPoints_allPoints rt w csvFiles) as Hp.
    split.
    + intros E. rewrite E in Hp. apply Permutation_nil_r. symmetry. exact Hp.
    + intros E.
      destruct (sortSlice rt _ lessLabel _) as [|d ds] eqn:Es; [reflexivity|].
      exfalso.
      assert (Hd : d ∈ sortSlice rt _ lessLabel
                     (entryDataset rt
                        <$> rangeMap rt
                              (map_to_list
                                 (foldl appendPoint ∅ (allPoints w csvFiles)))))
        by (rewrite Es; left).
      apply output_elem in Hd as [Hne _]. rewrite E in Hne. apply Hne. reflexivity.
Qed.

Lemma X6_no_dataset_is_empty_witness :
  (∀ d, d ∈ sampleOutput → Data d ≠ [])
  ∧ (sampleOutput = [] ↔ allPoints sampleWorld sampleFiles = []).
Proof.
  apply (X6_no_dataset_is_empty lawfulPdqRuntime sampleWorld sampleFiles).
  vm_compute. reflexivity.
Defined.

(** X7. The error of a conversion is the error of the first file, in
    the order given, whose processing fails, under the name of that
    file; the files that come after it play no part. *)
Theorem X7_first_failing_file_is_reported
  (w : World) (pre : list string) (csvFile : string) :
  (∀ f, List.In f pre → ¬ fileFails w f) →
  fileFails w csvFile →
  ∃ err,
    (∀ m, processCSVFile w csvFile m = (m, Some err))
    ∧ ∀ (rt : Runtime) (post : list string),
        convertCSVFilesToJSON rt w (pre ++ csvFile :: post)
        = ([], Some (errProcess csvFile err)).
Proof.
  intros Hpre Hf.
  destruct (processCSVFile_fails w csvFile ∅ Hf) as [err E].
  exists err.
  assert (Hall : ∀ m, processCSVFile w csvFile m = (m, Some err)).
  { intros m. destruct (processCSVFile_fails w csvFile m Hf) as [err' E'].
    rewrite E'. f_equal.
    pose proof (processCSVFile_error w csvFile m ∅) as H.
    rewrite E, E' in H. exact H. }
  split; [exact Hall|]. intros rt post.
  rewrite convertCSVFilesToJSON_unfold, processFiles_app by assumption.
  cbn [processFiles]. rewrite Hall. reflexivity.
Qed.

Lemma X7_first_failing_file_is_reported_witness :
  ∃ err,
    (∀ m, processCSVFile sampleWorld "gym-stats-20240603.csv" m = (m, Some err))
    ∧ ∀ (rt : Runtime) (post : list string),
        convertCSVFilesToJSON rt sampleWorld
          (["gym-stats-20240601.csv"] ++ "gym-stats-20240603.csv" :: post)
        = ([], Some (errProcess "gym-stats-20240603.csv" err)).
Proof.
  apply (X7_first_failing_file_is_reported sampleWorld ["gym-stats-20240601.csv"]).
  - intros f [<-|[]]. unfold fileFails. cbn. intros H. apply H.
    repeat split;
      [left | do 2 right; left | do 3 right; left | do 4 right; left];
      reflexivity.
  - unfold fileFails. cbn. intros (_ & _ & _ & H).
    repeat (destruct H as [H|H]; [discriminate|]). exact H.
Defined.

(** X8. Conversion adds up over lists of files: the files of two lists
    convert together exactly when each list converts, and then the
    DataPoints of the joint output, each with the label of its Dataset,
    are those of the two outputs taken together. *)
Theorem X8_conversion_adds_up_over_file_lists
  (rt : LawfulRuntime) (w : World) (files1 files2 : list string) :
  ((∃ datasets, convertCSVFilesToJSON rt w (files1 ++ files2) = (datasets, None))
   ↔ (∃ datasets1, convertCSVFilesToJSON rt w files1 = (datasets1, None))
     ∧ (∃ datasets2, convertCSVFilesToJSON rt w files2 = (datasets2, None)))
  ∧ ∀ datasets datasets1 datasets2,
      convertCSVFilesToJSON rt w (files1 ++ files2) = (datasets, None) →
      convertCSVFilesToJSON rt w files1 = (datasets1, None) →
      convertCSVFilesToJSON rt w files2 = (datasets2, None) →
      labelledPoints datasets
      ≡ₚ (labelledPoints datasets1 ++ labelledPoints datasets2)%list.
Proof.
  split.
  - split.
    + intros [ds H]. apply convertCSVFilesToJSON_ok in H as [Hok _].
      split; eexists; apply convertCSVFilesToJSON_success;
        intros f Hf; apply Hok, in_or_app; auto.
    + intros [[ds1 H1] [ds2 H2]].
      apply convertCSVFilesToJSON_ok in H1 as [Hok1 _].
      apply convertCSVFilesToJSON_ok in H2 as [Hok2 _].
      eexists. apply convertCSVFilesToJSON_success.
      intros f Hf. apply in_app_or in Hf as [Hf|Hf]; auto.
  - intros ds ds1 ds2 H H1 H2.
    apply convertCSVFilesToJSON_ok in H as [_ ->].
    apply convertCSVFilesToJSON_ok in H1 as [_ ->].
    apply convertCSVFilesToJSON_ok in H2 as [_ ->].
    rewrite !labelledPoints_allPoints, allPoints_app. reflexivity.
Qed.

(** X9. The order in which the files are given changes neither the
    Datasets that come out nor the DataPoints of any of them: a
    conversion of the same files in another order succeeds as well, with
    the same labels in the same order, and each Dataset holds the same
    DataPoints showing the same sequence of [x] values; only DataPoints
    of equal [x] may change places. *)
Theorem X9_file_order_only_moves_ties
  (rt : LawfulRuntime) (w : World) (csvFiles csvFiles' : list string)
  (datasets : list Dataset) :
  csvFiles' ≡ₚ csvFiles →
  convertCSVFilesToJSON rt w csvFiles = (datasets, None) →
  ∃ datasets',
    convertCSVFilesToJSON rt w csvFiles' = (datasets', None)
    ∧ Forall2 (λ d d', Label d' = Label d
                       ∧ Data d' ≡ₚ Data d
                       ∧ X <$> Data d' = X <$> Data d)
              datasets datasets'.
Proof.
  intros Hperm Hok. apply convertCSVFilesToJSON_ok in Hok as [Hfiles ->].
  eexists. split.
  { apply convertCSVFilesToJSON_success. intros f Hf. apply Hfiles.
    apply list_elem_of_In. rewrite <- Hperm. apply list_elem_of_In. exact Hf. }
  set (points := allPoints w csvFiles).
  set (points' := allPoints w csvFiles').
  assert (Hpts : points' ≡ₚ points) by (apply allPoints_Permutation; exact Hperm).
  set (out := sortSlice rt _ lessLabel
                (entryDataset rt
                   <$> rangeMap rt (map_to_list (foldl appendPoint ∅ points)))).
  set (out' := sortSlice rt _ lessLabel
                 (entryDataset rt
                    <$> rangeMap rt (map_to_list (foldl appendPoint ∅ points')))).
  assert (Hin : ∀ l, l ∈ Label <$> out ↔ pointsAt l points ≠ []).
  { intros l. rewrite list_elem_of_fmap. split.
    - intros (d & -> & Hd). apply output_elem in Hd as [H _]. exact H.
    - intros Hne.
      exists (mkDataset l (sortSlice rt _ lessX (pointsAt l points))).
      split; [reflexivity|]. apply output_elem. cbn [Label]. auto. }
  assert (Hin' : ∀ l, l ∈ Label <$> out' ↔ pointsAt l points' ≠ []).
  { intros l. rewrite list_elem_of_fmap. split.
    - intros (d & -> & Hd). apply output_elem in Hd as [H _]. exact H.
    - intros Hne.
      exists (mkDataset l (sortSlice rt _ lessX (pointsAt l points'))).
      split; [reflexivity|]. apply output_elem. cbn [Label]. auto. }
  assert (Hlabels : Label <$> out = Label <$> out').
  { apply sorted_strings_unique.
    - apply Sorted_fmap_key, (sortSlice_sorted rt _ lessLabel _ lessLabel_swo).
    - apply Sorted_fmap_key, (sortSlice_sorted rt _ lessLabel _ lessLabel_swo).
    - apply NoDup_Permutation; [apply output_labels | apply output_labels |].
      intros l. rewrite Hin, Hin'.
      pose proof (pointsAt_Permutation l _ _ Hpts) as Hl.
      split; intros Hne E; apply Hne.
      + rewrite E in Hl. apply Permutation_nil_r. symmetry. exact Hl.
      + rewrite E in Hl. apply Permutation_nil_r. exact Hl. }
  assert (Hall : Forall (λ d, d ∈ out) out) by (apply Forall_forall; auto).
  assert (Hall' : Forall (λ d, d ∈ out') out') by (apply Forall_forall; auto).
  assert (H2 : Forall2 (λ d d', Label d = Label d') out out').
  { apply Forall2_fmap_eq. exact Hlabels. }
  apply (Forall2_impl _ _ _ _ (Forall2_with_Forall _ _ _ _ _ H2 Hall Hall')).
  intros d d' (Hd & Hd1 & Hd2).
  apply output_elem in Hd1 as [_ E1]. apply output_elem in Hd2 as [_ E2].
  fold points in E1. fold points' in E2.
  assert (Hdata : Data d' ≡ₚ Data d).
  { rewrite E1, E2. cbn [Data]. rewrite !sortSlice_perm, <- Hd.
    apply pointsAt_Permutation. exact Hpts. }
  split; [symmetry; exact Hd|]. split; [exact Hdata|].
  apply sorted_strings_unique.
  - rewrite E2. cbn [Data].
    apply Sorted_fmap_key, (sortSlice_sorted rt _ lessX _ lessX_swo).
  - rewrite E1. cbn [Data].
    apply Sorted_fmap_key, (sortSlice_sorted rt _ lessX _ lessX_swo).
  - rewrite Hdata. reflexivity.
Qed.

Lemma X9_file_order_only_moves_ties_witness :
  ∃ datasets',
    convertCSVFilesToJSON lawfulPdqRuntime sampleWorld
      ["gym-stats-20240602.csv"; "gym-stats-20240601.csv"] = (datasets', None)
    ∧ Forall2 (λ d d', Label d' = Label d
                       ∧ Data d' ≡ₚ Data d
                       ∧ X <$> Data d' = X <$> Data d)
              sampleOutput datasets'.
Proof.
  apply (X9_file_order_only_moves_ties lawfulPdqRuntime sampleWorld sampleFiles).
  - apply Permutation_swap.
  - vm_compute. reflexivity.
Defined.

End AggregatorExtras.

(* ===================================================================== *)
(** * Properties of the two data generation endpoints                     *)
(* ===================================================================== *)

Section HandlerExtras.
Import http.

Ltac response_fields :=
  rewrite ?status_fail, ?body_fail, ?header_fail,
          ?status_Encode, ?body_Encode, ?header_Encode,
          ?status_WriteHeader, ?body_WriteHeader, ?header_WriteHeader,
          ?status_setHeaders, ?body_setHeaders
    by (rewrite ?status_setHeaders; reflexivity);
  cbn [status body header newResponseWriter app].

(** X12. [generateDataHandler] reports a success exactly when it has
    written [gym-data.json] in full.  The file then holds the Datasets
    of the conversion of the file that [findLatestCSV] returned, the
    request was a POST, the status is 200 and the one value of the body
    names that file and the number of Datasets. *)
Theorem X12_generate_succeeds_iff_the_file_is_written
  (rt : Runtime) (world : World) (disk : Disk) (r : Request) :
  let '(w, file) := generateDataHandler rt world disk newResponseWriter r in
  ((∃ resp, resp ∈ body w ∧ Success resp = true)
   ↔ ∃ datasets, file = fileWritten datasets)
  ∧ ∀ datasets, file = fileWritten datasets →
      Method r = "POST" ∧ status w = Some StatusOK
      ∧ ∃ csvFile,
          findLatestCSV world = (csvFile, None)
          ∧ convertCSVToJSON rt world csvFile = (datasets, None)
          ∧ body w
            = [mkGenerateResponse true "Data generated successfully"
                 ("Successfully generated gym-data.json from " +:+ csvFile
                  +:+ newline +:+ "Found "
                  +:+ gostring.utoa (gostring.len_list datasets)
                  +:+ " locations with data") None].
Proof.
  unfold generateDataHandler.
  destruct (String.eqb_spec (Method r) "OPTIONS") as [Ho|Ho].
  { response_fields. split; [|discriminate].
    split; [intros (resp & Hin & _); inversion Hin | intros [ds [=]]]. }
  destruct (String.eqb_spec (Method r) "POST") as [Hp|Hp]; cbn [negb].
  2: { response_fields. split; [|discriminate].
       split; [|intros [ds [=]]].
       intros (resp & Hin & Hs). apply list_elem_of_singleton in Hin. subst resp.
       discriminate. }
  destruct (findLatestCSV world) as [csvFile [err|]] eqn:Ef.
  { response_fields. split; [|discriminate].
    split; [|intros [ds [=]]].
    intros (resp & Hin & Hs). apply list_elem_of_singleton in Hin. subst resp.
    discriminate. }
  destruct (convertCSVToJSON rt world csvFile) as [datasets [err|]] eqn:Ec.
  { response_fields. split; [|discriminate].
    split; [|intros [ds [=]]].
    intros (resp & Hin & Hs). apply list_elem_of_singleton in Hin. subst resp.
    discriminate. }
  unfold writeJSON.
  destruct (createJSON disk); cbn [negb].
  2: { response_fields. split; [|discriminate].
       split; [|intros [ds [=]]].
       intros (resp & Hin & Hs). apply list_elem_of_singleton in Hin. subst resp.
       discriminate. }
  destruct (encodeJSON disk datasets); cbn [negb].
  2: { response_fields. split; [|discriminate].
       split; [|intros [ds [=]]].
       intros (resp & Hin & Hs). apply list_elem_of_singleton in Hin. subst resp.
       discriminate. }
  response_fields. split.
  - split; [intros _; eauto|]. intros _. eexists. split; [left|reflexivity].
  - intros ds [= <-]. split; [exact Hp|]. split; [reflexivity|].
    exists csvFile. auto.
Qed.

(** X13. [generateDataRangeHandler] reports a success exactly when it
    has written [gym-data.json] in full.  The file then holds the
    Datasets of the conversion of the files that [findCSVFilesInRange]
    selected for the dates of the request, of which there is at least
    one; the request was a POST and the status is 200. *)
Theorem X13_range_succeeds_iff_the_file_is_written
  (rt : Runtime) (world : World) (disk : Disk) (r : Request) :
  let '(w, file) := generateDataRangeHandler rt world disk newResponseWriter r in
  ((∃ resp, resp ∈ body w ∧ Success resp = true)
   ↔ ∃ datasets, file = fileWritten datasets)
  ∧ ∀ datasets, file = fileWritten datasets →
      Method r = "POST" ∧ status w = Some StatusOK
      ∧ ∃ dateRange csvFiles,
          Body r = Some dateRange
          ∧ findCSVFilesInRange world (From dateRange) (To dateRange)
            = (csvFiles, None)
          ∧ csvFiles ≠ []
          ∧ convertCSVFilesToJSON rt world csvFiles = (datasets, None)
          ∧ ∃ output,
              body w = [mkGenerateResponse true
                          "Date range data generated successfully" output None].
Proof.
  assert (Hfail : ∀ (w0 : ResponseWriter) code text,
            status w0 = None → body w0 = [] →
            ((∃ resp, resp ∈ body (fail w0 code text) ∧ Success resp = true)
             ↔ ∃ datasets : list Dataset, fileKept = fileWritten datasets)).
  { intros w0 code text Hs Hb. rewrite body_fail, Hb. cbn [app].
    split; [|intros [ds [=]]].
    intros (resp & Hin & Hsucc). apply list_elem_of_singleton in Hin.
    subst resp. discriminate. }
  assert (Hs0 : status (setHeaders newResponseWriter) = None)
    by (rewrite status_setHeaders; reflexivity).
  assert (Hb0 : body (setHeaders newResponseWriter) = [])
    by (rewrite body_setHeaders; reflexivity).
  unfold generateDataRangeHandler.
  destruct (String.eqb_spec (Method r) "OPTIONS") as [Ho|Ho].
  { response_fields. split; [|discriminate].
    split; [intros (resp & Hin & _); inversion Hin | intros [ds [=]]]. }
  destruct (String.eqb_spec (Method r) "POST") as [Hp|Hp]; cbn [negb].
  2: { split; [apply Hfail; assumption | discriminate]. }
  destruct (Body r) as [dateRange|] eqn:Eb.
  2: { split; [apply Hfail; assumption | discriminate]. }
  destruct (findCSVFilesInRange world (From dateRange) (To dateRange))
    as [csvFiles [err|]] eqn:Ef.
  { split; [apply Hfail; assumption | discriminate]. }
  destruct (Z.eqb_spec (gostring.len_list csvFiles) 0) as [Hl|Hl].
  { split; [apply Hfail; assumption | discriminate]. }
  destruct (convertCSVFilesToJSON rt world csvFiles) as [datasets [err|]] eqn:Ec.
  { split; [apply Hfail; assumption | discriminate]. }
  unfold writeJSON.
  destruct (createJSON disk); cbn [negb].
  2: { split; [apply Hfail; assumption | discriminate]. }
  destruct (encodeJSON disk datasets); cbn [negb].
  2: { split; [|discriminate]. rewrite body_fail, Hb0. cbn [app].
       split; [|intros [ds [=]]].
       intros (resp & Hin & Hsucc). apply list_elem_of_singleton in Hin.
       subst resp. discriminate. }
  response_fields. split.
  - split; [intros _; eauto|]. intros _. eexists. split; [left|reflexivity].
  - intros ds [= <-]. split; [exact Hp|]. split; [reflexivity|].
    exists dateRange, csvFiles. repeat split; try assumption.
    + intros ->. apply Hl. reflexivity.
    + eexists. reflexivity.
Qed.

(** X14. Neither handler touches [gym-data.json] before the conversion
    has succeeded: when the file is not as it was before the request,
    the request was a POST, the files were found and converted without
    error, and [os.Create] succeeded.  The file is left with an
    unfinished content only when the encoding to it fails, and the
    answer is then a failure with the status 500. *)
Theorem X14_file_is_kept_until_the_conversion_succeeds
  (rt : Runtime) (world : World) (disk : Disk) (r : Request) :
  (let '(w, file) := generateDataHandler rt world disk newResponseWriter r in
   file ≠ fileKept →
   Method r = "POST" ∧ createJSON disk = true
   ∧ ∃ csvFile datasets,
       findLatestCSV world = (csvFile, None)
       ∧ convertCSVToJSON rt world csvFile = (datasets, None)
       ∧ (file = fileTruncated →
          encodeJSON disk datasets = false
          ∧ status w = Some StatusInternalServerError
          ∧ body w = [mkGenerateResponse false "" "" (Some textWriteJSON)]))
  ∧ (let '(w, file) := generateDataRangeHandler rt world disk newResponseWriter r in
     file ≠ fileKept →
     Method r = "POST" ∧ createJSON disk = true
     ∧ ∃ dateRange csvFiles datasets,
         Body r = Some dateRange
         ∧ findCSVFilesInRange world (From dateRange) (To dateRange)
           = (csvFiles, None)
         ∧ convertCSVFilesToJSON rt world csvFiles = (datasets, None)
         ∧ (file = fileTruncated →
            encodeJSON disk datasets = false
            ∧ status w = Some StatusInternalServerError
            ∧ body w = [mkGenerateResponse false "" "" (Some textWriteJSON)])).
Proof.
  split.
  - unfold generateDataHandler.
    destruct (String.eqb_spec (Method r) "OPTIONS") as [Ho|Ho];
      [intros H; contradiction|].
    destruct (String.eqb_spec (Method r) "POST") as [Hp|Hp]; cbn [negb];
      [|intros H; contradiction].
    destruct (findLatestCSV world) as [csvFile [err|]] eqn:Ef;
      [intros H; contradiction|].
    destruct (convertCSVToJSON rt world csvFile) as [datasets [err|]] eqn:Ec;
      [intros H; contradiction|].
    unfold writeJSON.
    destruct (createJSON disk); cbn [negb]; [|intros H; contradiction].
    destruct (encodeJSON disk datasets) eqn:Ee; cbn [negb]; intros _.
    + split; [exact Hp|]. split; [reflexivity|].
      exists csvFile, datasets. repeat split; try assumption; discriminate.
    + split; [exact Hp|]. split; [reflexivity|].
      exists csvFile, datasets. split; [reflexivity|]. split; [exact Ec|].
      intros _. response_fields. auto.
  - unfold generateDataRangeHandler.
    destruct (String.eqb_spec (Method r) "OPTIONS") as [Ho|Ho];
      [intros H; contradiction|].
    destruct (String.eqb_spec (Method r) "POST") as [Hp|Hp]; cbn [negb];
      [|intros H; contradiction].
    destruct (Body r) as [dateRange|] eqn:Eb; [|intros H; contradiction].
    destruct (findCSVFilesInRange world (From dateRange) (To dateRange))
      as [csvFiles [err|]] eqn:Ef; [intros H; contradiction|].
    destruct (gostring.len_list csvFiles =? 0); [intros H; contradiction|].
    destruct (convertCSVFilesToJSON rt world csvFiles) as [datasets [err|]] eqn:Ec;
      [intros H; contradiction|].
    unfold writeJSON.
    destruct (createJSON disk); cbn [negb]; [|intros H; contradiction].
    destruct (encodeJSON disk datasets) eqn:Ee; cbn [negb]; intros _.
    + split; [exact Hp|]. split; [reflexivity|].
      exists dateRange, csvFiles, datasets.
      repeat split; try assumption; discriminate.
    + split; [exact Hp|]. split; [reflexivity|].
      exists dateRange, csvFiles, datasets.
      split; [reflexivity|]. split; [exact Ef|]. split; [exact Ec|].
      intros _. response_fields. auto.
Qed.

Lemma wellFormed_preflight (r : Request) :
  Method r = "OPTIONS" →
  wellFormed r (WriteHeader (setHeaders newResponseWriter) StatusOK).
Proof.
  intros Ho. unfold wellFormed. rewrite header_WriteHeader.
  destruct (header_setHeaders newResponseWriter eq_refl) as (H1 & H2 & H3 & H4).
  do 4 (split; [assumption|]). split.
  - intros _. split.
    + apply status_WriteHeader. rewrite status_setHeaders. reflexivity.
    + rewrite body_WriteHeader, body_setHeaders. reflexivity.
  - intros H. contradiction.
Qed.

Lemma wellFormed_fail (r : Request) code text :
  Method r ≠ "OPTIONS" →
  code = StatusBadRequest ∨ code = StatusNotFound
  ∨ code = StatusMethodNotAllowed ∨ code = StatusInternalServerError →
  wellFormed r (fail (setHeaders newResponseWriter) code text).
Proof.
  intros Ho Hcode. unfold wellFormed. rewrite header_fail.
  destruct (header_setHeaders newResponseWriter eq_refl) as (H1 & H2 & H3 & H4).
  do 4 (split; [assumption|]). split; [intros H; contradiction|].
  intros _. exists (mkGenerateResponse false "" "" (Some text)), code.
  rewrite body_fail, body_setHeaders, status_fail
    by (rewrite status_setHeaders; reflexivity).
  cbn. repeat split; try assumption. discriminate.
Qed.

Lemma wellFormed_writeJSON (r : Request) disk datasets message output :
  Method r ≠ "OPTIONS" →
  wellFormed r
    (fst (writeJSON disk (setHeaders newResponseWriter) datasets message output)).
Proof.
  intros Ho. unfold writeJSON.
  destruct (createJSON disk); cbn [negb fst];
    [|apply wellFormed_fail; auto].
  destruct (encodeJSON disk datasets); cbn [negb fst];
    [|apply wellFormed_fail; auto].
  unfold wellFormed. rewrite header_Encode.
  destruct (header_setHeaders newResponseWriter eq_refl) as (H1 & H2 & H3 & H4).
  do 4 (split; [assumption|]). split; [intros H; contradiction|].
  intros _. exists (mkGenerateResponse true message output None), StatusOK.
  rewrite body_Encode, body_setHeaders, status_Encode
    by (rewrite status_setHeaders; reflexivity).
  cbn. auto.
Qed.

(** X15. Whatever the request and whatever the state of the files, the
    answer of either handler carries the three CORS headers and the
    JSON content type; a preflight request gets the status 200 and an
    empty body; any other request gets exactly one JSON value: a
    success under the status 200, or a failure that says why under one
    of the statuses 400, 404, 405 and 500. *)
Theorem X15_every_answer_is_well_formed
  (rt : Runtime) (world : World) (disk : Disk) (r : Request) :
  wellFormed r (fst (generateDataHandler rt world disk newResponseWriter r))
  ∧ wellFormed r (fst (generateDataRangeHandler rt world disk newResponseWriter r)).
Proof.
  split.
  - unfold generateDataHandler.
    destruct (String.eqb_spec (Method r) "OPTIONS") as [Ho|Ho];
      [apply wellFormed_preflight; exact Ho|].
    destruct (negb _); [apply wellFormed_fail; auto|].
    destruct (findLatestCSV world) as [csvFile [err|]];
      [apply wellFormed_fail; auto|].
    destruct (convertCSVToJSON rt world csvFile) as [datasets [err|]];
      [apply wellFormed_fail; auto|].
    apply wellFormed_writeJSON. exact Ho.
  - unfold generateDataRangeHandler.
    destruct (String.eqb_spec (Method r) "OPTIONS") as [Ho|Ho];
      [apply wellFormed_preflight; exact Ho|].
    destruct (negb _); [apply wellFormed_fail; auto|].
    destruct (Body r) as [dateRange|]; [|apply wellFormed_fail; auto].
    destruct (findCSVFilesInRange world _ _) as [csvFiles [err|]];
      [apply wellFormed_fail; auto|].
    destruct (gostring.len_list csvFiles =? 0); [apply wellFormed_fail; auto|].
    destruct (convertCSVFilesToJSON rt world csvFiles) as [datasets [err|]];
      [apply wellFormed_fail; auto|].
    apply wellFormed_writeJSON. exact Ho.
Qed.

(** X16. The statuses of [generateDataRangeHandler] for a POST: 400
    exactly when the body cannot be decoded; 404 exactly when the dates
    of the body are accepted and no file lies in their range; and 500,
    not 400, when [findCSVFilesInRange] returns an error, as it does for
    a date that does not parse. *)
Theorem X16_range_statuses
  (rt : Runtime) (world : World) (disk : Disk) (r : Request) :
  Method r = "POST" →
  let w := fst (generateDataRangeHandler rt world disk newResponseWriter r) in
  (status w = Some StatusBadRequest ↔ Body r = None)
  ∧ (status w = Some StatusNotFound
     ↔ ∃ dateRange,
         Body r = Some dateRange
         ∧ findCSVFilesInRange world (From dateRange) (To dateRange) = ([], None))
  ∧ ∀ dateRange err,
      Body r = Some dateRange →
      snd (findCSVFilesInRange world (From dateRange) (To dateRange)) = Some err →
      status w = Some StatusInternalServerError
      ∧ body w = [mkGenerateResponse false "" "" (Some (textError err))].
Proof.
  intros Hp. cbv zeta. unfold generateDataRangeHandler. rewrite Hp.
  cbn [String.eqb Ascii.eqb Bool.eqb negb].
  assert (Hs0 : status (setHeaders newResponseWriter) = None)
    by (rewrite status_setHeaders; reflexivity).
  assert (Hw : ∀ datasets message output,
            ∃ code, status (fst (writeJSON disk (setHeaders newResponseWriter)
                                   datasets message output)) = Some code
                    ∧ (code = StatusOK ∨ code = StatusInternalServerError)).
  { intros ds message output. unfold writeJSON.
    destruct (createJSON disk); cbn [negb fst];
      [|rewrite status_fail by assumption; eauto].
    destruct (encodeJSON disk ds); cbn [negb fst];
      [|rewrite status_fail by assumption; eauto].
    rewrite status_Encode by assumption. eauto. }
  destruct (Body r) as [dateRange|].
  2: { cbn [fst]. rewrite status_fail by assumption.
       split; [split; reflexivity|]. split; [|discriminate].
       split; [discriminate|]. intros (d & [=] & _). }
  destruct (findCSVFilesInRange world (From dateRange) (To dateRange))
    as [csvFiles [err|]] eqn:Ef.
  { cbn [fst snd]. rewrite status_fail, body_fail, body_setHeaders by assumption.
    split; [split; discriminate|]. split.
    - split; [discriminate|].
      intros (d & [= <-] & E). rewrite Ef in E. discriminate.
    - intros d e [= <-] E. rewrite Ef in E. injection E as <-.
      split; reflexivity. }
  destruct (Z.eqb_spec (gostring.len_list csvFiles) 0) as [Hl|Hl].
  { cbn [fst snd]. rewrite status_fail by assumption.
    split; [split; discriminate|]. split; [|intros d e [= <-] E; rewrite Ef in E; discriminate].
    split; [|reflexivity].
    intros _. exists dateRange. split; [reflexivity|].
    destruct csvFiles; [exact Ef | discriminate]. }
  assert (Hne : csvFiles ≠ []) by (intros ->; apply Hl; reflexivity).
  destruct (convertCSVFilesToJSON rt world csvFiles) as [datasets [err|]].
  { cbn [fst snd]. rewrite status_fail by assumption.
    split; [split; discriminate|]. split; [|intros d e [= <-] E; rewrite Ef in E; discriminate].
    split; [discriminate|].
    intros (d & [= <-] & E). rewrite Ef in E. injection E as ->. contradiction. }
  match goal with
  | |- context [writeJSON disk ?w0 ?ds ?m ?o] =>
      destruct (Hw ds m o) as (code & -> & Hcode)
  end.
  split; [|split; [|intros d e [= <-] E; rewrite Ef in E; discriminate]].
  - split; [|discriminate]. intros [= ->]. destruct Hcode; discriminate.
  - split.
    + intros [= ->]. destruct Hcode; discriminate.
    + intros (d & [= <-] & E). rewrite Ef in E. injection E as ->.
      contradiction.
Qed.

Lemma X16_range_statuses_witness :
  status (fst (generateDataRangeHandler pdqRuntime sampleWorld
                 (mkDisk true (λ _, true)) newResponseWriter
                 (mkRequest "POST" None)))
  = Some StatusBadRequest.
Proof.
  apply (X16_range_statuses pdqRuntime sampleWorld (mkDisk true (λ _, true))
           (mkRequest "POST" None) eq_refl).
  reflexivity.
Defined.

(** X17. When the pattern matches files but none of them can be
    inspected, [findLatestCSV] returns the empty name without error,
    and [generateDataHandler] goes on to convert the file of that name:
    as the empty name cannot be opened, a POST is answered with the
    status 500 and the failure to convert, and [gym-data.json] is
    kept. *)
Theorem X17_generate_without_inspectable_file_fails_to_convert
  (rt : Runtime) (world : World) (disk : Disk) (r : Request) :
  Method r = "POST" →
  filepath.Glob (dirNames world) ≠ [] →
  (∀ file, List.In file (filepath.Glob (dirNames world)) →
           statModTime world file = None) →
  openCSV world "" = None →
  generateDataHandler rt world disk newResponseWriter r
  = (fail (setHeaders newResponseWriter) StatusInternalServerError
       (textConvertCSV (errProcess "" (errOpenCSV ""))),
     fileKept).
Proof.
  intros Hp Hne Hstat Hopen. unfold generateDataHandler. rewrite Hp.
  cbn [String.eqb Ascii.eqb Bool.eqb negb].
  unfold findLatestCSV. rewrite len_list_nonempty by assumption.
  rewrite latest_no_stat by assumption.
  unfold convertCSVToJSON. rewrite convertCSVFilesToJSON_unfold.
  cbn [processFiles]. unfold processCSVFile. rewrite Hopen. reflexivity.
Qed.

Lemma X17_generate_without_inspectable_file_fails_to_convert_witness :
  generateDataHandler pdqRuntime (bareWorld januaryLogs)
    (mkDisk true (λ _, true)) newResponseWriter (mkRequest "POST" None)
  = (fail (setHeaders newResponseWriter) StatusInternalServerError
       (textConvertCSV (errProcess "" (errOpenCSV ""))),
     fileKept).
Proof.
  apply X17_generate_without_inspectable_file_fails_to_convert.
  - reflexivity.
  - vm_compute. discriminate.
  - intros file _. reflexivity.
  - reflexivity.
Defined.

(** X18. A POST to [generateDataRangeHandler] whose [from] date is
    after its [to] date, both well written, is answered like a range
    without files: with the status 404 and the two dates in the text of
    the failure, not as an invalid request; [gym-data.json] is kept. *)
Theorem X18_inverted_range_is_answered_not_found
  (rt : Runtime) (world : World) (disk : Disk) (r : Request)
  (fromDate toDate : string) (from to : time.civil) :
  Method r = "POST" →
  Body r = Some (mkDateRangeRequest fromDate toDate) →
  time.parseCivil time.layoutDate fromDate = Some from →
  time.parseCivil time.layoutDate toDate = Some to →
  dateLt to from →
  filepath.Glob (dirNames world) ≠ [] →
  generateDataRangeHandler rt world disk newResponseWriter r
  = (fail (setHeaders newResponseWriter) StatusNotFound
       (textNoFilesForRange fromDate toDate),
     fileKept).
Proof.
  intros Hp Hb Hf Ht Hlt Hne. unfold generateDataRangeHandler. rewrite Hp, Hb.
  cbn [String.eqb Ascii.eqb Bool.eqb negb From To].
  rewrite (inverted_range_empty world fromDate toDate from to) by assumption.
  reflexivity.
Qed.

Lemma X18_inverted_range_is_answered_not_found_witness :
  generateDataRangeHandler pdqRuntime (bareWorld januaryLogs)
    (mkDisk true (λ _, true)) newResponseWriter
    (mkRequest "POST" (Some (mkDateRangeRequest "2024-01-14" "2024-01-12")))
  = (fail (setHeaders newResponseWriter) StatusNotFound
       (textNoFilesForRange "2024-01-14" "2024-01-12"),
     fileKept).
Proof.
  apply (X18_inverted_range_is_answered_not_found _ _ _ _ _ _
           (time.mkCivil 2024 1 14 0 0 0) (time.mkCivil 2024 1 12 0 0 0)).
  - reflexivity.
  - reflexivity.
  - vm_compute. reflexivity.
  - vm_compute. reflexivity.
  - unfold dateLt; simpl; lia.
  - vm_compute. discriminate.
Defined.

End HandlerExtras.

(* ===================================================================== *)
(** * Further properties of the Time Normalizer                            *)
(* ===================================================================== *)

Section NormalizerExtras.

Import time.

(** X10. When Europe/Tallinn cannot be loaded the timestamps are
    normalized in the fixed zone UTC+2: the rounded time of a parsed
    sample is the start of the two minutes of UTC the sample lies in,
    so it is never after the sample and less than 120 seconds before
    it, and it is shown with the offset of two hours. *)
Theorem X10_fallback_zone_rounds_down
  (w : World) (value : string) (t : Time) :
  loadTallinn w = None →
  Parse layoutDateTime value = Some t →
  let rounded := roundedTallinnTime (tallinnTZ w) t in
  rounded = mkTime (120 * (unixSec t / 120)) (FixedZone (2 * 3600))
  ∧ unixSec rounded <= unixSec t < unixSec rounded + 120
  ∧ offsetAt (location rounded) (unixSec rounded) = 2 * 3600.
Proof.
  intros Hload Hparse. cbv zeta. unfold tallinnTZ. rewrite Hload.
  rewrite (roundedTallinnTime_fixed (2 * 3600) t (Parse_UTC _ _ _ Hparse) eq_refl).
  cbn [unixSec location]. split; [reflexivity|]. split; [dlia|].
  unfold offsetAt. rewrite lookup_FixedZone. reflexivity.
Qed.

Lemma X10_fallback_zone_rounds_down_witness :
  roundedTallinnTime (tallinnTZ (bareWorld januaryLogs)) (mkTime 1717239827 UTC)
  = mkTime (120 * (1717239827 / 120)) (FixedZone (2 * 3600)).
Proof.
  apply (X10_fallback_zone_rounds_down (bareWorld januaryLogs)
           "2024-06-01 11:03:47" (mkTime 1717239827 UTC)
           eq_refl ltac:(vm_compute; reflexivity)).
Defined.

(** X11. In a zone with a summer time, as Europe/Tallinn is, the
    rounded time of a parsed sample is the start of its two minutes,
    except in the last hour of the summer time (the last
    [summer - winter] seconds before [autumn]): the wall clock of such
    a sample is read back by [time.Date] as the winter time, and its
    rounded time is that much later than the start of its two
    minutes. *)
Theorem X11_last_hour_of_summer_time_moves_forward
  (winter summer spring autumn : Z) (value : string) (t : Time) :
  Parse layoutDateTime value = Some t →
  0 < winter < summer →
  winter mod 120 = 0 → summer mod 120 = 0 →
  spring mod 120 = 0 → autumn mod 120 = 0 →
  spring + summer <= autumn →
  let loc := mkLocation winter [(spring, summer); (autumn, winter)] in
  let start := 120 * (unixSec t / 120) in
  (autumn - (summer - winter) <= unixSec t < autumn →
   roundedTallinnTime loc t = mkTime (start + (summer - winter)) loc)
  ∧ (¬ (autumn - (summer - winter) <= unixSec t < autumn) →
     roundedTallinnTime loc t = mkTime start loc).
Proof.
  intros Hparse Hws Hw Hs Hsp Hau Hgap loc start.
  pose proof (roundedTallinnTime_summer winter summer spring autumn t
                (Parse_UTC _ _ _ Hparse) Hws Hw Hs Hsp Hau Hgap) as H.
  cbv zeta in H. subst loc start. rewrite H. split; intros Hr.
  - replace ((autumn - (summer - winter) <=? unixSec t) && (unixSec t <? autumn))
      with true; [reflexivity|].
    symmetry. apply andb_true_iff. rewrite Z.leb_le, Z.ltb_lt. exact Hr.
  - replace ((autumn - (summer - winter) <=? unixSec t) && (unixSec t <? autumn))
      with false; [f_equal; lia|].
    symmetry. apply not_true_is_false. intros Hb. apply Hr.
    apply andb_true_iff in Hb. rewrite Z.leb_le, Z.ltb_lt in Hb. exact Hb.
Qed.

Lemma X11_last_hour_of_summer_time_moves_forward_witness :
  roundedTallinnTime tallinn2024 (mkTime 1729989010 UTC)
  = mkTime (120 * (1729989010 / 120) + (10800 - 7200)) tallinn2024.
Proof.
  apply (X11_last_hour_of_summer_time_moves_forward
           7200 10800 1711846800 1729990800
           "2024-10-27 00:30:10" (mkTime 1729989010 UTC)
           ltac:(vm_compute; reflexivity) ltac:(lia)
           eq_refl eq_refl eq_refl eq_refl ltac:(lia)).
  cbn [unixSec]. lia.
Defined.

End NormalizerExtras.
